(** * Retrieval and ranking engine of the AI commerce agent

    A shallow embedding of the catalog search module
    ([backend/agent/tools.py]) and of the relaxation, fallback and
    de-duplication logic of the chat handler ([backend/app.py]).

    Conventions.
    - Python [str] values are [string]s of ASCII characters; [lower],
      [isalnum], [isspace] and [strip] are given on ASCII.
    - Python [float] values (prices, similarity scores) are rationals [Q]:
      arithmetic is exact, rounding is not modelled.
    - Python [int] values that a request can set freely ([top_k]) are [Z], so
      that zero and negative values behave as in the source ([len(out) >=
      top_k], [xs[:top_k]]).
    - A pandas frame is the list of its rows; the row label is the position
      ([read_csv] gives a [RangeIndex]). [df.iloc[i]] outside the frame raises
      [IndexError]: functions that index the frame return [option].
    - A Python [set] is the list of its elements and is read through
      membership only.
    - The writes to the [trace] dictionary do not reach the results and are
      left out. *)

From Stdlib Require Import String Ascii List ZArith QArith Lia Lqa Bool Arith.
From Stdlib Require Import Permutation Sorted.
Import ListNotations.

Local Open Scope string_scope.
Local Open Scope list_scope.

Set Implicit Arguments.

(* ================================================================== *)
(** ** Python built-ins used by the source *)

Module Py.

(** [ch.lower()] *)
Definition lower_char (c : ascii) : ascii :=
  let n := nat_of_ascii c in
  if (65 <=? n)%nat && (n <=? 90)%nat then ascii_of_nat (n + 32) else c.

(** [s.lower()] *)
Fixpoint lower (s : string) : string :=
  match s with
  | EmptyString => EmptyString
  | String c r => String (lower_char c) (lower r)
  end.

(** [ch.isalnum()] *)
Definition isalnum (c : ascii) : bool :=
  let n := nat_of_ascii c in
  ((48 <=? n) && (n <=? 57) || (65 <=? n) && (n <=? 90)
   || (97 <=? n) && (n <=? 122))%nat.

(** [ch.isspace()] *)
Definition isspace (c : ascii) : bool :=
  let n := nat_of_ascii c in
  ((9 <=? n) && (n <=? 13) || (28 <=? n) && (n <=? 32))%nat.

Fixpoint filter_chars (p : ascii -> bool) (s : string) : string :=
  match s with
  | EmptyString => EmptyString
  | String c r => if p c then String c (filter_chars p r) else filter_chars p r
  end.

Fixpoint map_chars (f : ascii -> ascii) (s : string) : string :=
  match s with
  | EmptyString => EmptyString
  | String c r => String (f c) (map_chars f r)
  end.

(** [s.lstrip()] *)
Fixpoint lstrip (s : string) : string :=
  match s with
  | EmptyString => EmptyString
  | String c r => if isspace c then lstrip r else s
  end.

(** [s.rstrip()] *)
Fixpoint rstrip (s : string) : string :=
  match s with
  | EmptyString => EmptyString
  | String c r =>
      match rstrip r with
      | EmptyString => if isspace c then EmptyString else String c EmptyString
      | r' => String c r'
      end
  end.

(** [s.strip()] *)
Definition strip (s : string) : string := rstrip (lstrip s).

(** [pat in s] on strings *)
Fixpoint str_in (pat s : string) : bool :=
  String.prefix pat s ||
  match s with
  | EmptyString => false
  | String _ r => str_in pat r
  end.

(** [s.split()]: maximal runs of non-whitespace characters. [cur] is the run
    being read. *)
Fixpoint split_ws (cur : string) (s : string) : list string :=
  match s with
  | EmptyString =>
      match cur with EmptyString => [] | _ => [cur] end
  | String c r =>
      if isspace c
      then match cur with
           | EmptyString => split_ws EmptyString r
           | _ => cur :: split_ws EmptyString r
           end
      else split_ws (cur ++ String c EmptyString) r
  end.

Definition split (s : string) : list string := split_ws EmptyString s.

(** [xs[:k]] *)
Definition slice_to {A} (k : Z) (xs : list A) : list A :=
  if (0 <=? k)%Z then firstn (Z.to_nat k) xs
  else firstn (Z.to_nat (Z.of_nat (length xs) + k)) xs.

(** Truth value of an [Optional[str]]: [None] and [""] are false. *)
Definition truthy (o : option string) : bool :=
  match o with
  | Some (String _ _) => true
  | _ => false
  end.

(** [x in xs] for a list or set of strings *)
Definition mem_str (x : string) (xs : list string) : bool :=
  existsb (String.eqb x) xs.

Definition mem_nat (x : nat) (xs : list nat) : bool :=
  existsb (Nat.eqb x) xs.

Definition Qltb (x y : Q) : bool := negb (Qle_bool y x).

Definition Qmax (x y : Q) : Q := if Qle_bool x y then y else x.

End Py.

(* ================================================================== *)
(** ** pandas [Series.str.contains(pat, case=False, na=False)]

    pandas reads [pat] as a regular expression ([regex=True] is the default),
    compiles it and searches it with [re.IGNORECASE]. The fragment covered
    here is the one of patterns made of ordinary characters and of [.], which
    matches any character but a newline; [re_in_fragment] decides it. Outside
    the fragment, where Python compiles a richer expression or raises
    [re.error], the operations that match a pattern return [None]. *)

Module Re.

Definition special_chars : string := ".^$*+?{}[]\|()".

Definition is_special (c : ascii) : bool :=
  Py.str_in (String c EmptyString) special_chars.

Definition dot : ascii := "."%char.
Definition newline : ascii := ascii_of_nat 10.

Fixpoint forall_chars (p : ascii -> bool) (s : string) : bool :=
  match s with
  | EmptyString => true
  | String c r => p c && forall_chars p r
  end.

(** The pattern has no special character but [.]. *)
Definition re_in_fragment (pat : string) : bool :=
  forall_chars (fun c => Ascii.eqb c dot || negb (is_special c)) pat.

(** The pattern has no special character at all: it is read literally. *)
Definition re_literal (pat : string) : bool :=
  forall_chars (fun c => negb (is_special c)) pat.

(** One pattern character against one subject character. *)
Definition match_char (p c : ascii) : bool :=
  if Ascii.eqb p dot then negb (Ascii.eqb c newline)
  else Ascii.eqb (Py.lower_char p) (Py.lower_char c).

(** [re.match(pat, s, re.IGNORECASE) is not None] *)
Fixpoint match_here (pat s : string) : bool :=
  match pat with
  | EmptyString => true
  | String p pr =>
      match s with
      | EmptyString => false
      | String c sr => match_char p c && match_here pr sr
      end
  end.

(** [re.search(pat, s, re.IGNORECASE) is not None] *)
Fixpoint search (pat s : string) : bool :=
  match_here pat s ||
  match s with
  | EmptyString => false
  | String _ r => search pat r
  end.

End Re.

(** An error or a result. *)
Notation "x <- c ;; k" := (match c with Some x => k | None => None end)
  (at level 61, c at next level, right associativity).

(* ================================================================== *)
(** ** Data model ([agent/models.py]) *)

Record Product := mkProduct {
  id : string;
  title : string;
  description : string;
  category : string;
  brand : string;
  price : Q;
  currency : string;
  image_url : string;
  product_url : option string;
  tags : string
}.

Record FilterSpec := mkFilterSpec {
  f_brand : option string;
  f_category : option string;
  f_price_min : option Q;
  f_price_max : option Q;
  f_tags_contains : option string
}.

(** [FilterSpec()] *)
Definition no_filters : FilterSpec := mkFilterSpec None None None None None.

(** The catalog frame [INDEX.df]. *)
Definition DataFrame := list Product.

(** A frame with its row labels, as [apply_filters] returns it. *)
Definition LabelledFrame := list (nat * Product).

Definition labelled (df : DataFrame) : LabelledFrame :=
  combine (seq 0 (length df)) df.

Definition empty_row : Product :=
  mkProduct "" "" "" "" "" 0 "" "" None "".

(** [df.iloc[i]] for a position inside the frame. Outside the frame pandas
    raises [IndexError]; the functions that read rows check the positions
    first and return [None] for that error. *)
Definition row (df : DataFrame) (i : nat) : Product := nth i df empty_row.

(* ================================================================== *)
(** ** [apply_filters] ([agent/tools.py]) *)

Definition opt_str (o : option string) : string :=
  match o with Some s => s | None => "" end.

Definition on_rows (k : Product -> bool) (out : LabelledFrame) : LabelledFrame :=
  filter (fun r => k (snd r)) out.

(** [out[out[col].str.contains(pat, case=False, na=False)]] *)
Definition str_contains (col : Product -> string) (pat : string) (out : LabelledFrame)
  : option LabelledFrame :=
  if Re.re_in_fragment pat then Some (on_rows (fun p => Re.search pat (col p)) out)
  else None.

Definition apply_filters (df : LabelledFrame) (f : FilterSpec) : option LabelledFrame :=
  let out := df in
  let out :=
    if Py.truthy (f_brand f)
    then on_rows (fun p => String.eqb (Py.lower (brand p))
                                      (Py.lower (opt_str (f_brand f)))) out
    else out in
  out <- (if Py.truthy (f_category f)
          then str_contains category (opt_str (f_category f)) out
          else Some out) ;;
  let out :=
    match f_price_min f with
    | Some lo => on_rows (fun p => Qle_bool lo (price p)) out
    | None => out
    end in
  let out :=
    match f_price_max f with
    | Some hi => on_rows (fun p => Qle_bool (price p) hi) out
    | None => out
    end in
  out <- (if Py.truthy (f_tags_contains f)
          then str_contains tags (opt_str (f_tags_contains f)) out
          else Some out) ;;
  Some out.

(** [x is not None] *)
Definition is_set {A} (o : option A) : bool :=
  match o with Some _ => true | None => false end.

(** [any([f.brand, f.category, f.price_min is not None, f.price_max is not
    None, f.tags_contains])] *)
Definition any_filter (f : FilterSpec) : bool :=
  Py.truthy (f_brand f) || Py.truthy (f_category f)
  || is_set (f_price_min f) || is_set (f_price_max f)
  || Py.truthy (f_tags_contains f).

(* ================================================================== *)
(** ** [list.sort(key=..., reverse=True)]

    Python's sort is stable, also with [reverse=True]: elements with equal
    keys keep their order. [insert_desc] puts [x], which stood before every
    element of [l], in front of the first element whose key does not exceed
    its own. *)

Section Sort.
Context {A : Type} (key : A -> Q).

Fixpoint insert_desc (x : A) (l : list A) : list A :=
  match l with
  | [] => [x]
  | y :: r =>
      if Py.Qltb (key x) (key y) then y :: insert_desc x r else x :: y :: r
  end.

Fixpoint sort_desc (l : list A) : list A :=
  match l with
  | [] => []
  | x :: r => insert_desc x (sort_desc r)
  end.
End Sort.

(* ================================================================== *)
(** ** The relaxation pipeline: [_pick_with_filters] ([app.py]) *)

Definition DedupKey := (string * string)%type.

Definition key_eqb (a b : DedupKey) : bool :=
  String.eqb (fst a) (fst b) && String.eqb (snd a) (snd b).

Definition mem_key (k : DedupKey) (seen : list DedupKey) : bool :=
  existsb (key_eqb k) seen.

(** [norm]: lowercase, keep alphanumerics and whitespace, strip. *)
Definition norm (s : string) : string :=
  Py.strip (Py.filter_chars (fun ch => Py.isalnum ch || Py.isspace ch) (Py.lower s)).

Definition product_key (p : Product) : DedupKey := (norm (title p), norm (brand p)).

Section Pipeline.
Variable df : DataFrame.
Variable filters : FilterSpec.
Variable top_k : Z.

Definition dedup_key (i : nat) : DedupKey := product_key (row df i).

(** The loop of [add_unique]: [seen_keys] and [out] are the loop state. *)
Fixpoint add_unique_loop (seen_keys : list DedupKey) (out : list nat)
         (pool : list nat) : list nat :=
  match pool with
  | [] => out
  | i :: pool' =>
      if (top_k <=? Z.of_nat (length out))%Z then out
      else
        let key := dedup_key i in
        if mem_key key seen_keys then add_unique_loop seen_keys out pool'
        else add_unique_loop (key :: seen_keys) (out ++ [i]) pool'
  end.

Definition add_unique (seed pool : list nat) : list nat :=
  add_unique_loop (map dedup_key seed) seed pool.

Definition within_price_brand (i : nat) : bool :=
  let r := row df i in
  let price := price r in
  if match f_price_min filters with
     | Some lo => Py.Qltb price lo
     | None => false
     end then false
  else if match f_price_max filters with
          | Some hi => Py.Qltb hi price
          | None => false
          end then false
  else if Py.truthy (f_brand filters)
          && negb (String.eqb (Py.lower (brand r))
                              (Py.lower (opt_str (f_brand filters))))
  then false
  else true.

(** Stage 1: the candidates whose id is the id of a row of [allowed], the
    frame [apply_filters] returned. *)
Definition primary_all (allowed : LabelledFrame) (cand_idxs : list nat) : list nat :=
  let allowed_ids := map (fun r => id (snd r)) allowed in
  filter (fun i => Py.mem_str (id (row df i)) allowed_ids) cand_idxs.

Definition stage1 (allowed : LabelledFrame) (cand_idxs : list nat) : list nat :=
  add_unique [] (primary_all allowed cand_idxs).

(** Stage 2: relax within the category. *)
Definition cat_pool (cand_idxs chosen : list nat) : list nat :=
  let cat := Py.lower (opt_str (f_category filters)) in
  filter (fun i => negb (Py.mem_nat i chosen)
                   && Py.str_in cat (Py.lower (category (row df i)))
                   && within_price_brand i) cand_idxs.

Definition stage2 (cand_idxs chosen : list nat) : list nat :=
  if (Z.of_nat (length chosen) <? top_k)%Z && Py.truthy (f_category filters)
  then add_unique chosen (cat_pool cand_idxs chosen)
  else chosen.

(** Stage 3: fill from any candidate, only when no category was asked. *)
Definition fill_pool (cand_idxs chosen : list nat) : list nat :=
  filter (fun i => negb (Py.mem_nat i chosen) && within_price_brand i) cand_idxs.

Definition stage3 (cand_idxs chosen : list nat) : list nat :=
  if (Z.of_nat (length chosen) <? top_k)%Z && negb (Py.truthy (f_category filters))
  then add_unique chosen (fill_pool cand_idxs chosen)
  else chosen.

(** The list after the three stages. *)
Definition staged (allowed : LabelledFrame) (cand_idxs : list nat) : list nat :=
  stage3 cand_idxs (stage2 cand_idxs (stage1 allowed cand_idxs)).

Variable min_unique : Z.

(** The guard of the minimum-unique override. *)
Definition override_fires (cand_idxs chosen : list nat) : bool :=
  (Z.of_nat (length chosen) <? min_unique)%Z
  && (min_unique <=? Z.of_nat (length cand_idxs))%Z.

Definition override (cand_idxs : list nat) : list nat :=
  Py.slice_to (Z.max min_unique top_k) (add_unique [] cand_idxs).

(** [_pick_with_filters(scored_list, filters, top_k)]. Stage 1 calls
    [apply_filters] and then reads [df.iloc[i]] for every candidate, so a
    pattern that is not handled or a candidate outside the frame ends the
    call before anything is chosen. *)
Definition _pick_with_filters (scored_list : list (nat * Q)) : option (list nat) :=
  let cand_idxs := map fst scored_list in
  allowed <- apply_filters (labelled df) filters ;;
  if forallb (fun i => i <? length df)%nat cand_idxs then
    let chosen := staged allowed cand_idxs in
    Some (if override_fires cand_idxs chosen then override cand_idxs else chosen)
  else None.
End Pipeline.

(** [MIN_UNIQUE_RESULTS] when the environment does not set it. *)
Definition default_min_unique : Z := 2.

(* ================================================================== *)
(** ** The keyword scorer: [_keyword_fallback] ([app.py]) *)

(** [1e-6] *)
Definition eps : Q := 1 # 1000000.

Definition nonempty (s : string) : bool :=
  match s with EmptyString => false | _ => true end.

(** [[t for t in ''.join([c if c.isalnum() else ' ' for c in text]).split() if t]] *)
Definition tokens_of (text : string) : list string :=
  filter nonempty
    (Py.split (Py.map_chars (fun c => if Py.isalnum c then c else " "%char) text)).

Section Fallback.
Variable df : DataFrame.
Variable filters : FilterSpec.
Variable top_k : Z.

(** The pool: the filtered frame when a filter is set, else the catalog. *)
Definition fallback_cand : option LabelledFrame :=
  if any_filter filters then apply_filters (labelled df) filters
  else Some (labelled df).

(** The score after the brand, tag and title/description signals. *)
Definition keyword_score (text : string) (token_set : list string) (r : Product) : Q :=
  let title := Py.lower (title r) in
  let desc := Py.lower (description r) in
  let brand := Py.lower (brand r) in
  let tags := Py.lower (tags r) in
  let s := 0 in
  let s := if nonempty brand && Py.str_in brand text then s + 5 else s in
  let s := fold_left (fun s tok =>
                        if nonempty tok && Py.str_in tok tags then s + 2 else s)
                     token_set s in
  let s := fold_left (fun s tok =>
                        if nonempty tok && (Py.str_in tok title || Py.str_in tok desc)
                        then s + 1 else s)
                     token_set s in
  s.

(** One turn of the scoring loop: [None] is [continue] or a score that is
    not positive, [Some s] is the score appended to [scores]. *)
Definition fallback_row (text : string) (token_set : list string) (r : Product)
  : option Q :=
  let price := price r in
  let s := keyword_score text token_set r in
  if match f_price_min filters with
     | Some lo => Py.Qltb price lo
     | None => false
     end then None
  else if match f_price_max filters with
          | Some hi => Py.Qltb hi price
          | None => false
          end then None
  else
    let s := match f_price_max filters with
             | Some mx => s + 1.5 * (price / Py.Qmax mx eps)
             | None => s
             end in
    if Py.truthy (f_category filters)
       && negb (Py.str_in (Py.lower (opt_str (f_category filters)))
                          (Py.lower (category r)))
    then None
    else if Py.Qltb 0 s then Some s else None.

Fixpoint fallback_scores (text : string) (token_set : list string)
         (cand : LabelledFrame) : list (nat * Q) :=
  match cand with
  | [] => []
  | (idx, r) :: cand' =>
      match fallback_row text token_set r with
      | Some s => (idx, s) :: fallback_scores text token_set cand'
      | None => fallback_scores text token_set cand'
      end
  end.

Definition _keyword_fallback (user_text : string) : option (list nat) :=
  cand <- fallback_cand ;;
  let text := Py.lower user_text in
  let tokens := tokens_of text in
  let token_set := nodup string_dec tokens in
  let scores := fallback_scores text token_set cand in
  let scores := sort_desc snd scores in
  Some (map fst (Py.slice_to top_k scores)).
End Fallback.

(* ================================================================== *)
(** ** The text-recommendation branch of [chat] ([app.py]) *)

(** The closing loop of [chat]: drop products whose id was seen. *)
Fixpoint unique_loop (seen : list string) (unique : list Product)
         (products : list Product) : list Product :=
  match products with
  | [] => unique
  | p :: rest =>
      if Py.mem_str (id p) seen then unique_loop seen unique rest
      else unique_loop (id p :: seen) (unique ++ [p]) rest
  end.

Definition dedup_products (products : list Product) : list Product :=
  unique_loop [] [] products.

(** [[p for p in products if p.id in allowed_ids]] when a filter is set. *)
Definition prune (df : DataFrame) (filters : FilterSpec) (products : list Product)
  : option (list Product) :=
  if any_filter filters then
    allowed <- apply_filters (labelled df) filters ;;
    let allowed_ids := map (fun r => id (snd r)) allowed in
    Some (filter (fun p => Py.mem_str (id p) allowed_ids) products)
  else Some products.

(** The [TEXT_RECOMMEND] branch from the search result [scored] on: the
    products of the response. The request's own [top_k] goes to the pipeline
    and to the fallback. *)
Definition chat_text_recommend (df : DataFrame) (min_unique : Z)
           (scored : list (nat * Q)) (last_user_text : string)
           (filters : FilterSpec) (req_top_k : Z) : option (list Product) :=
  chosen <- _pick_with_filters df filters req_top_k min_unique scored ;;
  let products := map (row df) chosen in
  products <-
    match products with
    | [] =>
        fallback_idxs <- _keyword_fallback df filters req_top_k last_user_text ;;
        match fallback_idxs with
        | [] => Some products
        | _ => Some (map (row df) fallback_idxs)
        end
    | _ => Some products
    end ;;
  products <- prune df filters products ;;
  Some (dedup_products products).

(* ================================================================== *)
(** ** Vectors and [argmax] (numpy) *)

Definition Vec := list Q.

(** [a @ b] on two vectors of one length. *)
Definition dot (a b : Vec) : Q :=
  fold_left (fun acc xy => acc + fst xy * snd xy) (combine a b) 0.

(** [np.argmax]: the first position of the greatest value. [best] is the
    greatest value so far and [best_i] its position. *)
Fixpoint argmax_from (best_i : nat) (best : Q) (i : nat) (l : list Q) : nat :=
  match l with
  | [] => best_i
  | x :: r =>
      if Py.Qltb best x then argmax_from i x (S i) r
      else argmax_from best_i best (S i) r
  end.

Definition argmax (l : list Q) : nat :=
  match l with
  | [] => 0%nat
  | x :: r => argmax_from 0 x 1 r
  end.

(** Greatest of a non-empty row of values; [0] for an empty one. *)
Definition max_of (l : list Q) : Q :=
  match l with
  | [] => 0
  | x :: r => fold_left Py.Qmax r x
  end.

(* ================================================================== *)
(** ** [CatalogIndex] ([agent/tools.py]) *)

Record CatalogIndex := mkIndex {
  ci_df : DataFrame;
  ci_embeddings : list Vec
}.

(** [-1e9], the score that masks a selected candidate. *)
Definition masked : Q := -1000000000.

(** A stand-in for the score that pads a short result; [_search] drops the
    padding with its position [-1] and never reads the score. *)
Definition pad_score : Q := -1000000000000.

Section Index.
Variable self : CatalogIndex.

Definition embedding (i : nat) : Vec := nth i (ci_embeddings self) [].

(** [self.embeddings.shape[1]], read off the first row. A matrix without rows
    keeps its second dimension in numpy and has none here, so what is stated
    through [dim] is stated for an index that is not empty. *)
Definition dim : nat := length (hd [] (ci_embeddings self)).

(** [_raw_search]: the exact inner-product index behind [self.index.search]
    ([faiss.IndexFlatIP]). The [fetch_k] best rows, greatest score first,
    padded with position [-1]; a query of another dimension is refused.
    Among rows of equal score the lower position comes first here, the rule
    of the specification; the library promises no order among them, and no
    statement below depends on it. *)
Definition _raw_search (query_emb : Vec) (fetch_k : Z) : option (list Q * list Z) :=
  if (length query_emb =? dim)%nat then
    let all := map (fun i => (dot query_emb (embedding i), Z.of_nat i))
                   (seq 0 (length (ci_embeddings self))) in
    let top := firstn (Z.to_nat fetch_k) (sort_desc fst all) in
    let res := top ++ repeat (pad_score, (-1)%Z) (Z.to_nat fetch_k - length top) in
    Some (map fst res, map snd res)
  else None.

(** *** [_mmr] *)
Section MMR.
Variable cand_idxs : list nat.
Variable cand_scores : list Q.
Variable top_k : Z.
Variable diversity : Q.

Definition n_cand : nat := length cand_idxs.

(** [item_vecs[j]] *)
Definition item_vec (j : nat) : Vec := embedding (nth j cand_idxs 0%nat).

(** [sim_to_query[j]] *)
Definition sim_to_query (j : nat) : Q := nth j cand_scores 0.

(** [sim_items[a, b]] *)
Definition sim_items (a b : nat) : Q := dot (item_vec a) (item_vec b).

(** [sim_items[:, sel_mask].max(axis=1)[c]] *)
Definition penalty (selected : list nat) (c : nat) : Q :=
  let sel_cols := filter (fun s => Py.mem_nat s selected) (seq 0 n_cand) in
  max_of (map (sim_items c) sel_cols).

Definition mmr_score (selected : list nat) : list Q :=
  map (fun c =>
         if Py.mem_nat c selected then masked
         else diversity * sim_to_query c - (1 - diversity) * penalty selected c)
      (seq 0 n_cand).

(** The body of the loop: the position appended to [selected]. *)
Definition mmr_pick (selected : list nat) : nat :=
  match selected with
  | [] => argmax cand_scores
  | _ => argmax (mmr_score selected)
  end.

(** The [while] loop; each turn appends one position, so [n_cand] turns
    are enough for the guard to fail (see [mmr_loop_exits]). *)
Fixpoint mmr_loop (fuel : nat) (selected : list nat) : list nat :=
  match fuel with
  | O => selected
  | S fuel' =>
      if (Z.of_nat (length selected) <? Z.min top_k (Z.of_nat n_cand))%Z
      then mmr_loop fuel' (selected ++ [mmr_pick selected])
      else selected
  end.

(** The positions in the candidate list, in selection order. *)
Definition mmr_selected : list nat := mmr_loop n_cand [].

Definition _mmr : list nat :=
  map (fun j => nth j cand_idxs 0%nat) mmr_selected.
End MMR.

(** [diversity: float = 0.3] *)
Definition default_diversity : Q := 0.3.

(** *** [_search] *)

(** Drop the [-1] entries, then the repeated positions. *)
Fixpoint uniq_loop (seen : list nat) (pairs : list (Z * Q)) : list (nat * Q) :=
  match pairs with
  | [] => []
  | (i, s) :: rest =>
      let ii := Z.to_nat i in
      if Py.mem_nat ii seen then uniq_loop seen rest
      else (ii, s) :: uniq_loop (ii :: seen) rest
  end.

Definition valid_unique (cand_scores : list Q) (cand_idxs : list Z) : list (nat * Q) :=
  let kept := filter (fun p => negb (Z.eqb (fst p) (-1))) (combine cand_idxs cand_scores) in
  uniq_loop [] kept.

(** The score of a picked row: the exact similarity and the boosts. *)
Definition boost (query_emb : Vec) (filters : option FilterSpec) (idx : nat) : Q :=
  let score := dot query_emb (embedding idx) in
  let r := row (ci_df self) idx in
  match filters with
  | None => score
  | Some f =>
      let score :=
        if Py.truthy (f_brand f)
           && String.eqb (Py.lower (brand r)) (Py.lower (opt_str (f_brand f)))
        then score + 0.05 else score in
      let score :=
        if Py.truthy (f_category f)
           && Py.str_in (Py.lower (opt_str (f_category f))) (Py.lower (category r))
        then score + 0.03 else score in
      let score :=
        if Py.truthy (f_tags_contains f)
           && Py.str_in (Py.lower (opt_str (f_tags_contains f))) (Py.lower (tags r))
        then score + 0.02 else score in
      match f_price_max f with
      | Some mx =>
          let p := price r in
          if Qle_bool p mx then score + 0.03 * (p / Py.Qmax mx eps) else score
      | None => score
      end
  end.

(** The part of [_search] after MMR: score, sort, cut. *)
Definition rank_picks (query_emb : Vec) (filters : option FilterSpec) (top_k : Z)
           (pick_idxs : list nat) : list (nat * Q) :=
  let out := map (fun idx => (idx, boost query_emb filters idx)) pick_idxs in
  let out := sort_desc snd out in
  Py.slice_to top_k out.

Definition _search (query_emb : Vec) (top_k : Z) (filters : option FilterSpec)
  : option (list (nat * Q)) :=
  let fetch_k := Z.max (top_k * 5) 20 in
  match _raw_search query_emb fetch_k with
  | None => None
  | Some (cand_scores, cand_idxs) =>
      let uniq := valid_unique cand_scores cand_idxs in
      match uniq with
      | [] => Some []
      | _ =>
          let cand_idxs := map fst uniq in
          let cand_scores := map snd uniq in
          let pick_idxs := _mmr cand_idxs cand_scores top_k default_diversity in
          Some (rank_picks query_emb filters top_k pick_idxs)
      end
  end.

(** *** [search_similar_to_id] *)

(** [int(row.index[0])] for [row = df[df['id'] == pid]]; [None] when the
    selection is empty. *)
Fixpoint find_id (pid : string) (rows : LabelledFrame) : option nat :=
  match rows with
  | [] => None
  | (i, r) :: rest => if String.eqb (id r) pid then Some i else find_id pid rest
  end.

Definition search_similar_to_id (pid : string) (top_k : Z)
  : option (list (nat * Q)) :=
  match find_id pid (labelled (ci_df self)) with
  | None => Some []
  | Some base_idx =>
      let q := embedding base_idx in
      match _search q (top_k + 1) None with
      | None => None
      | Some scored =>
          let out := filter (fun p => negb (String.eqb (id (row (ci_df self) (fst p))) pid))
                            scored in
          Some (Py.slice_to top_k out)
      end
  end.
End Index.

(* ================================================================== *)
(** ** The text request, end to end ([chat], intent [TEXT_RECOMMEND])

    [query_emb] stands for [encode_text([last_user_text])[0]] and [filters]
    for the strict filters the handler builds; the encoder and the rule-based
    extraction are outside this development. *)

(** [top_k = max(2, min(requested_k, 24))] *)
Definition clamp_top_k (requested_k : Z) : Z := Z.max 2 (Z.min requested_k 24).

Definition chat_text (self : CatalogIndex) (min_unique : Z) (query_emb : Vec)
           (last_user_text : string) (filters : FilterSpec) (req_top_k : Z)
  : option (list Product) :=
  let top_k := clamp_top_k req_top_k in
  scored <- _search self query_emb (Z.max (top_k * 10) 100) (Some filters) ;;
  chat_text_recommend (ci_df self) min_unique scored last_user_text filters req_top_k.

(* ================================================================== *)
(** ** The embedding cache of [CatalogIndex.__init__] *)

(** What a path holds when the constructor reads it. *)
Inductive File (A : Type) :=
| Missing
| Unreadable
| Holds (content : A).
Arguments Missing {A}.
Arguments Unreadable {A}.
Arguments Holds {A} content.

(** An element of a JSON array: a string, or a value of another kind. *)
Inductive JsonItem :=
| JStr (s : string)
| JNotStr.

(** The value [json.load] returns: an array, a string, an object with [size]
    keys, or a value without length (number, boolean, null). *)
Inductive Json :=
| JArray (items : list JsonItem)
| JText (s : string)
| JObject (size : nat)
| JAtom.

Record Cache := mkCache {
  emb_file : File (list Vec);
  ids_file : File Json
}.

(** [len(ids)]; [None] is [TypeError]. *)
Definition json_len (j : Json) : option nat :=
  match j with
  | JArray items => Some (length items)
  | JText s => Some (String.length s)
  | JObject size => Some size
  | JAtom => None
  end.

Definition item_eqb (s : string) (j : JsonItem) : bool :=
  match j with
  | JStr t => String.eqb s t
  | JNotStr => false
  end.

Fixpoint items_eqb (ids : list string) (items : list JsonItem) : bool :=
  match ids, items with
  | [], [] => true
  | s :: ids', j :: items' => item_eqb s j && items_eqb ids' items'
  | _, _ => false
  end.

(** [list(self.df["id"].astype(str)) == ids] *)
Definition ids_equal (ids : list string) (j : Json) : bool :=
  match j with
  | JArray items => items_eqb ids items
  | _ => false
  end.

(** How the attempt to write the cache back ended. *)
Inductive SaveOutcome :=
| SavedBoth
| SavedEmbeddingsOnly
| SavedNothing.

(** [_compose_text] *)
Definition _compose_text (r : Product) : string :=
  title r ++ " | " ++ description r ++ " | category: " ++ category r
  ++ " | brand: " ++ brand r ++ " | tags: " ++ tags r.

Section CacheInit.
(** The encoder, an external capability. *)
Variable encode_text : list string -> list Vec.

Definition df_ids (df : DataFrame) : list string := map id df.

(** The [try] block: [Some embs] when [loaded] is set. An exception in the
    block leaves [loaded] false. *)
Definition load_cached (df : DataFrame) (c : Cache) : option (list Vec) :=
  match emb_file c, ids_file c with
  | Holds embs, Holds ids =>
      match json_len ids with
      | None => None
      | Some len_ids =>
          if (len_ids =? length df)%nat && (length embs =? length df)%nat
          then if ids_equal (df_ids df) ids then Some embs else None
          else None
      end
  | _, _ => None
  end.

Definition save_cache (embs : list Vec) (df : DataFrame) (c : Cache)
           (o : SaveOutcome) : Cache :=
  match o with
  | SavedBoth => mkCache (Holds embs) (Holds (JArray (map JStr (df_ids df))))
  | SavedEmbeddingsOnly => mkCache (Holds embs) (ids_file c)
  | SavedNothing => c
  end.

(** The embeddings of the new index, whether the cache was used, and the
    cache after the constructor. *)
Definition init_embeddings (df : DataFrame) (c : Cache) (o : SaveOutcome)
  : list Vec * bool * Cache :=
  match load_cached df c with
  | Some embs => (embs, true, c)
  | None =>
      let corpus := map _compose_text df in
      let embs := encode_text corpus in
      (embs, false, save_cache embs df c o)
  end.
End CacheInit.

(* ================================================================== *)
(** ** Vocabulary of the statements *)

(** [l] keeps some elements of [m], in their order. *)
Inductive Subseq {A : Type} : list A -> list A -> Prop :=
| Subseq_nil : Subseq [] []
| Subseq_skip : forall x l m, Subseq l m -> Subseq l (x :: m)
| Subseq_keep : forall x l m, Subseq l m -> Subseq (x :: l) (x :: m).

(** The products the loop appends, without the accumulator. *)
Fixpoint fresh_by_id (seen : list string) (products : list Product) : list Product :=
  match products with
  | [] => []
  | p :: rest =>
      if Py.mem_str (id p) seen then fresh_by_id seen rest
      else p :: fresh_by_id (id p :: seen) rest
  end.

(** The candidates [add_unique] would append if [top_k] did not stop it:
    the first candidate of each dedup key that is not in [seen_keys]. *)
Fixpoint fresh_by_key (df : DataFrame) (seen_keys : list DedupKey) (pool : list nat)
  : list nat :=
  match pool with
  | [] => []
  | i :: pool' =>
      let key := dedup_key df i in
      if mem_key key seen_keys then fresh_by_key df seen_keys pool'
      else i :: fresh_by_key df (key :: seen_keys) pool'
  end.

Definition key_dec (a b : DedupKey) : {a = b} + {a <> b}.
Proof. decide equality; apply string_dec. Defined.

(** The number of distinct dedup keys among the candidates. *)
Definition distinct_keys (df : DataFrame) (cand_idxs : list nat) : nat :=
  length (nodup key_dec (map (dedup_key df) cand_idxs)).

(** What [apply_filters] asks of a row, field by field. *)
Definition keep_brand (f : FilterSpec) (p : Product) : bool :=
  if Py.truthy (f_brand f)
  then String.eqb (Py.lower (brand p)) (Py.lower (opt_str (f_brand f)))
  else true.

Definition keep_category (f : FilterSpec) (p : Product) : bool :=
  if Py.truthy (f_category f)
  then Re.search (opt_str (f_category f)) (category p)
  else true.

Definition keep_price_min (f : FilterSpec) (p : Product) : bool :=
  match f_price_min f with
  | Some lo => Qle_bool lo (price p)
  | None => true
  end.

Definition keep_price_max (f : FilterSpec) (p : Product) : bool :=
  match f_price_max f with
  | Some hi => Qle_bool (price p) hi
  | None => true
  end.

Definition keep_tags (f : FilterSpec) (p : Product) : bool :=
  if Py.truthy (f_tags_contains f)
  then Re.search (opt_str (f_tags_contains f)) (tags p)
  else true.

(** The patterns of the filter are in the fragment of [Re]. *)
Definition patterns_in_fragment (f : FilterSpec) : bool :=
  (if Py.truthy (f_category f) then Re.re_in_fragment (opt_str (f_category f)) else true)
  && (if Py.truthy (f_tags_contains f)
      then Re.re_in_fragment (opt_str (f_tags_contains f)) else true).

(** The case-insensitive substring test of stage 2, of the booster and of
    the fallback's category guard. *)
Definition category_matches (cat : string) (p : Product) : bool :=
  Py.str_in (Py.lower cat) (Py.lower (category p)).

(** A vector of Euclidean norm one. *)
Definition unit_norm (v : Vec) : bool := Qeq_bool (dot v v) 1.

(** A cosine: a rational in [[-1, 1]]. *)
Definition unit_range (q : Q) : bool := Qle_bool (-1) q && Qle_bool q 1.

(** The inputs of [_mmr] as [_search] builds them from unit-norm vectors: one
    score per candidate, and every score and every similarity between two
    candidates a cosine. *)
Definition cosine_inputs (self : CatalogIndex) (cand_idxs : list nat)
           (cand_scores : list Q) : bool :=
  (length cand_scores =? length cand_idxs)%nat
  && forallb unit_range cand_scores
  && forallb (fun a =>
                forallb (fun b => unit_range (sim_items self cand_idxs a b))
                        (seq 0 (length cand_idxs)))
             (seq 0 (length cand_idxs)).

(** The pure relevance ranking: the positions of the candidate list by
    decreasing similarity to the query, the earlier position first among
    equal similarities. *)
Definition relevance_ranking (cand_scores : list Q) : list nat :=
  sort_desc (fun j => nth j cand_scores 0) (seq 0 (length cand_scores)).

(** [a] ranks before [b]: a greater key, or an equal key and an earlier
    position. *)
Definition ranks_before (key : nat -> Q) (a b : nat) : Prop :=
  key b < key a \/ (key a == key b /\ (a < b)%nat).

(** An additive bonus that applies or not. *)
Definition bonus (applies : bool) (amount : Q) : Q := if applies then amount else 0.

(** The adjusted score as the booster is specified: the exact similarity,
    plus 0.05 for the brand, 0.03 for the category, 0.02 for the tag, and the
    budget bonus for a price within [price_max]. *)
Definition adjusted_score (self : CatalogIndex) (query_emb : Vec) (f : FilterSpec)
           (idx : nat) : Q :=
  let r := row (ci_df self) idx in
  dot query_emb (embedding self idx)
  + bonus (Py.truthy (f_brand f)
           && String.eqb (Py.lower (brand r)) (Py.lower (opt_str (f_brand f)))) 0.05
  + bonus (Py.truthy (f_category f)
           && category_matches (opt_str (f_category f)) r) 0.03
  + bonus (Py.truthy (f_tags_contains f)
           && Py.str_in (Py.lower (opt_str (f_tags_contains f))) (Py.lower (tags r))) 0.02
  + match f_price_max f with
    | Some mx => bonus (Qle_bool (price r) mx) (0.03 * (price r / Py.Qmax mx eps))
    | None => 0
    end.

(* ================================================================== *)
(** ** Sample data

    The catalog of [tests/test_tools_filters.py], with embeddings of
    dimension two. *)

Module Sample.

Definition product (pid ttl cat brd : string) (prc : Q) (tgs : string) : Product :=
  mkProduct pid ttl "" cat brd prc "USD" "" None tgs.

Definition nike_tee : Product :=
  product "a" "Nike Tee" "t-shirt" "Nike" 25 "breathable,athletic".
Definition adidas_tee : Product :=
  product "b" "Adidas Tee" "t-shirt" "Adidas" 30 "athletic".
Definition nike_hoodie : Product :=
  product "c" "Nike Hoodie" "hoodie" "Nike" 45 "warm".

Definition make_df : DataFrame := [nike_tee; adidas_tee; nike_hoodie].

Definition vectors : list Vec := [[1; 0]; [3 # 5; 4 # 5]; [0; 1]].

Definition index : CatalogIndex := mkIndex make_df vectors.

(** A stand-in encoder: one fixed vector per text. *)
Definition encode_text (corpus : list string) : list Vec :=
  map (fun _ => [1; 0]) corpus.

End Sample.

(* ================================================================== *)
(** ** Sample cache states *)

Module SampleCache.

(** The manifest of the sample catalog. *)
Definition manifest : Json := JArray [JStr "a"; JStr "b"; JStr "c"].

(** A cache written for this catalog. *)
Definition fresh : Cache := mkCache (Holds Sample.vectors) (Holds manifest).

(** The manifest of this catalog beside an embedding file with two rows, as
    left when [EMBEDDINGS_PATH] names the matrix of another catalog. *)
Definition short_matrix : Cache :=
  mkCache (Holds [[1; 0]; [0; 1]]) (Holds manifest).

End SampleCache.

(* ================================================================== *)
(** ** Sample requests *)

Module SampleQuery.

(** A search result over the sample catalog: every row, best first. *)
Definition scored : list (nat * Q) := [(0%nat, 1); (1%nat, 3 # 5); (2%nat, 0)].

(** A category filter whose text holds a [.]. *)
Definition dotted_category : FilterSpec :=
  mkFilterSpec None (Some "t.shirt") None None None.

(** Two listings of one shirt under two ids, and a hoodie. *)
Definition twin_a : Product :=
  Sample.product "a" "Classic Tee" "t-shirt" "Nike" 25 "athletic".
Definition twin_b : Product :=
  Sample.product "a2" "CLASSIC TEE!" "t-shirt" "nike" 27 "athletic".
Definition classic_hoodie : Product :=
  Sample.product "c" "Classic Hoodie" "hoodie" "Nike" 45 "warm".
Definition twins_df : DataFrame := [twin_a; twin_b; classic_hoodie].

(** A text from which the rules extract no filter. *)
Definition plain_text : string := "recommend classic".

(** The embedding of a query; the search ranks the rows in catalog order. *)
Definition query_emb : Vec := [1; 0].

Definition twins_index : CatalogIndex := mkIndex twins_df Sample.vectors.

Definition brand_puma : FilterSpec :=
  mkFilterSpec (Some "Puma") None None None None.

End SampleQuery.

(* ================================================================== *)
(** ** Filters of the repository's tests *)

Module SampleFilters.

(** [FilterSpec(brand="Nike", category="t-shirt")] *)
Definition nike_tshirt : FilterSpec :=
  mkFilterSpec (Some "Nike") (Some "t-shirt") None None None.

(** [FilterSpec(price_min=26, price_max=46)] *)
Definition price_26_46 : FilterSpec :=
  mkFilterSpec None None (Some 26) (Some 46) None.

(** [FilterSpec(tags_contains="breathable")] *)
Definition breathable : FilterSpec :=
  mkFilterSpec None None None None (Some "breathable").

End SampleFilters.

(** The id column of a frame. *)
Definition ids_of (out : option LabelledFrame) : option (list string) :=
  option_map (map (fun r => id (snd r))) out.

(* ================================================================== *)
(** ** Intent routing and rule-based extraction ([agent/router.py]) *)

Inductive Intent :=
| IMAGE_AND_TEXT
| IMAGE_SEARCH
| TEXT_RECOMMEND
| SMALLTALK.

Definition shopping_signals : list string :=
  ["recommend"; "find me"; "suggest"; "looking for"; "buy"; "show me";
   "search for"; "compare"].

Definition price_signals : list string :=
  ["under "; "$"; "less than"; "between"; "from "].

(** [any(k in t for k in keys)] *)
Definition any_in (keys : list string) (t : string) : bool :=
  existsb (fun k => Py.str_in k t) keys.

(** [classify_intent(text, has_image)] for a [str] text. *)
Definition classify_intent (text : string) (has_image : bool) : Intent :=
  let t_raw := text in
  let t := Py.strip (Py.lower t_raw) in
  if has_image && (2 <? String.length t)%nat then IMAGE_AND_TEXT
  else if has_image then IMAGE_SEARCH
  else
    let t := Py.strip (Py.lower text) in
    if any_in shopping_signals t || any_in price_signals t then TEXT_RECOMMEND
    else SMALLTALK.

Definition BRANDS : list string :=
  ["Nike"; "Adidas"; "Under Armour"; "Puma"; "Reebok"; "Champion"; "New Balance";
   "ASICS"; "Lululemon"; "Patagonia"; "Uniqlo"; "H&M"; "Sony"; "Bose"; "Apple";
   "Beats"; "Columbia"; "The North Face"; "Arcteryx"; "Samsonite"; "Herschel";
   "Deuter"; "Salomon"].

(** [_parse_brand]: the first brand of the list that occurs in the text. *)
Definition _parse_brand (text : string) : option string :=
  find (fun b => Py.str_in (Py.lower b) (Py.lower text)) BRANDS.

(** *** The three expressions of [_parse_price]

    Each expression is a fixed sequence of a word, [\s*], [\$?] and [(\d+)];
    the classes do not overlap, so what [re.search] finds at a position is
    found by reading the text once, and the leftmost position wins. *)

(** [\d] on ASCII *)
Definition is_digit (c : ascii) : bool :=
  let n := nat_of_ascii c in ((48 <=? n) && (n <=? 57))%nat.

(** The longest run of digits at the head, and what follows it. *)
Fixpoint span_digits (s : string) : string * string :=
  match s with
  | EmptyString => (EmptyString, EmptyString)
  | String c r =>
      if is_digit c
      then let (d, rest) := span_digits r in (String c d, rest)
      else (EmptyString, s)
  end.

(** [(\d+)] at the head: the group and the rest. *)
Definition digits1 (s : string) : option (string * string) :=
  match span_digits s with
  | (EmptyString, _) => None
  | (d, rest) => Some (d, rest)
  end.

(** [\$?] at the head, before [(\d+)]. *)
Definition opt_dollar (s : string) : string :=
  match s with
  | String c r => if Ascii.eqb c "$"%char then r else s
  | EmptyString => s
  end.

(** A literal word at the head: the rest of the text. *)
Fixpoint strip_prefix (w s : string) : option string :=
  match w with
  | EmptyString => Some s
  | String a w' =>
      match s with
      | String b s' => if Ascii.eqb a b then strip_prefix w' s' else None
      | EmptyString => None
      end
  end.

(** [(w1|w2|...)] at the head. *)
Fixpoint first_of (words : list string) (s : string) : option string :=
  match words with
  | [] => None
  | w :: rest =>
      match strip_prefix w s with
      | Some r => Some r
      | None => first_of rest s
      end
  end.

(** [float(m.group(i))] for a run of digits. *)
Fixpoint digits_value (acc : Z) (d : string) : Z :=
  match d with
  | EmptyString => acc
  | String c r => digits_value (10 * acc + Z.of_nat (nat_of_ascii c - 48)) r
  end.

Definition float_of_digits (d : string) : Q := inject_Z (digits_value 0 d).

(** [re.search]: the match at the leftmost position that has one. *)
Fixpoint re_search_with {R : Type} (match_at : string -> option R) (s : string)
  : option R :=
  match match_at s with
  | Some r => Some r
  | None =>
      match s with
      | EmptyString => None
      | String _ rest => re_search_with match_at rest
      end
  end.

(** [(under|less than|below)\s*\$?(\d+)]: group 2. *)
Definition under_at (s : string) : option Q :=
  rest <- first_of ["under"; "less than"; "below"] s ;;
  match digits1 (opt_dollar (Py.lstrip rest)) with
  | Some (d, _) => Some (float_of_digits d)
  | None => None
  end.

(** [(between|from)\s*\$?(\d+)\s*(and|-|to)\s*\$?(\d+)]: groups 2 and 4. *)
Definition between_at (s : string) : option (Q * Q) :=
  rest <- first_of ["between"; "from"] s ;;
  match digits1 (opt_dollar (Py.lstrip rest)) with
  | Some (a, rest) =>
      rest <- first_of ["and"; "-"; "to"] (Py.lstrip rest) ;;
      match digits1 (opt_dollar (Py.lstrip rest)) with
      | Some (b, _) => Some (float_of_digits a, float_of_digits b)
      | None => None
      end
  | None => None
  end.

(** [\$?(\d+)\s*-\s*\$?(\d+)]: groups 1 and 2. *)
Definition range_at (s : string) : option (Q * Q) :=
  match digits1 (opt_dollar s) with
  | Some (a, rest) =>
      rest <- strip_prefix "-" (Py.lstrip rest) ;;
      match digits1 (opt_dollar (Py.lstrip rest)) with
      | Some (b, _) => Some (float_of_digits a, float_of_digits b)
      | None => None
      end
  | None => None
  end.

(** [min(a, b)] and [max(a, b)] *)
Definition py_min (a b : Q) : Q := if Py.Qltb b a then b else a.
Definition py_max (a b : Q) : Q := if Py.Qltb a b then b else a.

Definition _parse_price (text : string) : option Q * option Q :=
  let t := Py.lower text in
  let price_min : option Q := None in
  let price_max : option Q := None in
  let price_max :=
    match re_search_with under_at t with
    | Some v => Some v
    | None => price_max
    end in
  let '(price_min, price_max) :=
    match re_search_with between_at t with
    | Some (a, b) => (Some (py_min a b), Some (py_max a b))
    | None => (price_min, price_max)
    end in
  let '(price_min, price_max) :=
    match re_search_with range_at t with
    | Some (a, b) => (Some (py_min a b), Some (py_max a b))
    | None => (price_min, price_max)
    end in
  (price_min, price_max).

Definition TAG_MAP : list (string * string) :=
  [("breathable", "breathable"); ("lightweight", "lightweight"); ("mesh", "mesh");
   ("dry fit", "dry-fit"); ("dri fit", "dry-fit"); ("dri-fit", "dry-fit");
   ("quick dry", "quick-dry"); ("quick-dry", "quick-dry"); ("cotton", "cotton");
   ("graphic", "graphic"); ("compression", "compression");
   ("long sleeve", "long-sleeve"); ("short sleeve", "short-sleeve");
   ("athletic", "athletic"); ("sports", "athletic"); ("waterproof", "waterproof");
   ("windproof", "windproof"); ("hiking", "hiking"); ("trail", "trail");
   ("leather", "leather"); ("canvas", "canvas"); ("wireless", "wireless");
   ("noise cancelling", "noise-cancelling"); ("cushioning", "cushioning")].

Definition CATEGORY_SYNONYMS : list (string * list string) :=
  [("t-shirt", ["t-shirt"; "tee"; "shirt"; "tshirt"]);
   ("hoodie", ["hoodie"; "hooded"]);
   ("shorts", ["shorts"]);
   ("sneakers", ["sneakers"; "running shoes"; "trainers"; "shoes"]);
   ("backpack", ["backpack"; "bag"; "daypack"]);
   ("headphones", ["headphones"; "headset"; "over-ear"; "on-ear"; "noise cancelling"]);
   ("jacket", ["jacket"; "shell"; "windbreaker"; "rain jacket"; "coat"]);
   ("leggings", ["leggings"; "tights"]);
   ("socks", ["socks"]);
   ("cap", ["cap"; "hat"; "beanie"])].

(** The loop over [CATEGORY_SYNONYMS]. *)
Definition extract_category (t : string) : option string :=
  option_map fst (find (fun entry => any_in (snd entry) t) CATEGORY_SYNONYMS).

(** The loop over [TAG_MAP.items()]. *)
Definition extract_tag (t : string) : option string :=
  option_map snd (find (fun kv => Py.str_in (fst kv) t) TAG_MAP).

Definition extract_filters_rules (text : string) : FilterSpec :=
  let t := Py.lower text in
  let '(price_min, price_max) := _parse_price t in
  let brand := _parse_brand text in
  let category := extract_category t in
  let tags_contains := extract_tag t in
  mkFilterSpec brand category price_min price_max tags_contains.

(** [extract_filters_llm_or_rules]: the rules alone. *)
Definition extract_filters_llm_or_rules (text : string) : FilterSpec :=
  extract_filters_rules text.

(* ================================================================== *)
(** ** More of the request handlers ([app.py]) *)

(** A message of the request: [m.get("role")] when it is a string, and
    [m.get("content")] when it is a string. *)
Record Message := mkMessage {
  m_role : option string;
  m_content : option string
}.

(** The loop of [_user_context] over [reversed(messages)]; the result is
    [block]. *)
Fixpoint user_block (reversed_messages : list Message) : list string :=
  match reversed_messages with
  | [] => []
  | m :: rest =>
      let is_role r :=
        match m_role m with Some s => String.eqb s r | None => false end in
      if is_role "assistant" then []
      else if is_role "user" then
        match m_content m with
        | Some content => content :: user_block rest
        | None => user_block rest
        end
      else user_block rest
  end.

Definition newline_str : string := String (ascii_of_nat 10) EmptyString.

Definition _user_context (messages : list Message) : string :=
  let block := user_block (rev messages) in
  Py.strip (String.concat newline_str (rev block)).

(** [pick(a, b)]: [a if a not in (None, "", []) else b], on strings. *)
Definition pick_str (a b : option string) : option string :=
  match a with
  | Some (String _ _) => a
  | _ => b
  end.

(** [pick(a, b)] on numbers: only [None] gives way. *)
Definition pick_num (a b : option Q) : option Q :=
  match a with
  | Some _ => a
  | None => b
  end.

(** [a or b] on [Optional[str]] *)
Definition or_str (a b : option string) : option string :=
  if Py.truthy a then a else b.

(** [ui = req.filters or FilterSpec()] *)
Definition ui_filters (req_filters : option FilterSpec) : FilterSpec :=
  match req_filters with
  | Some f => f
  | None => no_filters
  end.

Definition final_filters (ui extracted : FilterSpec) : FilterSpec :=
  mkFilterSpec
    (pick_str (f_brand ui) (f_brand extracted))
    (pick_str (f_category ui) (f_category extracted))
    (pick_num (f_price_min ui) (f_price_min extracted))
    (pick_num (f_price_max ui) (f_price_max extracted))
    (pick_str (f_tags_contains ui) (f_tags_contains extracted)).

Definition strict_filters (ui extracted : FilterSpec) : FilterSpec :=
  mkFilterSpec
    (or_str (f_brand ui) None)
    (or_str (f_category ui) (f_category extracted))
    (match f_price_min ui with Some _ => f_price_min ui | None => f_price_min extracted end)
    (match f_price_max ui with Some _ => f_price_max ui | None => f_price_max extracted end)
    (or_str (f_tags_contains ui) None).

(** The intent [chat] acts on: small talk turns into a recommendation when
    any filter is present. *)
Definition chat_intent (last_user_text : string) (has_image : bool)
           (req_filters : option FilterSpec) : Intent :=
  let intent := classify_intent last_user_text has_image in
  let extracted := extract_filters_llm_or_rules last_user_text in
  let ui := ui_filters req_filters in
  let final := final_filters ui extracted in
  match intent with
  | SMALLTALK => if any_filter final then TEXT_RECOMMEND else intent
  | _ => intent
  end.

(** [get_product(pid)]; [None] is the 404 answer. *)
Definition get_product (df : DataFrame) (pid : string) : option Product :=
  find (fun r => String.eqb (id r) pid) df.

(** [float(df["price"].min())] and [float(df["price"].max())] of [meta];
    [0.0] for an empty frame. *)
Definition meta_price_min (df : DataFrame) : Q :=
  match df with
  | [] => 0
  | p :: rest => fold_left py_min (map price rest) (price p)
  end.

Definition meta_price_max (df : DataFrame) : Q :=
  match df with
  | [] => 0
  | p :: rest => fold_left py_max (map price rest) (price p)
  end.

Definition _CATEGORY_LABELS : list string :=
  ["t-shirt"; "hoodie"; "shorts"; "sneakers"; "backpack"; "headphones"; "jacket";
   "leggings"; "socks"].

(** [_infer_category_from_image] from [sims], the similarities of the image
    to the prompts of the labels. [np.partition(sims, -2)[-2]] is the second
    greatest value. An exception gives [None]. *)
Definition _infer_category_from_image (sims : list Q) : option string :=
  match sims with
  | [] => None
  | _ =>
      let idx := argmax sims in
      if (1 <? length sims)%nat then
        let top := nth idx sims 0 in
        let second := nth 1 (sort_desc (fun x => x) sims) 0 in
        if Py.Qltb (top - second) 0.02 then None
        else nth_error _CATEGORY_LABELS idx
      else nth_error _CATEGORY_LABELS idx
  end.

(** The products of [/similar/{pid}]. *)
Definition similar (self : CatalogIndex) (pid : string) (top_k : Z)
  : option (list Product) :=
  scored <- search_similar_to_id self pid top_k ;;
  Some (map (fun p => row (ci_df self) (fst p)) scored).

(* ================================================================== *)
(** ** Retrieval metrics ([evaluation/metrics.py])

    [relevant] is a set of ids; [retrieved] is the ranked list. *)

(** [sum(1 for item in top_k if item in relevant)] *)
Definition relevant_in (relevant : list string) (top_k : list string) : nat :=
  length (filter (fun item => Py.mem_str item relevant) top_k).

(** [len(relevant)] for a set *)
Definition set_size (relevant : list string) : nat :=
  length (nodup string_dec relevant).

Definition is_empty {A} (l : list A) : bool :=
  match l with [] => true | _ => false end.

Definition precision_at_k (relevant retrieved : list string) (k : Z) : Q :=
  if (k <=? 0)%Z || is_empty retrieved then 0
  else
    let top_k := Py.slice_to k retrieved in
    inject_Z (Z.of_nat (relevant_in relevant top_k)) / inject_Z k.

Definition recall_at_k (relevant retrieved : list string) (k : Z) : Q :=
  if is_empty relevant || (k <=? 0)%Z then 0
  else
    let top_k := Py.slice_to k retrieved in
    inject_Z (Z.of_nat (relevant_in relevant top_k))
    / inject_Z (Z.of_nat (set_size relevant)).

Definition f1_at_k (relevant retrieved : list string) (k : Z) : Q :=
  let prec := precision_at_k relevant retrieved k in
  let rec := recall_at_k relevant retrieved k in
  if Qeq_bool (prec + rec) 0 then 0
  else 2 * (prec * rec) / (prec + rec).

(** The loop of [mean_reciprocal_rank]; [rank] counts from one. *)
Fixpoint reciprocal_rank_from (rank : positive) (relevant retrieved : list string) : Q :=
  match retrieved with
  | [] => 0
  | item :: rest =>
      if Py.mem_str item relevant then 1 / inject_Z (Zpos rank)
      else reciprocal_rank_from (Pos.succ rank) relevant rest
  end.

Definition mean_reciprocal_rank (relevant retrieved : list string) : Q :=
  reciprocal_rank_from 1 relevant retrieved.

Definition hit_rate_at_k (relevant retrieved : list string) (k : Z) : Q :=
  let top_k := Py.slice_to k retrieved in
  if existsb (fun item => Py.mem_str item relevant) top_k then 1 else 0.

(** The signals the keyword scorer counts for a row. *)
Definition brand_signal (text : string) (r : Product) : bool :=
  nonempty (Py.lower (brand r)) && Py.str_in (Py.lower (brand r)) text.

Definition token_signal (r : Product) (tok : string) : bool :=
  nonempty tok
  && (Py.str_in tok (Py.lower (tags r))
      || Py.str_in tok (Py.lower (title r))
      || Py.str_in tok (Py.lower (description r))).

(* ================================================================== *)
(** * Properties *)

Unset Implicit Arguments.

(* ================================================================== *)
(** ** The tests of the repository

    [tests/test_tools_filters.py], run on the embedding. *)

Example test_filters_by_brand_and_category :
  ids_of (apply_filters (labelled Sample.make_df) SampleFilters.nike_tshirt)
  = Some ["a"].
Proof. reflexivity. Qed.

Example test_filters_by_price_range :
  ids_of (apply_filters (labelled Sample.make_df) SampleFilters.price_26_46)
  = Some ["b"; "c"].
Proof. reflexivity. Qed.

Example test_filters_by_tags :
  ids_of (apply_filters (labelled Sample.make_df) SampleFilters.breathable)
  = Some ["a"].
Proof. reflexivity. Qed.

(** The scenario of the specification: with the filter on brand and category
    the strict stage yields row [a] alone, in whatever order the search
    ranked the candidates. *)
Lemma strict_stage_scenario cand allowed :
  Permutation [0; 1; 2]%nat cand ->
  apply_filters (labelled Sample.make_df) SampleFilters.nike_tshirt = Some allowed ->
  stage1 Sample.make_df 8 allowed cand = [0%nat].
Proof.
  intros Hperm [= <-].
  assert (length cand = 3%nat) as Hlen by (now rewrite <- (Permutation_length Hperm)).
  assert (forall x, In x cand -> x = 0 \/ x = 1 \/ x = 2)%nat as Hin.
  { intros x Hx. apply (Permutation_in _ (Permutation_sym Hperm)) in Hx.
    simpl in Hx. intuition. }
  assert (NoDup cand) as Hnd
    by (eapply Permutation_NoDup; [exact Hperm |];
        repeat constructor; simpl; intuition discriminate).
  destruct cand as [| a [| b [| c [| d cand]]]]; try discriminate.
  destruct (Hin a ltac:(simpl; auto)) as [-> | [-> | ->]];
    destruct (Hin b ltac:(simpl; auto)) as [-> | [-> | ->]];
    destruct (Hin c ltac:(simpl; auto)) as [-> | [-> | ->]];
    try reflexivity;
    exfalso; inversion Hnd as [| ? ? Ha Hnd']; subst;
    inversion Hnd' as [| ? ? Hb Hnd'']; subst; simpl in *; intuition.
Qed.

(** A cache written for the catalog is read back. *)
Example cache_hit :
  init_embeddings Sample.encode_text Sample.make_df SampleCache.fresh SavedNothing
  = (Sample.vectors, true, SampleCache.fresh).
Proof. reflexivity. Qed.

(* ================================================================== *)
(** ** The closing de-duplication of [chat] *)

Lemma mem_str_In (x : string) (xs : list string) :
  Py.mem_str x xs = true <-> In x xs.
Proof.
  unfold Py.mem_str. rewrite existsb_exists. split.
  - intros [y [Hy He]]. apply String.eqb_eq in He. now subst.
  - intros H. exists x. split; [assumption | apply String.eqb_refl].
Qed.

Lemma mem_str_not_In (x : string) (xs : list string) :
  Py.mem_str x xs = false <-> ~ In x xs.
Proof.
  rewrite <- mem_str_In. destruct (Py.mem_str x xs); split; congruence.
Qed.

Lemma mem_nat_In (x : nat) (xs : list nat) :
  Py.mem_nat x xs = true <-> In x xs.
Proof.
  unfold Py.mem_nat. rewrite existsb_exists. split.
  - intros [y [Hy He]]. apply Nat.eqb_eq in He. now subst.
  - intros H. exists x. split; [assumption | apply Nat.eqb_refl].
Qed.

Lemma mem_nat_not_In (x : nat) (xs : list nat) :
  Py.mem_nat x xs = false <-> ~ In x xs.
Proof.
  rewrite <- mem_nat_In. destruct (Py.mem_nat x xs); split; congruence.
Qed.

Lemma unique_loop_fresh products :
  forall seen unique,
    unique_loop seen unique products = unique ++ fresh_by_id seen products.
Proof.
  induction products as [| p rest IH]; intros seen unique; simpl.
  - now rewrite app_nil_r.
  - destruct (Py.mem_str (id p) seen).
    + apply IH.
    + rewrite IH, <- app_assoc. reflexivity.
Qed.

Lemma fresh_by_id_subseq products :
  forall seen, Subseq (fresh_by_id seen products) products.
Proof.
  induction products as [| p rest IH]; intros seen; simpl.
  - constructor.
  - destruct (Py.mem_str (id p) seen); constructor; apply IH.
Qed.

Lemma fresh_by_id_avoids products :
  forall seen q, In q (fresh_by_id seen products) -> ~ In (id q) seen.
Proof.
  induction products as [| p rest IH]; intros seen q; simpl; [tauto |].
  destruct (Py.mem_str (id p) seen) eqn:E.
  - apply IH.
  - intros [-> | H].
    + now apply mem_str_not_In.
    + intros Hq. apply (IH _ _ H). now right.
Qed.

Lemma fresh_by_id_NoDup products :
  forall seen, NoDup (map id (fresh_by_id seen products)).
Proof.
  induction products as [| p rest IH]; intros seen; simpl.
  - constructor.
  - destruct (Py.mem_str (id p) seen); [apply IH |].
    simpl. constructor; [| apply IH].
    rewrite in_map_iff. intros [q [Hid Hq]].
    apply fresh_by_id_avoids in Hq. apply Hq. left. now symmetry.
Qed.

Lemma fresh_by_id_first products :
  forall seen before p after,
    products = before ++ p :: after ->
    ~ In (id p) seen ->
    ~ In (id p) (map id before) ->
    In p (fresh_by_id seen products).
Proof.
  induction products as [| x rest IH]; intros seen before p after Hsplit Hseen Hbefore.
  - destruct before; discriminate.
  - destruct before as [| b before]; simpl in Hsplit; injection Hsplit as -> ->.
    + simpl. apply mem_str_not_In in Hseen. rewrite Hseen. now left.
    + simpl in Hbefore. simpl.
      destruct (Py.mem_str (id b) seen).
      * eapply IH; eauto.
      * right. eapply IH; eauto. simpl. intuition.
Qed.


(** Every path through the text branch ends in that loop. *)
Lemma chat_text_recommend_distinct_ids df mu scored text filters k products :
  chat_text_recommend df mu scored text filters k = Some products ->
  NoDup (map id products).
Proof.
  unfold chat_text_recommend. intros H.
  repeat match type of H with
         | context [match ?c with _ => _ end] => destruct c; try discriminate
         end.
  all: injection H as <-.
  all: unfold dedup_products; rewrite unique_loop_fresh; apply fresh_by_id_NoDup.
Qed.

(* ================================================================== *)
(** ** The embedding cache *)

Lemma items_eqb_spec ids :
  forall items, items_eqb ids items = true <-> items = map JStr ids.
Proof.
  induction ids as [| s ids IH]; intros [| j items]; simpl;
    try (split; [discriminate | discriminate]); try tauto.
  rewrite andb_true_iff, IH. split.
  - intros [Hj ->]. destruct j as [t |]; simpl in Hj; [| discriminate].
    apply String.eqb_eq in Hj. now subst.
  - intros H. injection H as -> ->. simpl. now rewrite String.eqb_refl.
Qed.

Lemma ids_equal_spec ids j :
  ids_equal ids j = true <-> j = JArray (map JStr ids).
Proof.
  destruct j; simpl; try (split; [discriminate | discriminate]).
  rewrite items_eqb_spec. split; [now intros -> | now intros [= ->]].
Qed.

(** The cache is read exactly when both files are readable, the manifest is
    the id column and the matrix has one row per catalog row. *)
Lemma load_cached_spec df c embs :
  load_cached df c = Some embs <->
  emb_file c = Holds embs
  /\ ids_file c = Holds (JArray (map JStr (df_ids df)))
  /\ length embs = length df.
Proof.
  unfold load_cached. destruct c as [ef jf]; simpl. split.
  - destruct ef as [| | e]; try discriminate.
    destruct jf as [| | j]; try discriminate.
    destruct (json_len j) as [len |]; try discriminate.
    destruct (len =? length df)%nat; simpl; try discriminate.
    destruct (length e =? length df)%nat eqn:Erows; simpl; try discriminate.
    destruct (ids_equal (df_ids df) j) eqn:Eids; try discriminate.
    intros [= ->]. apply ids_equal_spec in Eids. apply Nat.eqb_eq in Erows.
    now subst.
  - intros [-> [-> Hrows]]. simpl.
    unfold df_ids. rewrite !length_map, Nat.eqb_refl. simpl.
    apply Nat.eqb_eq in Hrows. rewrite Hrows.
    fold (df_ids df).
    replace (items_eqb (df_ids df) (map JStr (df_ids df))) with true; [reflexivity |].
    symmetry. now apply items_eqb_spec.
Qed.

(** C9, as the code has it. The constructor always yields embeddings; it
    takes them from the cache if and only if both cache files are readable,
    the manifest is, in order, the id column of the catalog, and the cached
    matrix has one row per catalog row. In every other state of the cache
    the embeddings are computed anew from the composed texts. *)
Theorem cache_used_iff_manifest_and_rows
        (encode_text : list string -> list Vec)
        (df : DataFrame) (c : Cache) (o : SaveOutcome) :
  let '(embs, loaded, _) := init_embeddings encode_text df c o in
  (loaded = true <->
     exists cached,
       emb_file c = Holds cached
       /\ ids_file c = Holds (JArray (map JStr (df_ids df)))
       /\ length cached = length df)
  /\ (loaded = true -> emb_file c = Holds embs)
  /\ (loaded = false -> embs = encode_text (map _compose_text df)).
Proof.
  unfold init_embeddings.
  destruct (load_cached df c) as [embs |] eqn:E.
  - apply load_cached_spec in E. destruct E as [He [Hj Hr]].
    split; [| split]; try easy.
    split; [| reflexivity]. intros _. now exists embs.
  - split; [| split]; try easy.
    split; [discriminate |].
    intros [cached [He [Hj Hr]]].
    assert (load_cached df c = Some cached) as E' by now apply load_cached_spec.
    congruence.
Qed.

(** C9, counterexample. The manifest equals the id sequence of the catalog,
    in length and content, and still the cache is not used: the embedding
    file holds two rows for three catalog rows. *)
Lemma cache_manifest_match_not_enough :
  ids_file SampleCache.short_matrix
  = Holds (JArray (map JStr (df_ids Sample.make_df)))
  /\ snd (fst (init_embeddings Sample.encode_text Sample.make_df
                               SampleCache.short_matrix SavedBoth)) = false.
Proof. split; reflexivity. Qed.

(* ================================================================== *)
(** ** Similar items of an unknown id *)

Lemma find_id_none pid rows :
  (forall r, In r (map snd rows) -> id r <> pid) ->
  find_id pid rows = None.
Proof.
  induction rows as [| [i r] rest IH]; intros H; simpl; [reflexivity |].
  destruct (String.eqb (id r) pid) eqn:E.
  - apply String.eqb_eq in E. exfalso. apply (H r); [now left | assumption].
  - apply IH. intros r' Hr'. apply H. now right.
Qed.

Lemma labelled_rows (df : DataFrame) : map snd (labelled df) = df.
Proof.
  unfold labelled.
  generalize 0%nat. induction df as [| p df IH]; intros s; simpl; [reflexivity |].
  now rewrite IH.
Qed.

(** C4, as the code has it. For an id that no catalog row carries, the
    similar-items lookup succeeds with the empty list: no error is raised. *)
Theorem search_similar_unknown_id_empty
        (self : CatalogIndex) (pid : string) (top_k : Z) :
  ~ In pid (map id (ci_df self)) ->
  search_similar_to_id self pid top_k = Some [].
Proof.
  intros Hnot. unfold search_similar_to_id.
  rewrite find_id_none; [reflexivity |].
  rewrite labelled_rows. intros r Hr <-. apply Hnot. now apply in_map.
Qed.

Lemma search_similar_unknown_id_empty_witness :
  ~ In "zz" (map id (ci_df Sample.index))
  /\ search_similar_to_id Sample.index "zz" 6 = Some [].
Proof.
  assert (~ In "zz" (map id (ci_df Sample.index))) as H.
  { simpl. intros [H | [H | [H | []]]]; discriminate. }
  split; [exact H | exact (search_similar_unknown_id_empty Sample.index "zz" 6 H)].
Defined.

(** C4, counterexample. The id ["zz"] is not in the sample catalog, and the
    lookup does not fail. *)
Lemma search_similar_unknown_id_no_failure :
  ~ In "zz" (map id (ci_df Sample.index))
  /\ search_similar_to_id Sample.index "zz" 6 <> None.
Proof.
  split.
  - simpl. intros [H | [H | [H | []]]]; discriminate.
  - vm_compute. discriminate.
Qed.

(* ================================================================== *)
(** ** Lists *)

Lemma In_firstn {A} (l : list A) :
  forall n x, In x (firstn n l) -> In x l.
Proof.
  induction l as [| y l IH]; intros [| n] x; simpl; try tauto.
  intros [-> | H]; [now left | right; eapply IH; eauto].
Qed.

Lemma NoDup_firstn {A} (l : list A) :
  forall n, NoDup l -> NoDup (firstn n l).
Proof.
  induction l as [| x l IH]; intros [| n] H; simpl; try constructor.
  - inversion H; subst. intros Hin. apply In_firstn in Hin. contradiction.
  - inversion H; subst. now apply IH.
Qed.

Lemma slice_to_firstn {A} (k : Z) (xs : list A) :
  exists n, Py.slice_to k xs = firstn n xs.
Proof. unfold Py.slice_to. destruct (0 <=? k)%Z; eauto. Qed.

Lemma In_slice_to {A} (k : Z) (xs : list A) x :
  In x (Py.slice_to k xs) -> In x xs.
Proof. destruct (slice_to_firstn k xs) as [n ->]. apply In_firstn. Qed.

(* ================================================================== *)
(** ** [add_unique] *)

Lemma key_eqb_eq (a b : DedupKey) : key_eqb a b = true <-> a = b.
Proof.
  destruct a as [a1 a2], b as [b1 b2]. unfold key_eqb; simpl.
  rewrite andb_true_iff, !String.eqb_eq. split.
  - now intros [-> ->].
  - now intros [= -> ->].
Qed.

Lemma mem_key_In (k : DedupKey) (seen : list DedupKey) :
  mem_key k seen = true <-> In k seen.
Proof.
  unfold mem_key. rewrite existsb_exists. split.
  - intros [y [Hy He]]. apply key_eqb_eq in He. now subst.
  - intros H. exists k. split; [assumption | now apply key_eqb_eq].
Qed.

Lemma mem_key_not_In (k : DedupKey) (seen : list DedupKey) :
  mem_key k seen = false <-> ~ In k seen.
Proof.
  rewrite <- mem_key_In. destruct (mem_key k seen); split; congruence.
Qed.

Section AddUnique.
Variable df : DataFrame.
Variable top_k : Z.

(** The loop appends the fresh candidates until [out] has [top_k] entries. *)
Lemma add_unique_loop_fresh pool :
  forall seen out,
    add_unique_loop df top_k seen out pool
    = out ++ firstn (Z.to_nat (top_k - Z.of_nat (length out)))
                    (fresh_by_key df seen pool).
Proof.
  induction pool as [| i pool IH]; intros seen out; simpl.
  - now rewrite firstn_nil, app_nil_r.
  - destruct (Z.leb_spec top_k (Z.of_nat (length out))) as [Hfull | Hroom].
    + replace (Z.to_nat (top_k - Z.of_nat (length out))) with 0%nat by lia.
      simpl. now rewrite app_nil_r.
    + destruct (mem_key (dedup_key df i) seen); [apply IH |].
      rewrite IH, <- app_assoc, length_app. simpl.
      replace (Z.to_nat (top_k - Z.of_nat (length out)))
        with (S (Z.to_nat (top_k - Z.of_nat (length out + 1)))) by lia.
      reflexivity.
Qed.

Lemma add_unique_fresh seed pool :
  add_unique df top_k seed pool
  = seed ++ firstn (Z.to_nat (top_k - Z.of_nat (length seed)))
                   (fresh_by_key df (map (dedup_key df) seed) pool).
Proof. apply add_unique_loop_fresh. Qed.

Lemma fresh_by_key_incl pool :
  forall seen i, In i (fresh_by_key df seen pool) -> In i pool.
Proof.
  induction pool as [| x pool IH]; intros seen i; simpl; [tauto |].
  destruct (mem_key (dedup_key df x) seen).
  - intros H. right. eapply IH; eauto.
  - intros [-> | H]; [now left | right; eapply IH; eauto].
Qed.

Lemma fresh_by_key_avoids pool :
  forall seen i, In i (fresh_by_key df seen pool) -> ~ In (dedup_key df i) seen.
Proof.
  induction pool as [| x pool IH]; intros seen i; simpl; [tauto |].
  destruct (mem_key (dedup_key df x) seen) eqn:E.
  - apply IH.
  - intros [-> | H].
    + now apply mem_key_not_In.
    + intros Hi. apply (IH _ _ H). now right.
Qed.

Lemma fresh_by_key_NoDup pool :
  forall seen, NoDup (map (dedup_key df) (fresh_by_key df seen pool)).
Proof.
  induction pool as [| x pool IH]; intros seen; simpl; [constructor |].
  destruct (mem_key (dedup_key df x) seen); [apply IH |].
  simpl. constructor; [| apply IH].
  rewrite in_map_iff. intros [j [Hk Hj]].
  apply fresh_by_key_avoids in Hj. apply Hj. left. now symmetry.
Qed.

(** Every key of the pool is in [seen] or is the key of a fresh candidate. *)
Lemma fresh_by_key_covers pool :
  forall seen i,
    In i pool ->
    In (dedup_key df i) seen
    \/ In (dedup_key df i) (map (dedup_key df) (fresh_by_key df seen pool)).
Proof.
  induction pool as [| x pool IH]; intros seen i; simpl; [tauto |].
  intros [-> | Hi].
  - destruct (mem_key (dedup_key df i) seen) eqn:E.
    + left. now apply mem_key_In.
    + right. now left.
  - destruct (mem_key (dedup_key df x) seen) eqn:E.
    + now apply IH.
    + destruct (IH (dedup_key df x :: seen) i Hi) as [[<- | H] | H].
      * right. now left.
      * now left.
      * right. now right.
Qed.

Lemma fresh_by_key_length pool :
  length (fresh_by_key df [] pool) = distinct_keys df pool.
Proof.
  unfold distinct_keys.
  rewrite <- (length_map (dedup_key df) (fresh_by_key df [] pool)).
  apply Permutation_length, NoDup_Permutation.
  - apply fresh_by_key_NoDup.
  - apply NoDup_nodup.
  - intros k. rewrite nodup_In, !in_map_iff. split.
    + intros [i [<- Hi]]. exists i. split; [reflexivity |].
      eapply fresh_by_key_incl; eauto.
    + intros [i [<- Hi]].
      destruct (fresh_by_key_covers pool [] i Hi) as [[] | H].
      now apply in_map_iff in H.
Qed.

Lemma add_unique_In seed pool i :
  In i (add_unique df top_k seed pool) -> In i seed \/ In i pool.
Proof.
  rewrite add_unique_fresh, in_app_iff.
  intros [H | H]; [now left | right].
  apply In_firstn in H. eapply fresh_by_key_incl; eauto.
Qed.

(** [add_unique] keeps the dedup keys pairwise distinct. *)
Lemma add_unique_NoDup seed pool :
  NoDup (map (dedup_key df) seed) ->
  NoDup (map (dedup_key df) (add_unique df top_k seed pool)).
Proof.
  intros Hseed. rewrite add_unique_fresh, map_app.
  apply NoDup_app; [assumption | |].
  - rewrite <- firstn_map. apply NoDup_firstn, fresh_by_key_NoDup.
  - intros k Hk Hk'. rewrite <- firstn_map in Hk'. apply In_firstn in Hk'.
    apply in_map_iff in Hk'. destruct Hk' as [i [<- Hi]].
    now apply fresh_by_key_avoids in Hi.
Qed.
End AddUnique.

(* ================================================================== *)
(** ** [apply_filters] *)

(** A frame is returned exactly for patterns of the fragment, and it holds
    the rows that pass every set field. *)
Lemma apply_filters_some rows f out :
  apply_filters rows f = Some out ->
  patterns_in_fragment f = true
  /\ forall x,
       In x out <->
       In x rows
       /\ keep_brand f (snd x) = true /\ keep_category f (snd x) = true
       /\ keep_price_min f (snd x) = true /\ keep_price_max f (snd x) = true
       /\ keep_tags f (snd x) = true.
Proof.
  unfold apply_filters, str_contains, patterns_in_fragment.
  unfold keep_brand, keep_category, keep_price_min, keep_price_max, keep_tags.
  destruct (Py.truthy (f_brand f));
    destruct (Py.truthy (f_category f));
    try destruct (Re.re_in_fragment (opt_str (f_category f)));
    try discriminate;
    destruct (f_price_min f); destruct (f_price_max f);
    destruct (Py.truthy (f_tags_contains f));
    try destruct (Re.re_in_fragment (opt_str (f_tags_contains f)));
    try discriminate;
    intros [= <-]; (split; [reflexivity |]);
    intros x; unfold on_rows; rewrite ?filter_In; tauto.
Qed.

Lemma apply_filters_returns rows f :
  patterns_in_fragment f = true -> exists out, apply_filters rows f = Some out.
Proof.
  unfold apply_filters, str_contains, patterns_in_fragment.
  intros H. apply andb_true_iff in H. destruct H as [Hc Ht].
  destruct (Py.truthy (f_category f)); [rewrite Hc |];
    (destruct (Py.truthy (f_tags_contains f)); [rewrite Ht |]); eauto.
Qed.

Lemma In_apply_filters x rows f out :
  apply_filters rows f = Some out ->
  In x out ->
  In x rows
  /\ keep_brand f (snd x) = true /\ keep_category f (snd x) = true
  /\ keep_price_min f (snd x) = true /\ keep_price_max f (snd x) = true
  /\ keep_tags f (snd x) = true.
Proof. intros H. apply apply_filters_some in H. destruct H as [_ H]. apply H. Qed.

(* ================================================================== *)
(** ** The relaxation pipeline *)

Section PipelineFacts.
Variable df : DataFrame.
Variable filters : FilterSpec.
Variable top_k : Z.
Variable min_unique : Z.

Local Abbreviation key := (dedup_key df).

Lemma stage1_NoDup allowed cand :
  NoDup (map key (stage1 df top_k allowed cand)).
Proof. unfold stage1. apply add_unique_NoDup. constructor. Qed.

Lemma stage2_NoDup cand chosen :
  NoDup (map key chosen) -> NoDup (map key (stage2 df filters top_k cand chosen)).
Proof.
  intros H. unfold stage2.
  destruct (_ && _); [now apply add_unique_NoDup | assumption].
Qed.

Lemma stage3_NoDup cand chosen :
  NoDup (map key chosen) -> NoDup (map key (stage3 df filters top_k cand chosen)).
Proof.
  intros H. unfold stage3.
  destruct (_ && _); [now apply add_unique_NoDup | assumption].
Qed.

Lemma staged_NoDup allowed cand :
  NoDup (map key (staged df filters top_k allowed cand)).
Proof. unfold staged. apply stage3_NoDup, stage2_NoDup, stage1_NoDup. Qed.

Lemma override_NoDup cand : NoDup (map key (override df top_k min_unique cand)).
Proof.
  unfold override.
  destruct (slice_to_firstn (Z.max min_unique top_k) (add_unique df top_k [] cand))
    as [n ->].
  rewrite <- firstn_map. apply NoDup_firstn, add_unique_NoDup. constructor.
Qed.

(** What a returning call computed. *)
Lemma pick_with_filters_some scored chosen :
  _pick_with_filters df filters top_k min_unique scored = Some chosen ->
  exists allowed,
    apply_filters (labelled df) filters = Some allowed
    /\ Forall (fun i => (i < length df)%nat) (map fst scored)
    /\ chosen = if override_fires min_unique (map fst scored)
                                  (staged df filters top_k allowed (map fst scored))
                then override df top_k min_unique (map fst scored)
                else staged df filters top_k allowed (map fst scored).
Proof.
  unfold _pick_with_filters.
  destruct (apply_filters (labelled df) filters) as [allowed |]; [| discriminate].
  destruct (forallb _ _) eqn:E; [| discriminate].
  intros [= <-]. exists allowed. repeat split.
  rewrite forallb_forall in E. apply Forall_forall. intros i Hi.
  now apply Nat.ltb_lt, E.
Qed.

(** No two entries of a pipeline result share a dedup key. *)
Lemma pick_with_filters_distinct_keys scored chosen :
  _pick_with_filters df filters top_k min_unique scored = Some chosen ->
  NoDup (map key chosen).
Proof.
  intros H. apply pick_with_filters_some in H.
  destruct H as [allowed [_ [_ ->]]].
  destruct (override_fires _ _ _); [apply override_NoDup | apply staged_NoDup].
Qed.

(** The pipeline returns whenever the patterns are in the fragment and every
    candidate is a row of the frame. *)
Lemma pick_with_filters_returns scored :
  patterns_in_fragment filters = true ->
  Forall (fun i => (i < length df)%nat) (map fst scored) ->
  exists chosen, _pick_with_filters df filters top_k min_unique scored = Some chosen.
Proof.
  intros Hpat H. unfold _pick_with_filters.
  destruct (apply_filters_returns (labelled df) filters Hpat) as [allowed ->].
  replace (forallb _ _) with true; [eauto |].
  symmetry. apply forallb_forall. intros i Hi.
  rewrite Forall_forall in H. apply Nat.ltb_lt. now apply H.
Qed.

(** When the override fires, the result is rebuilt from the raw pool by the
    dedup rule alone. *)
Lemma pick_with_filters_override scored chosen allowed :
  _pick_with_filters df filters top_k min_unique scored = Some chosen ->
  apply_filters (labelled df) filters = Some allowed ->
  override_fires min_unique (map fst scored)
                 (staged df filters top_k allowed (map fst scored)) = true ->
  chosen = Py.slice_to (Z.max min_unique top_k)
                       (firstn (Z.to_nat top_k)
                               (fresh_by_key df [] (map fst scored))).
Proof.
  intros H Hallowed Hfires. apply pick_with_filters_some in H.
  destruct H as [allowed' [Hallowed' [_ ->]]].
  assert (allowed' = allowed) as -> by congruence.
  rewrite Hfires. unfold override.
  rewrite add_unique_fresh. simpl. now rewrite Z.sub_0_r.
Qed.

Lemma distinct_keys_le cand : (distinct_keys df cand <= length cand)%nat.
Proof.
  unfold distinct_keys.
  rewrite <- (length_map key cand).
  apply NoDup_incl_length; [apply NoDup_nodup |].
  intros k Hk. now apply nodup_In in Hk.
Qed.

(** The override fires whenever the stages leave fewer than [min_unique]
    entries and the pool holds [min_unique] distinct dedup keys. *)
Lemma override_fires_on_short_result cand chosen :
  (Z.of_nat (length chosen) < min_unique)%Z ->
  (min_unique <= Z.of_nat (distinct_keys df cand))%Z ->
  override_fires min_unique cand chosen = true.
Proof.
  intros Hshort Hpool. unfold override_fires.
  pose proof (distinct_keys_le cand).
  apply andb_true_iff. split; [apply Z.ltb_lt | apply Z.leb_le]; lia.
Qed.

(** For [top_k] at least [min_unique] the rebuilt list is the dedup of the
    raw pool cut to [max(min_unique, top_k)]. *)
Lemma override_truncated_dedup cand :
  (0 <= top_k)%Z ->
  (min_unique <= top_k)%Z ->
  override df top_k min_unique cand
  = firstn (Z.to_nat (Z.max min_unique top_k)) (fresh_by_key df [] cand).
Proof.
  intros Hk Hmu. unfold override. rewrite add_unique_fresh. simpl.
  rewrite Z.sub_0_r, Z.max_r by assumption.
  unfold Py.slice_to. destruct (Z.leb_spec 0 top_k); [| lia].
  rewrite firstn_firstn. f_equal. lia.
Qed.

(** With [top_k] at least [min_unique], a pool with [min_unique] distinct
    dedup keys gives at least [min_unique] results. *)
Lemma pick_with_filters_min_unique scored chosen :
  _pick_with_filters df filters top_k min_unique scored = Some chosen ->
  (min_unique <= top_k)%Z ->
  (min_unique <= Z.of_nat (distinct_keys df (map fst scored)))%Z ->
  (min_unique <= Z.of_nat (length chosen))%Z.
Proof.
  intros H Hk Hpool. apply pick_with_filters_some in H.
  destruct H as [allowed [_ [_ ->]]].
  set (cand := map fst scored) in *.
  destruct (override_fires _ _ _) eqn:E.
  - unfold override. rewrite add_unique_fresh. simpl.
    rewrite Z.sub_0_r, Z.max_r by assumption.
    unfold Py.slice_to.
    pose proof (fresh_by_key_length df cand) as Hlen.
    destruct (Z.leb_spec 0 top_k).
    + rewrite !length_firstn. lia.
    + lia.
  - unfold override_fires in E. apply andb_false_iff in E.
    pose proof (distinct_keys_le cand).
    destruct E as [E | E]; [apply Z.ltb_ge in E | apply Z.leb_gt in E]; lia.
Qed.
End PipelineFacts.

(* ================================================================== *)
(** ** Category matching *)

Lemma dot_is_special : Re.is_special Re.dot = true.
Proof. reflexivity. Qed.

Lemma match_char_literal p c :
  Re.is_special p = false ->
  Re.match_char p c = Ascii.eqb (Py.lower_char p) (Py.lower_char c).
Proof.
  intros Hp. unfold Re.match_char.
  destruct (Ascii.eqb p Re.dot) eqn:E; [| reflexivity].
  apply Ascii.eqb_eq in E. subst. rewrite dot_is_special in Hp. discriminate.
Qed.

Lemma match_here_literal pat :
  Re.re_literal pat = true ->
  forall s, Re.match_here pat s = String.prefix (Py.lower pat) (Py.lower s).
Proof.
  induction pat as [| p pat IH]; intros Hlit s; simpl.
  - now destruct s.
  - unfold Re.re_literal in Hlit. simpl in Hlit.
    apply andb_true_iff in Hlit. destruct Hlit as [Hp Hrest].
    apply negb_true_iff in Hp.
    destruct s as [| c s]; simpl; [reflexivity |].
    rewrite match_char_literal by assumption.
    destruct (ascii_dec (Py.lower_char p) (Py.lower_char c)) as [e | ne].
    + rewrite e, Ascii.eqb_refl. simpl. now apply IH.
    + apply Ascii.eqb_neq in ne. now rewrite ne.
Qed.

(** A pattern without special characters is searched as a case-insensitive
    substring. *)
Lemma search_literal pat s :
  Re.re_literal pat = true ->
  Re.search pat s = Py.str_in (Py.lower pat) (Py.lower s).
Proof.
  intros Hlit.
  induction s as [| c s IH].
  - simpl. now rewrite match_here_literal.
  - change (Re.search pat (String c s))
      with (Re.match_here pat (String c s) || Re.search pat s).
    change (Py.str_in (Py.lower pat) (Py.lower (String c s)))
      with (String.prefix (Py.lower pat) (Py.lower (String c s))
            || Py.str_in (Py.lower pat) (Py.lower s)).
    now rewrite IH, match_here_literal.
Qed.

Lemma In_combine_seq {A} (l : list A) :
  forall s i r, In (i, r) (combine (seq s (length l)) l) ->
                (s <= i)%nat /\ nth_error l (i - s) = Some r.
Proof.
  induction l as [| x l IH]; intros s i r; simpl; [tauto |].
  intros [[= <- <-] | H].
  - rewrite Nat.sub_diag. split; [lia | reflexivity].
  - apply IH in H. destruct H as [Hle Hnth]. split; [lia |].
    replace (i - s)%nat with (S (i - S s)) by lia. exact Hnth.
Qed.

Lemma In_labelled df i r :
  In (i, r) (labelled df) -> nth_error df i = Some r.
Proof.
  intros H. apply In_combine_seq in H. destruct H as [_ H].
  now rewrite Nat.sub_0_r in H.
Qed.

Lemma row_nth_error df i r : nth_error df i = Some r -> row df i = r.
Proof. intros H. unfold row. now apply nth_error_nth. Qed.

Lemma nth_error_row df i : (i < length df)%nat -> nth_error df i = Some (row df i).
Proof. intros H. unfold row. now apply nth_error_nth'. Qed.

(** With unique ids, a row whose id passes the filter passes it itself. *)
Lemma allowed_id_row df f allowed i :
  apply_filters (labelled df) f = Some allowed ->
  NoDup (map id df) ->
  (i < length df)%nat ->
  Py.mem_str (id (row df i)) (map (fun r => id (snd r)) allowed) = true ->
  In (i, row df i) allowed.
Proof.
  intros Hallowed Hids Hi Hmem.
  apply mem_str_In, in_map_iff in Hmem.
  destruct Hmem as [[j r] [Hid Hin]]. simpl in Hid.
  assert (In (j, r) (labelled df)) as Hlab
    by (pose proof (In_apply_filters _ _ _ _ Hallowed Hin); tauto).
  apply In_labelled in Hlab.
  assert (j = i) as ->.
  { rewrite NoDup_nth_error in Hids. symmetry. apply Hids.
    - now rewrite length_map.
    - rewrite (map_nth_error id _ _ Hlab).
      rewrite (map_nth_error id _ _ (nth_error_row df i Hi)).
      now rewrite Hid. }
  now rewrite (row_nth_error _ _ _ Hlab).
Qed.

Section CategoryKept.
Variable df : DataFrame.
Variable filters : FilterSpec.
Variable top_k : Z.
Hypothesis unique_ids : NoDup (map id df).
Hypothesis category_set : Py.truthy (f_category filters) = true.

Local Abbreviation cat := (opt_str (f_category filters)).

(** Stage 3 does not run when a category is asked. *)
Lemma stage3_skipped cand chosen : stage3 df filters top_k cand chosen = chosen.
Proof. unfold stage3. rewrite category_set. simpl. now rewrite andb_false_r. Qed.

(** For a category read literally, every staged entry is of the category. *)
Lemma staged_category_literal allowed cand i :
  apply_filters (labelled df) filters = Some allowed ->
  Re.re_literal cat = true ->
  Forall (fun i => (i < length df)%nat) cand ->
  In i (staged df filters top_k allowed cand) ->
  category_matches cat (row df i) = true.
Proof.
  intros Hallowed Hlit Hvalid. unfold staged. rewrite stage3_skipped.
  assert (forall i, In i (stage1 df top_k allowed cand) ->
                    category_matches cat (row df i) = true) as H1.
  { intros j Hj. unfold stage1 in Hj. apply add_unique_In in Hj.
    destruct Hj as [[] | Hj].
    unfold primary_all in Hj. apply filter_In in Hj. destruct Hj as [Hc Hmem].
    rewrite Forall_forall in Hvalid.
    pose proof (allowed_id_row df filters allowed j Hallowed unique_ids
                               (Hvalid j Hc) Hmem) as Hrow.
    pose proof (In_apply_filters _ _ _ _ Hallowed Hrow) as Hkeep.
    destruct Hkeep as [_ [_ [Hcat _]]].
    unfold keep_category in Hcat. rewrite category_set in Hcat. simpl in Hcat.
    unfold category_matches. now rewrite <- search_literal. }
  unfold stage2. destruct (_ && _); [| now apply H1].
  intros Hi. apply add_unique_In in Hi. destruct Hi as [Hi | Hi]; [now apply H1 |].
  unfold cat_pool in Hi. apply filter_In in Hi. destruct Hi as [_ Hi].
  apply andb_true_iff in Hi. destruct Hi as [Hi _].
  apply andb_true_iff in Hi. destruct Hi as [_ Hi]. exact Hi.
Qed.

(** The same for the result of a call in which the override did not fire. *)
Lemma pick_with_filters_category_literal min_unique scored chosen allowed i :
  _pick_with_filters df filters top_k min_unique scored = Some chosen ->
  apply_filters (labelled df) filters = Some allowed ->
  override_fires min_unique (map fst scored)
                 (staged df filters top_k allowed (map fst scored)) = false ->
  Re.re_literal cat = true ->
  In i chosen ->
  category_matches cat (row df i) = true.
Proof.
  intros H Hallowed Hquiet Hlit Hi. apply pick_with_filters_some in H.
  destruct H as [allowed' [Hallowed' [Hvalid ->]]].
  assert (allowed' = allowed) as -> by congruence.
  rewrite Hquiet in Hi. eapply staged_category_literal; eauto.
Qed.
End CategoryKept.

(* ================================================================== *)
(** ** The pipeline on two requests *)

(** C1, at a failing input. The request asks for one result ([top_k = 1]);
    the pool holds three distinct dedup keys; the override fires and
    [add_unique] stops it after the first candidate, so the caller sees one
    result, not two, and so does the client of [chat]. *)
Theorem pick_with_filters_top_k_one_single_result :
  distinct_keys Sample.make_df (map fst SampleQuery.scored) = 3%nat
  /\ apply_filters (labelled Sample.make_df) no_filters
     = Some (labelled Sample.make_df)
  /\ override_fires default_min_unique (map fst SampleQuery.scored)
       (staged Sample.make_df no_filters 1 (labelled Sample.make_df)
               (map fst SampleQuery.scored)) = true
  /\ _pick_with_filters Sample.make_df no_filters 1 default_min_unique
       SampleQuery.scored = Some [0%nat]
  /\ chat_text Sample.index default_min_unique SampleQuery.query_emb
       SampleQuery.plain_text no_filters 1 = Some [Sample.nike_tee].
Proof. repeat split; vm_compute; reflexivity. Qed.

(** C2, at a failing input. The category filter is ["t.shirt"]. Stage 1
    takes its rows from [apply_filters], where pandas reads the category as
    a regular expression, so the two rows of category ["t-shirt"] are chosen;
    the override does not fire; and ["t.shirt"] is a substring of neither
    category. *)
Theorem pick_with_filters_dotted_category_mismatch :
  _pick_with_filters Sample.make_df SampleQuery.dotted_category 8
    default_min_unique SampleQuery.scored = Some [0%nat; 1%nat]
  /\ apply_filters (labelled Sample.make_df) SampleQuery.dotted_category
     = Some [(0%nat, Sample.nike_tee); (1%nat, Sample.adidas_tee)]
  /\ override_fires default_min_unique (map fst SampleQuery.scored)
       (staged Sample.make_df SampleQuery.dotted_category 8
               [(0%nat, Sample.nike_tee); (1%nat, Sample.adidas_tee)]
               (map fst SampleQuery.scored)) = false
  /\ category_matches "t.shirt" (row Sample.make_df 0) = false
  /\ category_matches "t.shirt" (row Sample.make_df 1) = false
  /\ chat_text Sample.index default_min_unique SampleQuery.query_emb
       SampleQuery.plain_text SampleQuery.dotted_category 8
     = Some [Sample.nike_tee; Sample.adidas_tee].
Proof. repeat split; vm_compute; reflexivity. Qed.

(* ================================================================== *)
(** ** Rational scores *)

Lemma Qltb_lt x y : Py.Qltb x y = true <-> x < y.
Proof.
  unfold Py.Qltb. rewrite negb_true_iff. split.
  - intros H. apply Qnot_le_lt. intros Hle.
    apply Qle_bool_iff in Hle. congruence.
  - intros H. destruct (Qle_bool y x) eqn:E; [| reflexivity].
    apply Qle_bool_iff in E. exfalso. now apply (Qlt_not_le x y).
Qed.

Lemma Qltb_ge x y : Py.Qltb x y = false <-> y <= x.
Proof.
  unfold Py.Qltb. rewrite negb_false_iff. apply Qle_bool_iff.
Qed.

Lemma Qmax_eps_pos mx : 0 < Py.Qmax mx eps.
Proof.
  unfold Py.Qmax. destruct (Qle_bool mx eps) eqn:E.
  - reflexivity.
  - assert (eps < mx) as H.
    { apply Qnot_le_lt. intros Hle. apply Qle_bool_iff in Hle. congruence. }
    eapply Qlt_trans; [| exact H]. reflexivity.
Qed.

Lemma budget_ratio_nonneg p mx : 0 <= p -> 0 <= p / Py.Qmax mx eps.
Proof.
  intros Hp. unfold Qdiv. apply Qmult_le_0_compat; [assumption |].
  apply Qlt_le_weak, Qinv_lt_0_compat, Qmax_eps_pos.
Qed.

(* ================================================================== *)
(** ** The keyword scorer *)

Section CondSum.
Context {T : Type} (hit : T -> bool) (w : Q).
Hypothesis w_nonneg : 0 <= w.

Local Abbreviation step := (fun (s : Q) (tok : T) => if hit tok then s + w else s).

Lemma cond_sum_ge l : forall s0, s0 <= fold_left step l s0.
Proof.
  induction l as [| x l IH]; intros s0; simpl; [apply Qle_refl |].
  eapply Qle_trans; [| apply IH].
  destruct (hit x); lra.
Qed.

Lemma cond_sum_hit l tok :
  In tok l -> hit tok = true -> forall s0, s0 + w <= fold_left step l s0.
Proof.
  induction l as [| x l IH]; intros Hin Hhit s0; simpl; [destruct Hin |].
  destruct Hin as [-> | Hin].
  - rewrite Hhit. apply cond_sum_ge.
  - eapply Qle_trans; [| apply IH; assumption].
    destruct (hit x); lra.
Qed.
End CondSum.

Lemma keyword_score_nonneg text token_set r : 0 <= keyword_score text token_set r.
Proof.
  unfold keyword_score.
  eapply Qle_trans; [| apply cond_sum_ge; lra].
  eapply Qle_trans; [| apply cond_sum_ge; lra].
  destruct (_ && _); lra.
Qed.

(** A token found in the tags, the title or the description is worth at
    least one point. *)
Lemma keyword_score_overlap text token_set r tok :
  In tok token_set ->
  nonempty tok = true ->
  Py.str_in tok (Py.lower (title r)) || Py.str_in tok (Py.lower (description r))
  || Py.str_in tok (Py.lower (tags r)) = true ->
  1 <= keyword_score text token_set r.
Proof.
  intros Hin Hne Hhit. unfold keyword_score.
  set (s1 := if _ && _ then 0 + 5 else 0).
  assert (0 <= s1) as H1 by (subst s1; destruct (_ && _); lra).
  set (tag_hit := fun tok => nonempty tok && Py.str_in tok (Py.lower (tags r))).
  set (text_hit := fun tok => nonempty tok && (Py.str_in tok (Py.lower (title r))
                                               || Py.str_in tok (Py.lower (description r)))).
  set (tag_sum := fold_left (fun s tok => if tag_hit tok then s + 2 else s) token_set s1).
  set (total := fold_left (fun s tok => if text_hit tok then s + 1 else s) token_set tag_sum).
  change (1 <= total).
  assert (s1 <= tag_sum) as H2 by (apply (cond_sum_ge tag_hit 2); lra).
  apply orb_true_iff in Hhit. destruct Hhit as [Hhit | Hhit].
  - assert (text_hit tok = true) as Ht by (unfold text_hit; now rewrite Hne, Hhit).
    assert (tag_sum + 1 <= total) as H3
      by (apply (cond_sum_hit text_hit 1 ltac:(lra) token_set tok Hin Ht)).
    lra.
  - assert (tag_hit tok = true) as Ht by (unfold tag_hit; now rewrite Hne, Hhit).
    assert (s1 + 2 <= tag_sum) as H3
      by (apply (cond_sum_hit tag_hit 2 ltac:(lra) token_set tok Hin Ht)).
    assert (tag_sum <= total) as H4 by (apply (cond_sum_ge text_hit 1); lra).
    lra.
Qed.

Lemma fallback_scores_In filters text token_set cand i r s :
  In (i, r) cand ->
  fallback_row filters text token_set r = Some s ->
  In (i, s) (fallback_scores filters text token_set cand).
Proof.
  induction cand as [| [j x] cand IH]; intros Hin Hrow; simpl; [destruct Hin |].
  destruct Hin as [[= -> ->] | Hin].
  - rewrite Hrow. now left.
  - destruct (fallback_row filters text token_set x); [right |]; now apply IH.
Qed.

Lemma insert_desc_length {A} (key : A -> Q) x l :
  length (insert_desc key x l) = S (length l).
Proof.
  induction l as [| y l IH]; simpl; [reflexivity |].
  destruct (Py.Qltb (key x) (key y)); simpl; [now rewrite IH | reflexivity].
Qed.

Lemma sort_desc_length {A} (key : A -> Q) l :
  length (sort_desc key l) = length l.
Proof.
  induction l as [| x l IH]; simpl; [reflexivity |].
  now rewrite insert_desc_length, IH.
Qed.

Lemma slice_to_nonempty {A} (k : Z) (xs : list A) :
  (1 <= k)%Z -> xs <> [] -> Py.slice_to k xs <> [].
Proof.
  intros Hk Hxs. unfold Py.slice_to.
  destruct (Z.leb_spec 0 k); [| lia].
  destruct xs as [| x xs]; [congruence |].
  replace (Z.to_nat k) with (S (Z.to_nat (k - 1))) by lia. simpl. discriminate.
Qed.

(** A row of the pool is within the price bounds. *)
Lemma fallback_cand_price df filters cand i r :
  fallback_cand df filters = Some cand ->
  In (i, r) cand ->
  keep_price_min filters r = true /\ keep_price_max filters r = true.
Proof.
  unfold fallback_cand. destruct (any_filter filters) eqn:E.
  - intros Hc H. pose proof (In_apply_filters _ _ _ _ Hc H) as Hkeep.
    simpl in Hkeep. tauto.
  - intros _ _. unfold any_filter in E.
    repeat (apply orb_false_iff in E; destruct E as [E ?]).
    unfold keep_price_min, keep_price_max.
    destruct (f_price_min filters), (f_price_max filters); simpl in *;
      try discriminate; auto.
Qed.

Lemma price_min_guard filters r :
  keep_price_min filters r = true ->
  match f_price_min filters with
  | Some lo => Py.Qltb (price r) lo
  | None => false
  end = false.
Proof.
  unfold keep_price_min. destruct (f_price_min filters); [| reflexivity].
  intros H. unfold Py.Qltb. now rewrite H.
Qed.

Lemma price_max_guard filters r :
  keep_price_max filters r = true ->
  match f_price_max filters with
  | Some hi => Py.Qltb hi (price r)
  | None => false
  end = false.
Proof.
  unfold keep_price_max. destruct (f_price_max filters); [| reflexivity].
  intros H. unfold Py.Qltb. now rewrite H.
Qed.

Lemma category_guard filters r :
  (Py.truthy (f_category filters) = true ->
   category_matches (opt_str (f_category filters)) r = true) ->
  Py.truthy (f_category filters)
  && negb (Py.str_in (Py.lower (opt_str (f_category filters))) (Py.lower (category r)))
  = false.
Proof.
  unfold category_matches. destruct (Py.truthy (f_category filters)); [| reflexivity].
  intros H. now rewrite H.
Qed.

(** A row within the price bounds and the category, with a price that is not
    negative and a keyword score of one or more, is scored. *)
Lemma fallback_row_scored filters text token_set r :
  keep_price_min filters r = true ->
  keep_price_max filters r = true ->
  (Py.truthy (f_category filters) = true ->
   category_matches (opt_str (f_category filters)) r = true) ->
  0 <= price r ->
  1 <= keyword_score text token_set r ->
  exists s, fallback_row filters text token_set r = Some s.
Proof.
  intros Hlo Hhi Hcat Hprice Hscore. unfold fallback_row.
  rewrite (price_min_guard _ _ Hlo), (price_max_guard _ _ Hhi), (category_guard _ _ Hcat).
  assert (0 < match f_price_max filters with
              | Some mx => keyword_score text token_set r
                           + 1.5 * (price r / Py.Qmax mx eps)
              | None => keyword_score text token_set r
              end) as Hpos.
  { destruct (f_price_max filters) as [mx |]; [| lra].
    pose proof (budget_ratio_nonneg (price r) mx Hprice). lra. }
  apply Qltb_lt in Hpos. rewrite Hpos. eauto.
Qed.

(* ================================================================== *)
(** ** Dedup keys in a response *)

Lemma Subseq_In {A} (l m : list A) x : Subseq l m -> In x l -> In x m.
Proof.
  induction 1 as [| y l m _ IH | y l m _ IH]; simpl; [tauto | auto |].
  intros [-> | H]; auto.
Qed.

Lemma Subseq_filter {A} (p : A -> bool) (l : list A) : Subseq (filter p l) l.
Proof.
  induction l as [| x l IH]; simpl; [constructor |].
  destruct (p x); now constructor.
Qed.

Lemma Subseq_NoDup_map {A B} (f : A -> B) (l m : list A) :
  Subseq l m -> NoDup (map f m) -> NoDup (map f l).
Proof.
  induction 1 as [| y l m Hs IH | y l m Hs IH]; simpl; intros Hnd.
  - constructor.
  - inversion Hnd; subst. now apply IH.
  - inversion Hnd as [| ? ? Hnot Hrest]; subst. constructor; [| now apply IH].
    intros Hin. apply Hnot. apply in_map_iff in Hin. destruct Hin as [x [Hfx Hx]].
    apply in_map_iff. exists x. split; [assumption |]. eapply Subseq_In; eauto.
Qed.

(** On the pipeline path the response keeps the dedup keys distinct: when the
    pipeline chooses something, pruning and the closing loop only drop
    products. *)
Lemma chat_pipeline_path_distinct_keys df mu scored text filters k chosen products :
  _pick_with_filters df filters k mu scored = Some chosen ->
  chosen <> [] ->
  chat_text_recommend df mu scored text filters k = Some products ->
  NoDup (map product_key products).
Proof.
  intros Hpick Hne. unfold chat_text_recommend. rewrite Hpick.
  pose proof (pick_with_filters_distinct_keys df filters k mu scored chosen Hpick) as Hkeys.
  remember (map (row df) chosen) as picked eqn:Epicked.
  assert (NoDup (map product_key picked)) as Hrows
    by (subst picked; now rewrite map_map).
  assert (picked <> []) as Hsome
    by (subst picked; intros E; apply map_eq_nil in E; contradiction).
  clear Epicked.
  assert (forall pruned, prune df filters picked = Some pruned ->
                         NoDup (map product_key pruned)) as Hpruned.
  { unfold prune. intros pruned.
    destruct (any_filter filters).
    - destruct (apply_filters (labelled df) filters); [| discriminate].
      intros [= <-]. eapply Subseq_NoDup_map; [apply Subseq_filter | assumption].
    - now intros [= <-]. }
  destruct picked as [| p rest]; [congruence |].
  destruct (prune df filters (p :: rest)) as [pruned |]; [| discriminate].
  intros [= <-].
  eapply Subseq_NoDup_map; [| now apply Hpruned].
  unfold dedup_products. rewrite unique_loop_fresh. apply fresh_by_id_subseq.
Qed.

(** C5, at a failing input. Two listings share the normalized title and
    brand and differ in id. The request carries [top_k = -1], which [chat]
    hands to the pipeline and to the fallback as it is: the pipeline chooses
    nothing, the keyword fallback, which has no dedup rule, returns all but
    the last scored row, and both listings are in the response. *)
Theorem chat_fallback_returns_both_twins :
  product_key SampleQuery.twin_a = product_key SampleQuery.twin_b
  /\ id SampleQuery.twin_a <> id SampleQuery.twin_b
  /\ _pick_with_filters SampleQuery.twins_df no_filters (-1) default_min_unique
       SampleQuery.scored = Some []
  /\ _keyword_fallback SampleQuery.twins_df no_filters (-1) SampleQuery.plain_text
     = Some [0%nat; 1%nat]
  /\ chat_text_recommend SampleQuery.twins_df default_min_unique SampleQuery.scored
       SampleQuery.plain_text no_filters (-1)
     = Some [SampleQuery.twin_a; SampleQuery.twin_b]
  /\ chat_text SampleQuery.twins_index default_min_unique SampleQuery.query_emb
       SampleQuery.plain_text no_filters (-1)
     = Some [SampleQuery.twin_a; SampleQuery.twin_b].
Proof.
  split; [reflexivity |].
  split; [discriminate |].
  repeat split; vm_compute; reflexivity.
Qed.

(** The fallback has no dedup rule at any [top_k]. *)
Lemma keyword_fallback_keeps_twins :
  _keyword_fallback SampleQuery.twins_df no_filters 8 SampleQuery.plain_text
  = Some [0%nat; 1%nat; 2%nat].
Proof. vm_compute. reflexivity. Qed.

(* ================================================================== *)
(** ** The stable descending sort *)

Section SortFacts.
Context {A : Type} (key : A -> Q).

Lemma insert_desc_perm x l : Permutation (insert_desc key x l) (x :: l).
Proof.
  induction l as [| y l IH]; simpl; [reflexivity |].
  destruct (Py.Qltb (key x) (key y)); [| reflexivity].
  rewrite IH. apply perm_swap.
Qed.

Lemma sort_desc_perm l : Permutation (sort_desc key l) l.
Proof.
  induction l as [| x l IH]; simpl; [reflexivity |].
  rewrite insert_desc_perm. now constructor.
Qed.

Lemma sort_desc_In l x : In x (sort_desc key l) <-> In x l.
Proof.
  split; apply Permutation_in; [| symmetry]; apply sort_desc_perm.
Qed.

Local Abbreviation desc := (fun a b : A => key b <= key a).

Lemma insert_desc_sorted x l :
  StronglySorted desc l -> StronglySorted desc (insert_desc key x l).
Proof.
  induction l as [| y l IH]; intros Hs; simpl.
  - constructor; constructor.
  - inversion Hs as [| ? ? Hl Hy]; subst.
    destruct (Py.Qltb (key x) (key y)) eqn:E.
    + apply Qltb_lt in E. constructor; [now apply IH |].
      eapply Permutation_Forall; [symmetry; apply insert_desc_perm |].
      constructor; [now apply Qlt_le_weak | assumption].
    + apply Qltb_ge in E. constructor; [assumption |].
      constructor; [assumption |].
      eapply Forall_impl; [| exact Hy]. simpl. intros b Hb.
      eapply Qle_trans; eauto.
Qed.

Lemma sort_desc_sorted l : StronglySorted desc (sort_desc key l).
Proof.
  induction l as [| x l IH]; simpl; [constructor |].
  now apply insert_desc_sorted.
Qed.

(** Stability: the elements of one key keep their order. *)
Lemma insert_desc_stable q x l :
  filter (fun a => Qeq_bool (key a) q) (insert_desc key x l)
  = filter (fun a => Qeq_bool (key a) q) (x :: l).
Proof.
  induction l as [| y l IH]; [reflexivity |].
  simpl insert_desc.
  destruct (Py.Qltb (key x) (key y)) eqn:E; [| reflexivity].
  apply Qltb_lt in E.
  change (filter (fun a => Qeq_bool (key a) q) (y :: insert_desc key x l))
    with (if Qeq_bool (key y) q
          then y :: filter (fun a => Qeq_bool (key a) q) (insert_desc key x l)
          else filter (fun a => Qeq_bool (key a) q) (insert_desc key x l)).
  rewrite IH. simpl.
  destruct (Qeq_bool (key y) q) eqn:Ey, (Qeq_bool (key x) q) eqn:Ex; try reflexivity.
  apply Qeq_bool_iff in Ex, Ey. exfalso.
  rewrite Ex, Ey in E. now apply (Qlt_irrefl q).
Qed.

Lemma sort_desc_stable q l :
  filter (fun a => Qeq_bool (key a) q) (sort_desc key l)
  = filter (fun a => Qeq_bool (key a) q) l.
Proof.
  induction l as [| x l IH]; [reflexivity |].
  simpl sort_desc. rewrite insert_desc_stable. simpl. now rewrite IH.
Qed.
End SortFacts.

(** Sorting positions that stand in increasing order ranks them. *)
Lemma insert_desc_ranked (key : nat -> Q) x l :
  StronglySorted (ranks_before key) l ->
  Forall (fun y => (x < y)%nat) l ->
  StronglySorted (ranks_before key) (insert_desc key x l).
Proof.
  induction l as [| y l IH]; intros Hs Hgt; simpl.
  - constructor; constructor.
  - inversion Hs as [| ? ? Hl Hy]; subst.
    inversion Hgt as [| ? ? Hxy Hgt']; subst.
    destruct (Py.Qltb (key x) (key y)) eqn:E.
    + apply Qltb_lt in E. constructor; [now apply IH |].
      eapply Permutation_Forall; [symmetry; apply insert_desc_perm |].
      constructor; [now left | assumption].
    + apply Qltb_ge in E. constructor; [assumption |].
      assert (ranks_before key x y) as Hfirst.
      { destruct (Qlt_le_dec (key y) (key x)) as [Hlt | Hle]; [now left | right].
        split; [now apply Qle_antisym | assumption]. }
      constructor; [assumption |].
      rewrite Forall_forall in Hy, Hgt' |- *. intros b Hb.
      specialize (Hy b Hb). specialize (Hgt' b Hb).
      destruct Hfirst as [Hlt | [Heq _]], Hy as [Hlt' | [Heq' _]].
      * left. eapply Qlt_trans; eauto.
      * left. now rewrite <- Heq'.
      * left. now rewrite Heq.
      * right. split; [now rewrite Heq | assumption].
Qed.

Lemma sort_desc_ranked (key : nat -> Q) l :
  StronglySorted lt l -> StronglySorted (ranks_before key) (sort_desc key l).
Proof.
  induction l as [| x l IH]; intros Hs; simpl; [constructor |].
  inversion Hs as [| ? ? Hl Hx]; subst.
  apply insert_desc_ranked; [now apply IH |].
  eapply Permutation_Forall; [symmetry; apply sort_desc_perm | assumption].
Qed.

Lemma seq_sorted len : forall start, StronglySorted lt (seq start len).
Proof.
  induction len as [| len IH]; intros start; simpl; constructor; [apply IH |].
  apply Forall_forall. intros y Hy. apply in_seq in Hy. lia.
Qed.

Lemma relevance_ranking_ranked cand_scores :
  StronglySorted (ranks_before (fun j => nth j cand_scores 0))
                 (relevance_ranking cand_scores).
Proof. apply sort_desc_ranked, seq_sorted. Qed.

Lemma relevance_ranking_perm cand_scores :
  Permutation (relevance_ranking cand_scores) (seq 0 (length cand_scores)).
Proof. apply sort_desc_perm. Qed.

(* ================================================================== *)
(** ** [argmax] *)

Lemma argmax_from_spec l :
  forall P best_i best,
    (best_i < length P)%nat ->
    nth best_i P 0 = best ->
    (forall k, (k < length P)%nat -> nth k P 0 <= best) ->
    (forall k, (k < best_i)%nat -> nth k P 0 < best) ->
    let j := argmax_from best_i best (length P) l in
    (j < length (P ++ l))%nat
    /\ (forall k, (k < length (P ++ l))%nat -> nth k (P ++ l) 0 <= nth j (P ++ l) 0)
    /\ (forall k, (k < j)%nat -> nth k (P ++ l) 0 < nth j (P ++ l) 0).
Proof.
  induction l as [| x l IH]; intros P best_i best Hi Hbest Hmax Hfirst; simpl.
  - rewrite app_nil_r. rewrite Hbest. auto.
  - replace (P ++ x :: l) with ((P ++ [x]) ++ l) by (now rewrite <- app_assoc).
    replace (S (length P)) with (length (P ++ [x])) by (rewrite length_app; simpl; lia).
    assert (forall k, (k < length P)%nat -> nth k (P ++ [x]) 0 = nth k P 0) as Hold
      by (intros k Hk; now apply app_nth1).
    assert (nth (length P) (P ++ [x]) 0 = x) as Hnew
      by (rewrite app_nth2, Nat.sub_diag; [reflexivity | lia]).
    destruct (Py.Qltb best x) eqn:E.
    + apply Qltb_lt in E. apply IH.
      * rewrite length_app. simpl. lia.
      * exact Hnew.
      * intros k Hk. rewrite length_app in Hk. simpl in Hk.
        destruct (Nat.eq_dec k (length P)) as [-> | Hne].
        -- rewrite Hnew. apply Qle_refl.
        -- rewrite Hold by lia. apply Qlt_le_weak.
           eapply Qle_lt_trans; [apply Hmax; lia | exact E].
      * intros k Hk. rewrite Hold by lia.
        eapply Qle_lt_trans; [apply Hmax; lia | exact E].
    + apply Qltb_ge in E. apply IH.
      * rewrite length_app. simpl. lia.
      * now rewrite Hold.
      * intros k Hk. rewrite length_app in Hk. simpl in Hk.
        destruct (Nat.eq_dec k (length P)) as [-> | Hne].
        -- now rewrite Hnew.
        -- rewrite Hold by lia. apply Hmax. lia.
      * intros k Hk. rewrite Hold by lia. now apply Hfirst.
Qed.

(** [argmax] is a position of the greatest value, and the first one. *)
Lemma argmax_spec l :
  l <> [] ->
  (argmax l < length l)%nat
  /\ (forall k, (k < length l)%nat -> nth k l 0 <= nth (argmax l) l 0)
  /\ (forall k, (k < argmax l)%nat -> nth k l 0 < nth (argmax l) l 0).
Proof.
  destruct l as [| x l]; [congruence | intros _].
  apply (argmax_from_spec l [x] 0%nat x).
  - simpl. lia.
  - reflexivity.
  - intros k Hk. simpl in Hk. replace k with 0%nat by lia. apply Qle_refl.
  - intros k Hk. lia.
Qed.

Lemma argmax_unique l j :
  (j < length l)%nat ->
  (forall k, (k < length l)%nat -> nth k l 0 <= nth j l 0) ->
  (forall k, (k < j)%nat -> nth k l 0 < nth j l 0) ->
  argmax l = j.
Proof.
  intros Hj Hmax Hfirst.
  assert (l <> []) as Hne by (destruct l; [simpl in Hj; lia | discriminate]).
  destruct (argmax_spec l Hne) as [Ha [Hamax Hafirst]].
  destruct (Nat.lt_trichotomy (argmax l) j) as [Hlt | [Heq | Hgt]]; [| assumption |].
  - specialize (Hfirst _ Hlt). specialize (Hamax _ Hj).
    exfalso. eapply Qlt_not_le; eauto.
  - specialize (Hafirst _ Hgt). specialize (Hmax _ Ha).
    exfalso. eapply Qlt_not_le; eauto.
Qed.

Lemma Qmax_cases x y : Py.Qmax x y = x \/ Py.Qmax x y = y.
Proof. unfold Py.Qmax. destruct (Qle_bool x y); auto. Qed.

Lemma max_of_range (lo hi : Q) l :
  lo <= 0 -> 0 <= hi ->
  Forall (fun x => lo <= x /\ x <= hi) l ->
  lo <= max_of l /\ max_of l <= hi.
Proof.
  intros Hlo Hhi Hl. destruct l as [| x l]; simpl; [auto |].
  inversion Hl as [| ? ? Hx Hrest]; subst. clear Hl.
  revert x Hx. induction l as [| y l IH]; intros x Hx; simpl; [assumption |].
  inversion Hrest as [| ? ? Hy Hrest']; subst.
  apply IH; [assumption |].
  destruct (Qmax_cases x y) as [-> | ->]; assumption.
Qed.

Lemma firstn_succ_nth {A} (d : A) (l : list A) :
  forall t, (t < length l)%nat -> firstn (S t) l = firstn t l ++ [nth t l d].
Proof.
  induction l as [| x l IH]; intros t Ht; simpl in Ht; [lia |].
  destruct t as [| t]; [reflexivity |].
  simpl. f_equal. apply IH. lia.
Qed.

Lemma nth_map_seq {B} (f : nat -> B) (len c : nat) (d : B) :
  (c < len)%nat -> nth c (map f (seq 0 len)) d = f c.
Proof.
  intros Hc. rewrite (nth_indep _ d (f 0%nat)) by (now rewrite length_map, length_seq).
  rewrite map_nth, seq_nth by assumption. reflexivity.
Qed.

Lemma unit_range_spec q : unit_range q = true <-> -1 <= q /\ q <= 1.
Proof.
  unfold unit_range. now rewrite andb_true_iff, !Qle_bool_iff.
Qed.

(* ================================================================== *)
(** ** Inner products of unit vectors *)

Lemma dot_acc l :
  forall acc,
    fold_left (fun acc (xy : Q * Q) => acc + fst xy * snd xy) l acc
    == acc + fold_left (fun acc (xy : Q * Q) => acc + fst xy * snd xy) l 0.
Proof.
  induction l as [| p l IH]; intros acc; simpl.
  - ring.
  - rewrite IH. rewrite (IH (0 + _)). ring.
Qed.

Lemma dot_cons x a y b : dot (x :: a) (y :: b) == x * y + dot a b.
Proof. unfold dot. simpl. rewrite dot_acc. ring. Qed.

Lemma square_nonneg (x : Q) : 0 <= x * x.
Proof. nra. Qed.

Lemma square_lt (r t : Q) : 0 <= r -> r < t -> r * r < t * t.
Proof. intros. nra. Qed.

Lemma dot_self_nonneg a : 0 <= dot a a.
Proof.
  induction a as [| x a IH].
  - unfold dot. simpl. lra.
  - rewrite dot_cons. pose proof (square_nonneg x). lra.
Qed.

(** The step of the Cauchy-Schwarz inequality: one more coordinate. *)
Lemma cauchy_schwarz_step (x y S A B : Q) :
  0 <= A -> 0 <= B -> S * S <= A * B ->
  (x * y + S) * (x * y + S) <= (x * x + A) * (y * y + B).
Proof.
  intros HA HB HS.
  pose proof (square_nonneg x) as Hx. pose proof (square_nonneg y) as Hy.
  set (R := x * x * B + y * y * A).
  set (T := 2 * (x * y * S)).
  assert (0 <= R) as HR.
  { unfold R. pose proof (Qmult_le_0_compat _ _ Hx HB).
    pose proof (Qmult_le_0_compat _ _ Hy HA). lra. }
  assert (T <= R) as H.
  { destruct (Qlt_le_dec R T) as [Hlt | Hle]; [| exact Hle].
    exfalso.
    pose proof (square_lt R T HR Hlt) as Hsq.
    pose proof (square_nonneg (x * x * B - y * y * A)) as Hq.
    assert (0 <= (x * x) * (y * y) * (A * B - S * S)) as Hp.
    { apply Qmult_le_0_compat; [| lra]. now apply Qmult_le_0_compat. }
    assert (R * R - T * T == (x * x * B - y * y * A) * (x * x * B - y * y * A)
                             + 4 * ((x * x) * (y * y) * (A * B - S * S))) as E
      by (unfold R, T; ring).
    lra. }
  assert ((x * x + A) * (y * y + B) - (x * y + S) * (x * y + S)
          == (R - T) + (A * B - S * S)) as E by (unfold R, T; ring).
  lra.
Qed.

Lemma dot_cauchy_schwarz a : forall b, dot a b * dot a b <= dot a a * dot b b.
Proof.
  induction a as [| x a IH]; intros [| y b].
  - unfold dot. simpl. lra.
  - unfold dot at 1 2 3. simpl. pose proof (dot_self_nonneg (y :: b)). lra.
  - unfold dot at 1 2 4. simpl. pose proof (dot_self_nonneg (x :: a)). lra.
  - rewrite !dot_cons. apply cauchy_schwarz_step; auto using dot_self_nonneg.
Qed.

(** The inner product of two unit vectors is a cosine. *)
Lemma dot_unit_cosine a b :
  unit_norm a = true -> unit_norm b = true -> unit_range (dot a b) = true.
Proof.
  unfold unit_norm. intros Ha Hb. apply Qeq_bool_iff in Ha, Hb.
  pose proof (dot_cauchy_schwarz a b) as H. rewrite Ha, Hb in H.
  apply unit_range_spec. nra.
Qed.

(** The inputs [_search] hands to [_mmr] are cosines when the query and the
    embeddings are unit vectors, as the encoder returns them. *)
Lemma unit_norm_cosine_inputs self query_emb cand_idxs :
  unit_norm query_emb = true ->
  Forall (fun i => unit_norm (embedding self i) = true) cand_idxs ->
  cosine_inputs self cand_idxs
                (map (fun i => dot query_emb (embedding self i)) cand_idxs) = true.
Proof.
  intros Hq Hemb. rewrite Forall_forall in Hemb. unfold cosine_inputs.
  rewrite length_map, Nat.eqb_refl. simpl.
  apply andb_true_iff. split.
  - apply forallb_forall. intros s Hs. apply in_map_iff in Hs.
    destruct Hs as [i [<- Hi]]. apply dot_unit_cosine; auto.
  - apply forallb_forall. intros a Ha. apply forallb_forall. intros b Hb.
    apply in_seq in Ha, Hb. unfold sim_items, item_vec.
    apply dot_unit_cosine; apply Hemb, nth_In; lia.
Qed.

(* ================================================================== *)
(** ** The MMR loop *)

Section MMRFacts.
Variable self : CatalogIndex.
Variable cand_idxs : list nat.
Variable cand_scores : list Q.
Variable top_k : Z.
Variable diversity : Q.

Local Abbreviation n := (length cand_idxs).
Local Abbreviation sim := (sim_to_query cand_scores).
Local Abbreviation pen := (penalty self cand_idxs).
Local Abbreviation pick := (mmr_pick self cand_idxs cand_scores diversity).
Local Abbreviation selected := (mmr_selected self cand_idxs cand_scores top_k diversity).

(** The number of turns of the loop. *)
Local Abbreviation turns := (Z.to_nat (Z.min top_k (Z.of_nat n))).

(** The loop appends one pick per turn and stops when the guard fails. *)
Lemma mmr_loop_steps fuel :
  forall sel,
    exists ext,
      mmr_loop self cand_idxs cand_scores top_k diversity fuel sel = sel ++ ext
      /\ (forall t, (t < length ext)%nat -> nth t ext 0%nat = pick (sel ++ firstn t ext))
      /\ length ext = Nat.min fuel (turns - length sel).
Proof.
  induction fuel as [| fuel IH]; intros sel; cbn [mmr_loop].
  - exists []. rewrite app_nil_r. repeat split. intros t Ht. simpl in Ht. lia.
  - unfold n_cand.
    destruct (Z.ltb_spec (Z.of_nat (length sel)) (Z.min top_k (Z.of_nat n))) as [Hgo | Hstop].
    + destruct (IH (sel ++ [pick sel])) as [ext [Heq [Hstep Hlen]]].
      exists (pick sel :: ext). rewrite Heq, <- app_assoc. split; [reflexivity |].
      split.
      * intros [| t] Ht; simpl.
        -- now rewrite app_nil_r.
        -- simpl in Ht. rewrite Hstep by lia. now rewrite <- app_assoc.
      * cbn [length]. rewrite Hlen, length_app. cbn [length]. lia.
    + exists []. rewrite app_nil_r. repeat split; [intros t Ht; simpl in Ht; lia |].
      cbn [length]. lia.
Qed.

(** The loop leaves by its guard: [n] turns are enough. *)
Lemma mmr_loop_exits : length selected = turns.
Proof.
  unfold mmr_selected.
  destruct (mmr_loop_steps (n_cand cand_idxs) []) as [ext [Heq [_ Hlen]]].
  rewrite Heq. simpl. rewrite Hlen. unfold n_cand. simpl. lia.
Qed.

(** Each selected position is the pick made from the positions before it. *)
Lemma mmr_selected_step t :
  (t < length selected)%nat ->
  nth t selected 0%nat = pick (firstn t selected).
Proof.
  unfold mmr_selected.
  destruct (mmr_loop_steps (n_cand cand_idxs) []) as [ext [Heq [Hstep _]]].
  rewrite Heq. simpl. intros Ht. now apply Hstep.
Qed.

Lemma mmr_score_length sel :
  length (mmr_score self cand_idxs cand_scores diversity sel) = n.
Proof. unfold mmr_score. now rewrite length_map, length_seq. Qed.

Lemma mmr_score_nth sel c :
  (c < n)%nat ->
  nth c (mmr_score self cand_idxs cand_scores diversity sel) 0
  = if Py.mem_nat c sel then masked
    else diversity * sim c - (1 - diversity) * pen sel c.
Proof.
  intros Hc. unfold mmr_score, n_cand. now rewrite nth_map_seq.
Qed.

Hypothesis cosines : cosine_inputs self cand_idxs cand_scores = true.

Lemma cosine_scores_length : length cand_scores = n.
Proof.
  pose proof cosines as H0. unfold cosine_inputs in H0.
  apply andb_true_iff in H0. destruct H0 as [H _].
  apply andb_true_iff in H. destruct H as [H _]. now apply Nat.eqb_eq.
Qed.

Lemma cosine_sim_to_query c : (c < n)%nat -> -1 <= sim c /\ sim c <= 1.
Proof.
  intros Hc. pose proof cosines as H0. unfold cosine_inputs in H0.
  apply andb_true_iff in H0. destruct H0 as [H _].
  apply andb_true_iff in H. destruct H as [_ H].
  rewrite forallb_forall in H. apply unit_range_spec, H.
  unfold sim_to_query. apply nth_In. now rewrite cosine_scores_length.
Qed.

Lemma cosine_sim_items a b :
  (a < n)%nat -> (b < n)%nat ->
  -1 <= sim_items self cand_idxs a b /\ sim_items self cand_idxs a b <= 1.
Proof.
  intros Ha Hb. pose proof cosines as H0. unfold cosine_inputs in H0.
  apply andb_true_iff in H0. destruct H0 as [_ H].
  rewrite forallb_forall in H.
  specialize (H a ltac:(apply in_seq; lia)).
  rewrite forallb_forall in H.
  apply unit_range_spec, H, in_seq. lia.
Qed.

Lemma cosine_penalty sel c : (c < n)%nat -> -1 <= pen sel c /\ pen sel c <= 1.
Proof.
  intros Hc. unfold penalty.
  apply max_of_range; try lra.
  apply Forall_forall. intros x Hx. apply in_map_iff in Hx.
  destruct Hx as [s [<- Hs]]. apply filter_In in Hs. destruct Hs as [Hs _].
  apply in_seq in Hs. apply cosine_sim_items; [assumption | unfold n_cand in Hs; lia].
Qed.

(** Fewer positions than candidates leave one unselected. *)
Lemma unselected_exists sel :
  (length sel < n)%nat -> exists c, (c < n)%nat /\ ~ In c sel.
Proof.
  intros Hlen.
  destruct (filter (fun c => negb (Py.mem_nat c sel)) (seq 0 n)) as [| c rest] eqn:E.
  - exfalso.
    assert (incl (seq 0 n) sel) as Hincl.
    { intros c Hc. destruct (Py.mem_nat c sel) eqn:Em; [now apply mem_nat_In |].
      assert (In c (filter (fun c => negb (Py.mem_nat c sel)) (seq 0 n))) as Hf
        by (apply filter_In; split; [assumption | now rewrite Em]).
      rewrite E in Hf. destruct Hf. }
    apply NoDup_incl_length in Hincl; [| apply seq_NoDup].
    rewrite length_seq in Hincl. lia.
  - assert (In c (filter (fun c => negb (Py.mem_nat c sel)) (seq 0 n))) as Hf
      by (rewrite E; now left).
    apply filter_In in Hf. destruct Hf as [Hc Hm].
    exists c. split; [apply in_seq in Hc; lia |].
    apply negb_true_iff in Hm. now apply mem_nat_not_In.
Qed.

Hypothesis diversity_range : 0 <= diversity /\ diversity <= 1.

(** The score of an unselected candidate is above the mask. *)
Lemma unselected_above_mask sel c :
  (c < n)%nat -> masked < diversity * sim c - (1 - diversity) * pen sel c.
Proof.
  intros Hc.
  destruct (cosine_sim_to_query c Hc) as [Hs _].
  destruct (cosine_penalty sel c Hc) as [_ Hp].
  destruct diversity_range as [Hd0 Hd1].
  unfold masked. nra.
Qed.

(** A pick is a candidate position that was not selected before. *)
Lemma mmr_pick_fresh sel :
  (length sel < n)%nat -> (pick sel < n)%nat /\ ~ In (pick sel) sel.
Proof.
  intros Hlen. unfold mmr_pick. destruct sel as [| s sel']; [split; [| tauto] |].
  - rewrite <- cosine_scores_length. apply argmax_spec.
    intros E. pose proof cosine_scores_length as Hl. rewrite E in Hl. simpl in Hl. lia.
  - set (sel := s :: sel') in *.
    set (v := mmr_score self cand_idxs cand_scores diversity sel).
    assert (v <> []) as Hv.
    { intros E. pose proof (mmr_score_length sel) as Hl. fold v in Hl.
      rewrite E in Hl. simpl in Hl. lia. }
    destruct (argmax_spec v Hv) as [Hj [Hmax _]].
    unfold v in Hj at 2. rewrite mmr_score_length in Hj.
    split; [exact Hj |].
    destruct (unselected_exists sel Hlen) as [c [Hc Hnot]].
    intros Hin.
    assert (nth c v 0 <= nth (argmax v) v 0) as Hle
      by (apply Hmax; unfold v; now rewrite mmr_score_length).
    unfold v in Hle at 1 3. rewrite !mmr_score_nth in Hle by assumption.
    apply mem_nat_In in Hin. apply mem_nat_not_In in Hnot.
    fold v in Hle. rewrite Hin, Hnot in Hle.
    pose proof (unselected_above_mask sel c Hc). lra.
Qed.

(** Every prefix of the selection holds distinct candidate positions. *)
Lemma mmr_prefix_distinct t :
  (t <= length selected)%nat ->
  NoDup (firstn t selected) /\ Forall (fun j => (j < n)%nat) (firstn t selected).
Proof.
  induction t as [| t IH]; intros Ht.
  - simpl. split; constructor.
  - destruct (IH ltac:(lia)) as [Hnd Hin].
    assert (length (firstn t selected) < n)%nat as Hlen.
    { rewrite length_firstn. pose proof mmr_loop_exits. lia. }
    destruct (mmr_pick_fresh _ Hlen) as [Hp Hfresh].
    rewrite (firstn_succ_nth 0%nat) by lia.
    rewrite mmr_selected_step by lia.
    split.
    + apply NoDup_app; [assumption | repeat constructor; auto |].
      intros a Ha [<- | []]. contradiction.
    + apply Forall_app. split; [assumption | now repeat constructor].
Qed.

Lemma mmr_selected_distinct :
  NoDup selected /\ Forall (fun j => (j < n)%nat) selected.
Proof.
  rewrite <- (firstn_all selected). now apply mmr_prefix_distinct.
Qed.
End MMRFacts.

Lemma NoDup_map_nth (l : list nat) (positions : list nat) :
  NoDup l ->
  NoDup positions ->
  Forall (fun j => (j < length l)%nat) positions ->
  NoDup (map (fun j => nth j l 0%nat) positions).
Proof.
  intros Hl Hp Hin. apply NoDup_map_NoDup_ForallPairs; [| assumption].
  intros a b Ha Hb Heq. rewrite Forall_forall in Hin.
  rewrite (NoDup_nth l 0%nat) in Hl. apply Hl; auto.
Qed.

(** [_search] hands [_mmr] a candidate list without repeated positions. *)
Lemma uniq_loop_NoDup pairs :
  forall seen,
    NoDup (map fst (uniq_loop seen pairs))
    /\ forall i, In i (map fst (uniq_loop seen pairs)) -> ~ In i seen.
Proof.
  induction pairs as [| [i s] pairs IH]; intros seen; simpl.
  - split; [constructor | tauto].
  - destruct (Py.mem_nat (Z.to_nat i) seen) eqn:E; [apply IH |].
    destruct (IH (Z.to_nat i :: seen)) as [Hnd Havoid].
    simpl. split.
    + constructor; [| assumption].
      intros Hin. apply (Havoid _ Hin). now left.
    + intros j [<- | Hj].
      * now apply mem_nat_not_In.
      * intros Hseen. apply (Havoid _ Hj). now right.
Qed.

Lemma valid_unique_NoDup cand_scores cand_idxs :
  NoDup (map fst (valid_unique cand_scores cand_idxs)).
Proof. unfold valid_unique. apply uniq_loop_NoDup. Qed.

(** C6, as the code has it. MMR over a deduplicated candidate list with
    cosine scores returns, for every [top_k], exactly
    max(0, min(top_k, number of candidates)) entry indices (none when
    [top_k] is zero or negative), pairwise distinct and all taken from the
    candidate index list. *)
Theorem mmr_cardinality
        (self : CatalogIndex) (cand_idxs : list nat) (cand_scores : list Q)
        (top_k : Z) (diversity : Q) :
  NoDup cand_idxs ->
  cosine_inputs self cand_idxs cand_scores = true ->
  0 <= diversity /\ diversity <= 1 ->
  Z.of_nat (length (_mmr self cand_idxs cand_scores top_k diversity))
  = Z.max 0 (Z.min top_k (Z.of_nat (length cand_idxs)))
  /\ NoDup (_mmr self cand_idxs cand_scores top_k diversity)
  /\ incl (_mmr self cand_idxs cand_scores top_k diversity) cand_idxs.
Proof.
  intros Hnd Hcos Hdiv. unfold _mmr.
  destruct (mmr_selected_distinct self cand_idxs cand_scores top_k diversity Hcos Hdiv)
    as [Hsel Hrange].
  split; [| split].
  - rewrite length_map, mmr_loop_exits. lia.
  - now apply NoDup_map_nth.
  - intros i Hi. apply in_map_iff in Hi. destruct Hi as [j [<- Hj]].
    rewrite Forall_forall in Hrange. apply nth_In. now apply Hrange.
Qed.

Lemma mmr_cardinality_witness :
  Z.of_nat (length (_mmr Sample.index [0; 1; 2]%nat [1; 3 # 5; 0] 2 0.3))
  = Z.max 0 (Z.min 2 (Z.of_nat (length [0; 1; 2]%nat)))
  /\ NoDup (_mmr Sample.index [0; 1; 2]%nat [1; 3 # 5; 0] 2 0.3)
  /\ incl (_mmr Sample.index [0; 1; 2]%nat [1; 3 # 5; 0] 2 0.3) [0; 1; 2]%nat.
Proof.
  apply (mmr_cardinality Sample.index [0; 1; 2]%nat [1; 3 # 5; 0] 2 0.3).
  - repeat constructor; simpl; intuition discriminate.
  - vm_compute. reflexivity.
  - split; vm_compute; discriminate.
Defined.

(** C6, counterexample. For a negative [top_k] the guard of the loop fails
    at once and MMR selects nothing: the number of selected indices is 0,
    not min(top_k, number of candidates), which is negative. [_search]
    receives such a [top_k] from [search_similar_to_id], which hands on
    [top_k + 1] as it comes. *)
Lemma mmr_negative_top_k_selects_nothing :
  _mmr Sample.index [0; 1; 2]%nat [1; 3 # 5; 0] (-1) 0.3 = []
  /\ Z.of_nat (length (_mmr Sample.index [0; 1; 2]%nat [1; 3 # 5; 0] (-1) 0.3))
     <> Z.min (-1) (Z.of_nat (length [0; 1; 2]%nat))
  /\ search_similar_to_id Sample.index "a" (-2) = Some [].
Proof.
  split; [reflexivity |]. split; [vm_compute; discriminate | vm_compute; reflexivity].
Qed.

(* ================================================================== *)
(** ** MMR at the ends of the diversity range *)

Lemma nth_decompose {A} (d : A) (l : list A) :
  forall t, (t < length l)%nat -> l = firstn t l ++ nth t l d :: skipn (S t) l.
Proof.
  induction l as [| x l IH]; intros t Ht; simpl in Ht; [lia |].
  destruct t as [| t]; [reflexivity |].
  simpl. f_equal. apply IH. lia.
Qed.

Lemma sorted_after {A} (R : A -> A -> Prop) l1 x l2 :
  StronglySorted R (l1 ++ x :: l2) -> Forall (R x) l2.
Proof.
  induction l1 as [| y l1 IH]; simpl; intros H; inversion H; subst; auto.
Qed.

Section Degenerate.
Variable self : CatalogIndex.
Variable cand_idxs : list nat.
Variable cand_scores : list Q.
Variable top_k : Z.
Hypothesis cosines : cosine_inputs self cand_idxs cand_scores = true.

Local Abbreviation n := (length cand_idxs).
Local Abbreviation sim := (sim_to_query cand_scores).
Local Abbreviation ranking := (relevance_ranking cand_scores).
Local Abbreviation turns := (Z.to_nat (Z.min top_k (Z.of_nat n))).

Lemma ranking_length : length ranking = n.
Proof.
  unfold relevance_ranking.
  rewrite sort_desc_length, length_seq.
  now apply (cosine_scores_length self).
Qed.

Lemma ranking_In c : In c ranking <-> (c < n)%nat.
Proof.
  unfold relevance_ranking. rewrite sort_desc_In, in_seq.
  rewrite (cosine_scores_length self cand_idxs cand_scores cosines). lia.
Qed.

Lemma ranking_NoDup : NoDup ranking.
Proof.
  eapply Permutation_NoDup; [symmetry; apply relevance_ranking_perm | apply seq_NoDup].
Qed.

(** The entry of the ranking at [t] is the first greatest value of any list
    that gives the earlier entries less and the others their similarity. *)
Lemma ranking_next_is_argmax (v : list Q) t :
  length v = n ->
  (t < n)%nat ->
  (forall c, (c < n)%nat -> In c (firstn t ranking) -> nth c v 0 < sim (nth t ranking 0%nat)) ->
  (forall c, (c < n)%nat -> ~ In c (firstn t ranking) -> nth c v 0 == sim c) ->
  argmax v = nth t ranking 0%nat.
Proof.
  intros Hlen Ht Hsel Hfree.
  set (r := nth t ranking 0%nat) in *.
  pose proof ranking_length as HlenR.
  pose proof (nth_decompose 0%nat ranking t ltac:(lia)) as Hsplit. fold r in Hsplit.
  assert (r < n)%nat as Hr by (apply ranking_In, nth_In; lia).
  assert (~ In r (firstn t ranking)) as Hrfree.
  { pose proof ranking_NoDup as Hnd. rewrite Hsplit in Hnd.
    apply NoDup_remove_2 in Hnd. intros Hin. apply Hnd, in_or_app. now left. }
  assert (forall c, (c < n)%nat -> ~ In c (firstn t ranking) -> c <> r ->
                    ranks_before sim r c) as Hafter.
  { intros c Hc Hnot Hne.
    pose proof (relevance_ranking_ranked cand_scores) as Hs.
    rewrite Hsplit in Hs. apply sorted_after in Hs.
    rewrite Forall_forall in Hs. apply Hs.
    apply ranking_In in Hc. rewrite Hsplit in Hc.
    apply in_app_or in Hc. destruct Hc as [Hc | [Hc | Hc]]; auto; congruence. }
  pose proof (Hfree r Hr Hrfree) as Hvr.
  apply argmax_unique.
  - lia.
  - intros k Hk. rewrite Hlen in Hk.
    destruct (in_dec Nat.eq_dec k (firstn t ranking)) as [Hin | Hnot].
    + specialize (Hsel k Hk Hin). lra.
    + pose proof (Hfree k Hk Hnot) as Hvk.
      destruct (Nat.eq_dec k r) as [-> | Hne]; [lra |].
      destruct (Hafter k Hk Hnot Hne) as [Hlt | [Heq _]]; lra.
  - intros k Hk.
    destruct (in_dec Nat.eq_dec k (firstn t ranking)) as [Hin | Hnot].
    + specialize (Hsel k ltac:(lia) Hin). lra.
    + pose proof (Hfree k ltac:(lia) Hnot) as Hvk.
      destruct (Hafter k ltac:(lia) Hnot ltac:(lia)) as [Hlt | [_ Hpos]]; [lra | lia].
Qed.

(** With [diversity = 1] the pick after a prefix of the ranking is the next
    entry of the ranking. *)
Lemma pick_relevance t :
  (t < n)%nat ->
  mmr_pick self cand_idxs cand_scores 1 (firstn t ranking) = nth t ranking 0%nat.
Proof.
  intros Ht. pose proof ranking_length as HlenR.
  unfold mmr_pick. destruct (firstn t ranking) as [| s rest] eqn:E.
  - assert (t = 0)%nat as -> by (apply (f_equal (@length _)) in E;
                                  rewrite length_firstn in E; simpl in E; lia).
    apply ranking_next_is_argmax.
    + now apply (cosine_scores_length self).
    + assumption.
    + intros c _ [].
    + intros c _ _. reflexivity.
  - rewrite <- E. apply ranking_next_is_argmax.
    + apply mmr_score_length.
    + assumption.
    + intros c Hc Hin. rewrite mmr_score_nth by assumption.
      apply mem_nat_In in Hin. rewrite Hin.
      assert (nth t ranking 0 < n)%nat as Hr by (apply ranking_In, nth_In; lia).
      destruct (cosine_sim_to_query self cand_idxs cand_scores cosines _ Hr) as [Hlo _].
      unfold masked. lra.
    + intros c Hc Hnot. rewrite mmr_score_nth by assumption.
      apply mem_nat_not_In in Hnot. rewrite Hnot. ring.
Qed.

Lemma prefix_relevance t :
  (t <= turns)%nat ->
  firstn t (mmr_selected self cand_idxs cand_scores top_k 1) = firstn t ranking.
Proof.
  pose proof (mmr_loop_exits self cand_idxs cand_scores top_k 1) as Hlen.
  pose proof ranking_length as HlenR.
  induction t as [| t IH]; intros Ht; [reflexivity |].
  rewrite (firstn_succ_nth 0%nat) by lia.
  rewrite (firstn_succ_nth 0%nat ranking) by lia.
  rewrite mmr_selected_step by lia.
  rewrite IH by lia. f_equal. f_equal. apply pick_relevance. lia.
Qed.

Lemma selected_relevance :
  mmr_selected self cand_idxs cand_scores top_k 1 = firstn turns ranking.
Proof.
  rewrite <- prefix_relevance by lia.
  rewrite <- (mmr_loop_exits self cand_idxs cand_scores top_k 1) at 1.
  now rewrite firstn_all.
Qed.

(** With [diversity = 0] every pick after the first is an unselected
    candidate of least penalty, the first such position. *)
Lemma pick_least_similar t :
  let sel := mmr_selected self cand_idxs cand_scores top_k 0 in
  let chosen := firstn t sel in
  let j := nth t sel 0%nat in
  (1 <= t < length sel)%nat ->
  ~ In j chosen /\ (j < n)%nat
  /\ (forall c, (c < n)%nat -> ~ In c chosen ->
                penalty self cand_idxs chosen j <= penalty self cand_idxs chosen c)
  /\ (forall c, (c < j)%nat -> ~ In c chosen ->
                penalty self cand_idxs chosen j < penalty self cand_idxs chosen c).
Proof.
  intros sel chosen j Ht.
  pose proof (mmr_loop_exits self cand_idxs cand_scores top_k 0) as Hlen. fold sel in Hlen.
  assert (length chosen = t) as Hct by (unfold chosen; rewrite length_firstn; lia).
  assert (j = mmr_pick self cand_idxs cand_scores 0 chosen) as Hj
    by (unfold j, chosen, sel; apply mmr_selected_step; fold sel; lia).
  assert (0 <= 0 /\ 0 <= 1) as Hd by (split; lra).
  destruct (mmr_pick_fresh self cand_idxs cand_scores 0 cosines Hd chosen ltac:(lia))
    as [Hrange Hfresh].
  rewrite <- Hj in Hrange, Hfresh.
  split; [assumption | split; [assumption |]].
  destruct chosen as [| s rest] eqn:E; [simpl in Hct; lia |].
  rewrite <- E in *. clear E s rest.
  assert (j = argmax (mmr_score self cand_idxs cand_scores 0 chosen)) as Hj'
    by (rewrite Hj; unfold mmr_pick; destruct chosen; [simpl in Hct; lia | reflexivity]).
  set (v := mmr_score self cand_idxs cand_scores 0 chosen) in *.
  assert (length v = n) as Hv by apply mmr_score_length.
  assert (v <> []) as Hne by (intros Hnil; rewrite Hnil in Hv; simpl in Hv; lia).
  destruct (argmax_spec v Hne) as [_ [Hmax Hfirst]]. rewrite <- Hj' in Hmax, Hfirst.
  assert (nth j v 0 = 0 * sim j - (1 - 0) * penalty self cand_idxs chosen j) as Hvj.
  { unfold v. rewrite mmr_score_nth by assumption.
    apply mem_nat_not_In in Hfresh. now rewrite Hfresh. }
  split.
  - intros c Hc Hnot. specialize (Hmax c ltac:(lia)).
    unfold v in Hmax at 1. rewrite mmr_score_nth in Hmax by assumption.
    apply mem_nat_not_In in Hnot. rewrite Hnot, Hvj in Hmax. lra.
  - intros c Hc Hnot. specialize (Hfirst c Hc).
    unfold v in Hfirst at 1. rewrite mmr_score_nth in Hfirst by lia.
    apply mem_nat_not_In in Hnot. rewrite Hnot, Hvj in Hfirst. lra.
Qed.
End Degenerate.

Lemma Qmax_ge x y : x <= Py.Qmax x y /\ y <= Py.Qmax x y.
Proof.
  unfold Py.Qmax. destruct (Qle_bool x y) eqn:E.
  - apply Qle_bool_iff in E. split; lra.
  - assert (y < x) as H.
    { apply Qnot_le_lt. intros Hle. apply Qle_bool_iff in Hle. congruence. }
    split; lra.
Qed.

Lemma fold_Qmax_spec r :
  forall x,
    In (fold_left Py.Qmax r x) (x :: r)
    /\ forall y, In y (x :: r) -> y <= fold_left Py.Qmax r x.
Proof.
  induction r as [| z r IH]; intros x; simpl.
  - split; [now left |]. intros y [<- | []]. lra.
  - destruct (IH (Py.Qmax x z)) as [Hin Hle].
    destruct (Qmax_ge x z) as [Hx Hz]. split.
    + destruct Hin as [Hin | Hin]; [| now right; right].
      rewrite <- Hin. destruct (Qmax_cases x z) as [-> | ->]; auto.
    + intros y [<- | [<- | Hy]].
      * eapply Qle_trans; [exact Hx | apply Hle; now left].
      * eapply Qle_trans; [exact Hz | apply Hle; now left].
      * apply Hle. now right.
Qed.

(** The greatest value of a row is a value of the row and no value of the
    row is above it. *)
Lemma max_of_spec l :
  l <> [] -> In (max_of l) l /\ forall x, In x l -> x <= max_of l.
Proof.
  destruct l as [| x r]; [congruence | intros _]. apply fold_Qmax_spec.
Qed.

(** The penalty of a candidate is its greatest similarity to the chosen
    positions: the similarity to one of them, and not below the similarity
    to any of them. *)
Lemma penalty_greatest self cand_idxs chosen c s0 :
  In s0 chosen -> (s0 < length cand_idxs)%nat ->
  (exists s, In s chosen
             /\ penalty self cand_idxs chosen c = sim_items self cand_idxs c s)
  /\ (forall s', In s' chosen -> (s' < length cand_idxs)%nat ->
                 sim_items self cand_idxs c s' <= penalty self cand_idxs chosen c).
Proof.
  intros Hs0 Hn0. unfold penalty.
  set (cols := filter (fun s => Py.mem_nat s chosen) (seq 0 (n_cand cand_idxs))).
  assert (forall s, In s cols <-> (s < length cand_idxs)%nat /\ In s chosen) as Hcols.
  { intros s. unfold cols, n_cand. rewrite filter_In, in_seq, mem_nat_In.
    split; intros [H1 H2]; split; auto; lia. }
  assert (map (sim_items self cand_idxs c) cols <> []) as Hne.
  { assert (In s0 cols) as H by (apply Hcols; auto).
    destruct cols; [destruct H | discriminate]. }
  destruct (max_of_spec _ Hne) as [Hin Hle]. split.
  - apply in_map_iff in Hin. destruct Hin as [s [Hs Hin]].
    exists s. split; [now apply Hcols in Hin | now symmetry].
  - intros s' Hs' Hn'. apply Hle, in_map. apply Hcols. auto.
Qed.



(* ================================================================== *)
(** ** The attribute booster *)

Lemma boost_adjusted self query_emb f idx :
  boost self query_emb (Some f) idx == adjusted_score self query_emb f idx.
Proof.
  unfold boost, adjusted_score, bonus, category_matches.
  destruct (Py.truthy (f_brand f) && _);
    destruct (Py.truthy (f_category f) && _);
    destruct (Py.truthy (f_tags_contains f) && _);
    destruct (f_price_max f) as [mx |];
    try destruct (Qle_bool (price (row (ci_df self) idx)) mx);
    ring.
Qed.


(** Without a filter object the score is the similarity alone. *)
Lemma boost_no_filters self query_emb idx :
  boost self query_emb None idx = dot query_emb (embedding self idx).
Proof. reflexivity. Qed.

(** [_search] is the raw search, MMR at the default diversity, and the
    booster. *)
Lemma search_ranks_mmr_picks self query_emb top_k filters cand_scores cand_idxs u rest :
  _raw_search self query_emb (Z.max (top_k * 5) 20) = Some (cand_scores, cand_idxs) ->
  valid_unique cand_scores cand_idxs = u :: rest ->
  _search self query_emb top_k filters
  = Some (rank_picks self query_emb filters top_k
            (_mmr self (map fst (u :: rest)) (map snd (u :: rest)) top_k default_diversity)).
Proof.
  intros Hraw Huniq. unfold _search. now rewrite Hraw, Huniq.
Qed.

(* ================================================================== *)
(** * Further properties *)

(* ================================================================== *)
(** ** More on the relaxation pipeline *)

Lemma Subseq_refl {A} (l : list A) : Subseq l l.
Proof. induction l; [constructor | now apply Subseq_keep]. Qed.

Lemma Subseq_trans {A} (l m n : list A) : Subseq l m -> Subseq m n -> Subseq l n.
Proof.
  intros Hlm Hmn. revert l Hlm.
  induction Hmn as [| x m n Hmn IH | x m n Hmn IH]; intros l Hlm.
  - assumption.
  - apply Subseq_skip. now apply IH.
  - inversion Hlm; subst.
    + apply Subseq_skip. now apply IH.
    + apply Subseq_keep. now apply IH.
Qed.

Lemma slice_to_length {A} (k : Z) (xs : list A) :
  (length (Py.slice_to k xs) <= length xs)%nat.
Proof.
  destruct (slice_to_firstn k xs) as [n ->]. rewrite length_firstn. lia.
Qed.

Lemma slice_to_bound {A} (k : Z) (xs : list A) :
  (0 <= k)%Z -> (Z.of_nat (length (Py.slice_to k xs)) <= k)%Z.
Proof.
  intros Hk. unfold Py.slice_to. destruct (Z.leb_spec 0 k); [| lia].
  rewrite length_firstn. lia.
Qed.

Lemma slice_to_all {A} (k : Z) (xs : list A) :
  (Z.of_nat (length xs) <= k)%Z -> Py.slice_to k xs = xs.
Proof.
  intros Hk. unfold Py.slice_to. destruct (Z.leb_spec 0 k); [| lia].
  apply firstn_all2. lia.
Qed.

Lemma slice_to_nil {A} (k : Z) : Py.slice_to k (@nil A) = [].
Proof. unfold Py.slice_to. now destruct (0 <=? k)%Z; rewrite firstn_nil. Qed.

Section PipelineBounds.
Variable df : DataFrame.
Variable filters : FilterSpec.
Variable top_k : Z.
Variable min_unique : Z.

Lemma add_unique_length seed pool :
  (Z.of_nat (length (add_unique df top_k seed pool))
   <= Z.max (Z.of_nat (length seed)) top_k)%Z.
Proof.
  rewrite add_unique_fresh, length_app, length_firstn. lia.
Qed.

Lemma add_unique_extends seed pool :
  exists ext,
    add_unique df top_k seed pool = seed ++ ext
    /\ incl ext pool
    /\ (ext <> [] -> (Z.of_nat (length seed) < top_k)%Z).
Proof.
  rewrite add_unique_fresh. eexists. split; [reflexivity |]. split.
  - intros i Hi. apply In_firstn in Hi. eapply fresh_by_key_incl; eauto.
  - intros Hne.
    destruct (Z.to_nat (top_k - Z.of_nat (length seed))) eqn:E; [| lia].
    simpl in Hne. congruence.
Qed.

Lemma stage1_length allowed cand :
  (0 <= top_k)%Z ->
  (Z.of_nat (length (stage1 df top_k allowed cand)) <= top_k)%Z.
Proof.
  intros Hk. unfold stage1.
  pose proof (add_unique_length [] (primary_all df allowed cand)) as H.
  simpl in H. lia.
Qed.

Lemma stage2_length cand chosen :
  (Z.of_nat (length chosen) <= top_k)%Z ->
  (Z.of_nat (length (stage2 df filters top_k cand chosen)) <= top_k)%Z.
Proof.
  intros H. unfold stage2. destruct (_ && _); [| assumption].
  pose proof (add_unique_length chosen (cat_pool df filters cand chosen)). lia.
Qed.

Lemma stage3_length cand chosen :
  (Z.of_nat (length chosen) <= top_k)%Z ->
  (Z.of_nat (length (stage3 df filters top_k cand chosen)) <= top_k)%Z.
Proof.
  intros H. unfold stage3. destruct (_ && _); [| assumption].
  pose proof (add_unique_length chosen (fill_pool df filters cand chosen)). lia.
Qed.

Lemma staged_length allowed cand :
  (0 <= top_k)%Z ->
  (Z.of_nat (length (staged df filters top_k allowed cand)) <= top_k)%Z.
Proof.
  intros Hk. unfold staged. now apply stage3_length, stage2_length, stage1_length.
Qed.

Lemma override_length cand :
  (0 <= top_k)%Z ->
  (Z.of_nat (length (override df top_k min_unique cand)) <= top_k)%Z.
Proof.
  intros Hk. unfold override.
  pose proof (slice_to_length (Z.max min_unique top_k) (add_unique df top_k [] cand)).
  pose proof (add_unique_length [] cand) as H'. simpl in H'. lia.
Qed.

Lemma stage1_incl allowed cand : incl (stage1 df top_k allowed cand) cand.
Proof.
  intros i Hi. unfold stage1 in Hi. apply add_unique_In in Hi.
  destruct Hi as [[] | Hi]. unfold primary_all in Hi. now apply filter_In in Hi.
Qed.

Lemma stage2_incl cand chosen :
  incl chosen cand -> incl (stage2 df filters top_k cand chosen) cand.
Proof.
  intros H i Hi. unfold stage2 in Hi. destruct (_ && _); [| now apply H].
  apply add_unique_In in Hi. destruct Hi as [Hi | Hi]; [now apply H |].
  unfold cat_pool in Hi. now apply filter_In in Hi.
Qed.

Lemma stage3_incl cand chosen :
  incl chosen cand -> incl (stage3 df filters top_k cand chosen) cand.
Proof.
  intros H i Hi. unfold stage3 in Hi. destruct (_ && _); [| now apply H].
  apply add_unique_In in Hi. destruct Hi as [Hi | Hi]; [now apply H |].
  unfold fill_pool in Hi. now apply filter_In in Hi.
Qed.

Lemma staged_incl allowed cand : incl (staged df filters top_k allowed cand) cand.
Proof. unfold staged. apply stage3_incl, stage2_incl, stage1_incl. Qed.

Lemma override_incl cand : incl (override df top_k min_unique cand) cand.
Proof.
  intros i Hi. unfold override in Hi. apply In_slice_to in Hi.
  apply add_unique_In in Hi. now destruct Hi as [[] | Hi].
Qed.

Lemma pick_with_filters_incl scored chosen :
  _pick_with_filters df filters top_k min_unique scored = Some chosen ->
  incl chosen (map fst scored).
Proof.
  intros H. apply pick_with_filters_some in H. destruct H as [allowed [_ [_ ->]]].
  destruct (override_fires _ _ _); [apply override_incl | apply staged_incl].
Qed.

Lemma pick_with_filters_length scored chosen :
  _pick_with_filters df filters top_k min_unique scored = Some chosen ->
  (0 <= top_k)%Z ->
  (Z.of_nat (length chosen) <= top_k)%Z.
Proof.
  intros H Hk. apply pick_with_filters_some in H. destruct H as [allowed [_ [_ ->]]].
  destruct (override_fires _ _ _); [now apply override_length | now apply staged_length].
Qed.
End PipelineBounds.

(** X1. A call of the pipeline with a [top_k] that is not negative returns at
    most [top_k] rows, each one a candidate it was given and none twice;
    the override does not lift the bound. *)
Theorem pick_with_filters_bounded_distinct
        (df : DataFrame) (filters : FilterSpec) (top_k min_unique : Z)
        (scored : list (nat * Q)) (chosen : list nat) :
  _pick_with_filters df filters top_k min_unique scored = Some chosen ->
  (0 <= top_k)%Z ->
  (Z.of_nat (length chosen) <= top_k)%Z
  /\ NoDup chosen
  /\ incl chosen (map fst scored).
Proof.
  intros H Hk. split; [| split].
  - eapply pick_with_filters_length; eauto.
  - eapply NoDup_map_inv. eapply pick_with_filters_distinct_keys; eauto.
  - eapply pick_with_filters_incl; eauto.
Qed.

Lemma pick_with_filters_bounded_distinct_witness :
  _pick_with_filters Sample.make_df SampleFilters.nike_tshirt 2 default_min_unique
    SampleQuery.scored = Some [0%nat; 1%nat]
  /\ (Z.of_nat (length [0%nat; 1%nat]) <= 2)%Z
  /\ NoDup [0%nat; 1%nat]
  /\ incl [0%nat; 1%nat] (map fst SampleQuery.scored).
Proof.
  assert (_pick_with_filters Sample.make_df SampleFilters.nike_tshirt 2
            default_min_unique SampleQuery.scored = Some [0%nat; 1%nat]) as H
    by (vm_compute; reflexivity).
  split; [exact H |].
  apply (pick_with_filters_bounded_distinct
           Sample.make_df SampleFilters.nike_tshirt 2 default_min_unique
           SampleQuery.scored [0%nat; 1%nat] H).
  lia.
Defined.

(** X2. Relaxation only appends: what stage 1 chose is the head of what stage
    2 returns, and that is the head of the staged list; what a stage appends
    are candidates, and a stage appends nothing once [top_k] entries are
    chosen. *)
Theorem relaxation_stages_append
        (df : DataFrame) (filters : FilterSpec) (top_k : Z)
        (allowed : LabelledFrame) (cand : list nat) :
  let s1 := stage1 df top_k allowed cand in
  let s2 := stage2 df filters top_k cand s1 in
  let s3 := staged df filters top_k allowed cand in
  exists ext2 ext3,
    s2 = s1 ++ ext2
    /\ s3 = s1 ++ ext2 ++ ext3
    /\ incl ext2 cand /\ incl ext3 cand
    /\ (ext2 = [] \/ (Z.of_nat (length s1) < top_k)%Z)
    /\ (ext3 = [] \/ (Z.of_nat (length s2) < top_k)%Z).
Proof.
  intros s1 s2 s3.
  assert (exists ext2, s2 = s1 ++ ext2 /\ incl ext2 cand
                       /\ (ext2 <> [] -> (Z.of_nat (length s1) < top_k)%Z))
    as [ext2 [E2 [I2 L2]]].
  { unfold s2, stage2. destruct (_ && _).
    - destruct (add_unique_extends df top_k s1 (cat_pool df filters cand s1))
        as [ext [E [I L]]].
      exists ext. split; [assumption |]. split; [| assumption].
      intros i Hi. apply I in Hi. unfold cat_pool in Hi. now apply filter_In in Hi.
    - exists []. rewrite app_nil_r. repeat split; [intros i [] | congruence]. }
  assert (exists ext3, s3 = s2 ++ ext3 /\ incl ext3 cand
                       /\ (ext3 <> [] -> (Z.of_nat (length s2) < top_k)%Z))
    as [ext3 [E3 [I3 L3]]].
  { unfold s3, staged. fold s1. fold s2. unfold stage3. destruct (_ && _).
    - destruct (add_unique_extends df top_k s2 (fill_pool df filters cand s2))
        as [ext [E [I L]]].
      exists ext. split; [assumption |]. split; [| assumption].
      intros i Hi. apply I in Hi. unfold fill_pool in Hi. now apply filter_In in Hi.
    - exists []. rewrite app_nil_r. repeat split; [intros i [] | congruence]. }
  exists ext2, ext3. split; [exact E2 |]. split.
  - rewrite E3, E2. symmetry. apply app_assoc.
  - repeat split; try assumption.
    + destruct ext2; [now left | right; apply L2; discriminate].
    + destruct ext3; [now left | right; apply L3; discriminate].
Qed.

Lemma within_price_brand_keeps df f i :
  within_price_brand df f i
  = keep_price_min f (row df i) && keep_price_max f (row df i)
    && keep_brand f (row df i).
Proof.
  unfold within_price_brand, keep_price_min, keep_price_max, keep_brand, Py.Qltb.
  destruct (f_price_min f) as [lo |], (f_price_max f) as [hi |],
           (Py.truthy (f_brand f));
    repeat match goal with
           | |- context [Qle_bool ?a ?b] => destruct (Qle_bool a b)
           | |- context [String.eqb ?a ?b] => destruct (String.eqb a b)
           end; reflexivity.
Qed.

Section RelaxationKeeps.
Variable df : DataFrame.
Variable filters : FilterSpec.
Variable top_k : Z.
Hypothesis unique_ids : NoDup (map id df).

Local Abbreviation kept i :=
  (keep_brand filters (row df i) = true
   /\ keep_price_min filters (row df i) = true
   /\ keep_price_max filters (row df i) = true).

Lemma within_price_brand_kept i : within_price_brand df filters i = true -> kept i.
Proof.
  rewrite within_price_brand_keeps. intros H.
  apply andb_true_iff in H. destruct H as [H Hb].
  apply andb_true_iff in H. tauto.
Qed.

Lemma staged_price_brand allowed cand i :
  apply_filters (labelled df) filters = Some allowed ->
  Forall (fun i => (i < length df)%nat) cand ->
  In i (staged df filters top_k allowed cand) ->
  kept i.
Proof.
  intros Hallowed Hvalid.
  assert (forall i, In i (stage1 df top_k allowed cand) -> kept i) as H1.
  { intros j Hj. unfold stage1 in Hj. apply add_unique_In in Hj.
    destruct Hj as [[] | Hj].
    unfold primary_all in Hj. apply filter_In in Hj. destruct Hj as [Hc Hmem].
    rewrite Forall_forall in Hvalid.
    pose proof (allowed_id_row df filters allowed j Hallowed unique_ids
                               (Hvalid j Hc) Hmem) as Hrow.
    pose proof (In_apply_filters _ _ _ _ Hallowed Hrow) as Hkeep.
    simpl in Hkeep. tauto. }
  assert (forall i, In i (stage2 df filters top_k cand (stage1 df top_k allowed cand))
                    -> kept i) as H2.
  { intros j. unfold stage2. destruct (_ && _); [| now apply H1].
    intros Hj. apply add_unique_In in Hj. destruct Hj as [Hj | Hj]; [now apply H1 |].
    unfold cat_pool in Hj. apply filter_In in Hj. destruct Hj as [_ Hj].
    apply andb_true_iff in Hj. now apply within_price_brand_kept. }
  unfold staged, stage3. destruct (_ && _); [| now apply H2].
  intros Hi. apply add_unique_In in Hi. destruct Hi as [Hi | Hi]; [now apply H2 |].
  unfold fill_pool in Hi. apply filter_In in Hi. destruct Hi as [_ Hi].
  apply andb_true_iff in Hi. now apply within_price_brand_kept.
Qed.
End RelaxationKeeps.

(** X3. Relaxation never gives up the price bounds or the brand: over a
    catalog with unique ids, when the minimum-unique override does not fire,
    every row the pipeline returns passes the brand, minimum-price and
    maximum-price tests of [apply_filters], whichever stage added it. *)
Theorem pick_with_filters_keeps_price_and_brand
        (df : DataFrame) (filters : FilterSpec) (top_k min_unique : Z)
        (scored : list (nat * Q)) (chosen : list nat)
        (allowed : LabelledFrame) (i : nat) :
  NoDup (map id df) ->
  _pick_with_filters df filters top_k min_unique scored = Some chosen ->
  apply_filters (labelled df) filters = Some allowed ->
  override_fires min_unique (map fst scored)
                 (staged df filters top_k allowed (map fst scored)) = false ->
  In i chosen ->
  keep_brand filters (row df i) = true
  /\ keep_price_min filters (row df i) = true
  /\ keep_price_max filters (row df i) = true.
Proof.
  intros Hids H Hallowed Hquiet Hi. apply pick_with_filters_some in H.
  destruct H as [allowed' [Hallowed' [Hvalid ->]]].
  assert (allowed' = allowed) as -> by congruence.
  rewrite Hquiet in Hi. eapply staged_price_brand; eauto.
Qed.

Lemma pick_with_filters_keeps_price_and_brand_witness :
  keep_brand SampleFilters.price_26_46 (row Sample.make_df 1) = true
  /\ keep_price_min SampleFilters.price_26_46 (row Sample.make_df 1) = true
  /\ keep_price_max SampleFilters.price_26_46 (row Sample.make_df 1) = true.
Proof.
  apply (pick_with_filters_keeps_price_and_brand
           Sample.make_df SampleFilters.price_26_46 8 default_min_unique
           SampleQuery.scored [1%nat; 2%nat]
           [(1%nat, Sample.adidas_tee); (2%nat, Sample.nike_hoodie)] 1%nat).
  - repeat constructor; simpl; intuition discriminate.
  - vm_compute. reflexivity.
  - vm_compute. reflexivity.
  - vm_compute. reflexivity.
  - simpl. tauto.
Defined.

Lemma apply_filters_no_filter rows f :
  any_filter f = false -> apply_filters rows f = Some rows.
Proof.
  unfold any_filter, apply_filters. intros H.
  repeat (apply orb_false_iff in H; destruct H as [H ?]).
  destruct (f_price_min f); [discriminate |].
  destruct (f_price_max f); [discriminate |].
  rewrite H. now repeat match goal with E : _ = false |- _ => rewrite E; clear E end.
Qed.

Lemma In_labelled_nth df i r :
  nth_error df i = Some r -> In (i, r) (labelled df).
Proof.
  unfold labelled. change i with (0 + i)%nat at 2. generalize 0%nat. revert i.
  induction df as [| x df IH]; intros [| i] s; simpl; try discriminate.
  - intros [= ->]. left. f_equal. lia.
  - intros H. right. replace (s + S i)%nat with (S s + i)%nat by lia. now apply IH.
Qed.

Lemma filter_all {A} (p : A -> bool) (l : list A) :
  (forall x, In x l -> p x = true) -> filter p l = l.
Proof.
  induction l as [| x l IH]; intros H; simpl; [reflexivity |].
  rewrite (H x) by now left. f_equal. apply IH. intros y Hy. apply H. now right.
Qed.

Lemma fresh_by_key_none df pool :
  forall seen,
    (forall i, In i pool -> In (dedup_key df i) seen) ->
    fresh_by_key df seen pool = [].
Proof.
  induction pool as [| x pool IH]; intros seen H; simpl; [reflexivity |].
  assert (mem_key (dedup_key df x) seen = true) as ->
    by (apply mem_key_In, H; now left).
  apply IH. intros i Hi. apply H. now right.
Qed.

Lemma firstn_short {A} (n : nat) (l : list A) :
  (length (firstn n l) < n)%nat -> firstn n l = l.
Proof.
  intros H. rewrite length_firstn in H. apply firstn_all2. lia.
Qed.

(** X4. A request without any filter gets the candidates in the order of
    their scores, one per dedup key (the first of each), cut to [top_k];
    no stage and no override adds or drops anything. *)
Theorem pick_with_filters_no_filter
        (df : DataFrame) (filters : FilterSpec) (top_k min_unique : Z)
        (scored : list (nat * Q)) :
  any_filter filters = false ->
  Forall (fun i => (i < length df)%nat) (map fst scored) ->
  _pick_with_filters df filters top_k min_unique scored
  = Some (firstn (Z.to_nat top_k) (fresh_by_key df [] (map fst scored))).
Proof.
  intros Hnone Hvalid. unfold _pick_with_filters.
  rewrite (apply_filters_no_filter _ _ Hnone). cbv beta iota.
  set (cand := map fst scored) in *.
  assert (forallb (fun i => (i <? length df)%nat) cand = true) as ->.
  { apply forallb_forall. intros i Hi. rewrite Forall_forall in Hvalid.
    apply Nat.ltb_lt. now apply Hvalid. }
  set (base := firstn (Z.to_nat top_k) (fresh_by_key df [] cand)).
  assert (add_unique df top_k [] cand = base) as Hall.
  { rewrite add_unique_fresh. simpl. unfold base. now rewrite Z.sub_0_r. }
  assert (stage1 df top_k (labelled df) cand = base) as H1.
  { unfold stage1, primary_all. rewrite filter_all; [exact Hall |].
    intros i Hi. apply mem_str_In. rewrite Forall_forall in Hvalid.
    apply in_map_iff. exists (i, row df i). split; [reflexivity |].
    apply In_labelled_nth, nth_error_row. now apply Hvalid. }
  assert (Py.truthy (f_category filters) = false) as Hcat.
  { unfold any_filter in Hnone.
    repeat (apply orb_false_iff in Hnone; destruct Hnone as [Hnone ?]).
    assumption. }
  assert (staged df filters top_k (labelled df) cand = base) as Hst.
  { unfold staged, stage2. rewrite H1, Hcat, andb_false_r.
    unfold stage3. destruct (_ && _) eqn:E; [| reflexivity].
    apply andb_true_iff in E. destruct E as [E _]. apply Z.ltb_lt in E.
    rewrite add_unique_fresh.
    assert (base = fresh_by_key df [] cand) as Hfull
      by (apply firstn_short; unfold base in *; lia).
    rewrite fresh_by_key_none; [now rewrite firstn_nil, app_nil_r |].
    intros i Hi. unfold fill_pool in Hi. apply filter_In in Hi.
    destruct Hi as [Hi _].
    destruct (fresh_by_key_covers df cand [] i Hi) as [[] | Hc].
    now rewrite Hfull. }
  rewrite Hst. destruct (override_fires _ _ _); [| reflexivity].
  unfold override. rewrite Hall. f_equal.
  destruct (Z.leb_spec 0 top_k) as [Hk | Hk].
  - apply slice_to_all. unfold base. rewrite length_firstn. lia.
  - unfold base. replace (Z.to_nat top_k) with 0%nat by lia. simpl.
    unfold Py.slice_to. now destruct (0 <=? _)%Z; rewrite firstn_nil.
Qed.

Lemma pick_with_filters_no_filter_witness :
  _pick_with_filters Sample.make_df no_filters 2 default_min_unique SampleQuery.scored
  = Some (firstn (Z.to_nat 2) (fresh_by_key Sample.make_df [] (map fst SampleQuery.scored))).
Proof.
  apply (pick_with_filters_no_filter Sample.make_df no_filters 2 default_min_unique
                                     SampleQuery.scored).
  - reflexivity.
  - simpl. repeat constructor.
Defined.

(* ================================================================== *)
(** ** More on [apply_filters] and the keyword scorer *)

Lemma Subseq_map {A B} (f : A -> B) (l m : list A) :
  Subseq l m -> Subseq (map f l) (map f m).
Proof. induction 1; simpl; now constructor. Qed.

Lemma Subseq_NoDup {A} (l m : list A) : Subseq l m -> NoDup m -> NoDup l.
Proof.
  intros Hs Hm. rewrite <- (map_id l). apply (Subseq_NoDup_map (fun x => x) l m Hs).
  now rewrite map_id.
Qed.

Lemma Subseq_length {A} (l m : list A) : Subseq l m -> (length l <= length m)%nat.
Proof. induction 1; simpl; lia. Qed.

Lemma on_rows_subseq k out : Subseq (on_rows k out) out.
Proof. apply Subseq_filter. Qed.

Lemma apply_filters_subseq rows f out :
  apply_filters rows f = Some out -> Subseq out rows.
Proof.
  unfold apply_filters, str_contains. intros H.
  repeat match type of H with
         | context [if ?c then _ else _] => destruct c; try discriminate
         | context [match ?c with Some _ => _ | None => _ end] =>
             destruct c; try discriminate
         end.
  all: injection H as <-.
  all: repeat (eapply Subseq_trans; [apply on_rows_subseq |]); apply Subseq_refl.
Qed.

Lemma map_fst_labelled df : map fst (labelled df) = seq 0 (length df).
Proof.
  unfold labelled. generalize 0%nat.
  induction df as [| x df IH]; intros s; simpl; [reflexivity |].
  now rewrite IH.
Qed.

Lemma labelled_NoDup df : NoDup (map fst (labelled df)).
Proof. rewrite map_fst_labelled. apply seq_NoDup. Qed.

Lemma keep_all_no_filter f p :
  any_filter f = false ->
  keep_brand f p = true /\ keep_category f p = true
  /\ keep_price_min f p = true /\ keep_price_max f p = true
  /\ keep_tags f p = true.
Proof.
  unfold any_filter, keep_brand, keep_category, keep_price_min, keep_price_max,
    keep_tags.
  intros H. repeat (apply orb_false_iff in H; destruct H as [H ?]).
  destruct (f_price_min f); [discriminate |].
  destruct (f_price_max f); [discriminate |].
  rewrite H. repeat match goal with E : _ = false |- _ => rewrite E; clear E end.
  tauto.
Qed.

Lemma fallback_cand_keeps df filters cand i r :
  fallback_cand df filters = Some cand ->
  In (i, r) cand ->
  nth_error df i = Some r
  /\ keep_brand filters r = true /\ keep_category filters r = true
  /\ keep_price_min filters r = true /\ keep_price_max filters r = true
  /\ keep_tags filters r = true.
Proof.
  unfold fallback_cand. destruct (any_filter filters) eqn:E.
  - intros Hc H. pose proof (In_apply_filters _ _ _ _ Hc H) as Hkeep.
    simpl in Hkeep. destruct Hkeep as [Hin Hkeep].
    split; [now apply In_labelled | exact Hkeep].
  - intros [= <-] H. split; [now apply In_labelled |].
    now apply keep_all_no_filter.
Qed.

Lemma fallback_cand_subseq df filters cand :
  fallback_cand df filters = Some cand -> Subseq cand (labelled df).
Proof.
  unfold fallback_cand. destruct (any_filter filters).
  - apply apply_filters_subseq.
  - intros [= <-]. apply Subseq_refl.
Qed.

Lemma fallback_scores_inv filters text token_set cand i s :
  In (i, s) (fallback_scores filters text token_set cand) ->
  exists r, In (i, r) cand /\ fallback_row filters text token_set r = Some s.
Proof.
  induction cand as [| [j x] cand IH]; simpl; [tauto |].
  destruct (fallback_row filters text token_set x) eqn:E.
  - intros [[= -> ->] | H].
    + exists x. split; [now left | assumption].
    + destruct (IH H) as [r [Hr Hs]]. exists r. split; [now right | assumption].
  - intros H. destruct (IH H) as [r [Hr Hs]]. exists r. split; [now right | assumption].
Qed.

Lemma fallback_scores_subseq filters text token_set cand :
  Subseq (map fst (fallback_scores filters text token_set cand)) (map fst cand).
Proof.
  induction cand as [| [j x] cand IH]; simpl; [constructor |].
  destruct (fallback_row filters text token_set x); simpl.
  - now apply Subseq_keep.
  - now apply Subseq_skip.
Qed.

Lemma fallback_row_inv filters text token_set r s :
  fallback_row filters text token_set r = Some s ->
  (Py.truthy (f_category filters) = true ->
   category_matches (opt_str (f_category filters)) r = true)
  /\ 0 < s
  /\ s == match f_price_max filters with
          | Some mx => keyword_score text token_set r
                       + 1.5 * (price r / Py.Qmax mx eps)
          | None => keyword_score text token_set r
          end.
Proof.
  unfold fallback_row, category_matches.
  destruct (match f_price_min filters with Some _ => _ | None => _ end);
    [discriminate |].
  destruct (match f_price_max filters with Some hi => Py.Qltb hi _ | None => _ end);
    [discriminate |].
  destruct (Py.truthy (f_category filters)); simpl.
  - destruct (Py.str_in _ _); simpl; [| discriminate].
    destruct (Py.Qltb 0 _) eqn:E; [| discriminate].
    intros [= <-]. apply Qltb_lt in E. split; [reflexivity |]. split; [exact E |].
    destruct (f_price_max filters); reflexivity.
  - destruct (Py.Qltb 0 _) eqn:E; [| discriminate].
    intros [= <-]. apply Qltb_lt in E. split; [discriminate |]. split; [exact E |].
    destruct (f_price_max filters); reflexivity.
Qed.

Lemma keyword_fallback_some df filters top_k user_text idxs :
  _keyword_fallback df filters top_k user_text = Some idxs ->
  exists cand,
    fallback_cand df filters = Some cand
    /\ idxs = map fst (Py.slice_to top_k
                (sort_desc snd
                   (fallback_scores filters (Py.lower user_text)
                      (nodup string_dec (tokens_of (Py.lower user_text))) cand))).
Proof.
  unfold _keyword_fallback. destruct (fallback_cand df filters) as [cand |];
    [| discriminate].
  intros [= <-]. eauto.
Qed.

Lemma keyword_fallback_In df filters top_k user_text idxs i :
  _keyword_fallback df filters top_k user_text = Some idxs ->
  In i idxs ->
  exists cand s,
    fallback_cand df filters = Some cand
    /\ In (i, row df i) cand
    /\ (i < length df)%nat
    /\ fallback_row filters (Py.lower user_text)
         (nodup string_dec (tokens_of (Py.lower user_text))) (row df i) = Some s.
Proof.
  intros H Hi. apply keyword_fallback_some in H. destruct H as [cand [Hc ->]].
  apply in_map_iff in Hi. destruct Hi as [[j s] [Hj Hin]]. simpl in Hj. subst j.
  apply In_slice_to, sort_desc_In, fallback_scores_inv in Hin.
  destruct Hin as [r [Hr Hs]].
  destruct (fallback_cand_keeps _ _ _ _ _ Hc Hr) as [Hnth _].
  pose proof (row_nth_error _ _ _ Hnth) as Hrow. subst r.
  exists cand, s. repeat split; try assumption.
  apply nth_error_Some. congruence.
Qed.

Lemma keyword_fallback_NoDup df filters top_k user_text idxs :
  _keyword_fallback df filters top_k user_text = Some idxs -> NoDup idxs.
Proof.
  intros H. apply keyword_fallback_some in H. destruct H as [cand [Hc ->]].
  destruct (slice_to_firstn top_k
              (sort_desc snd
                 (fallback_scores filters (Py.lower user_text)
                    (nodup string_dec (tokens_of (Py.lower user_text))) cand)))
    as [n ->].
  rewrite <- firstn_map. apply NoDup_firstn.
  eapply Permutation_NoDup.
  - apply Permutation_map. symmetry. apply sort_desc_perm.
  - eapply Subseq_NoDup; [apply fallback_scores_subseq |].
    eapply (Subseq_NoDup_map fst).
    + eapply fallback_cand_subseq; eauto.
    + apply labelled_NoDup.
Qed.

Lemma keyword_fallback_length df filters top_k user_text idxs :
  _keyword_fallback df filters top_k user_text = Some idxs ->
  (0 <= top_k)%Z -> (Z.of_nat (length idxs) <= top_k)%Z.
Proof.
  intros H Hk. apply keyword_fallback_some in H. destruct H as [cand [_ ->]].
  rewrite length_map. now apply slice_to_bound.
Qed.

(** X5. What the keyword fallback returns: positions inside the catalog, none
    twice, at most [top_k] of them for a [top_k] that is not negative; every
    returned row passes each test of [apply_filters] that the filter sets,
    and its category contains the asked category as a substring. *)
Theorem keyword_fallback_admissible
        (df : DataFrame) (filters : FilterSpec) (top_k : Z) (user_text : string)
        (idxs : list nat) :
  _keyword_fallback df filters top_k user_text = Some idxs ->
  NoDup idxs
  /\ ((0 <= top_k)%Z -> (Z.of_nat (length idxs) <= top_k)%Z)
  /\ forall i, In i idxs ->
       (i < length df)%nat
       /\ keep_brand filters (row df i) = true
       /\ keep_category filters (row df i) = true
       /\ keep_price_min filters (row df i) = true
       /\ keep_price_max filters (row df i) = true
       /\ keep_tags filters (row df i) = true
       /\ (Py.truthy (f_category filters) = true ->
           category_matches (opt_str (f_category filters)) (row df i) = true).
Proof.
  intros H. split; [eapply keyword_fallback_NoDup; eauto |].
  split; [eapply keyword_fallback_length; eauto |].
  intros i Hi.
  destruct (keyword_fallback_In _ _ _ _ _ _ H Hi) as [cand [s [Hc [Hin [Hlt Hs]]]]].
  destruct (fallback_cand_keeps _ _ _ _ _ Hc Hin) as [_ Hkeep].
  apply fallback_row_inv in Hs. destruct Hs as [Hcat _].
  tauto.
Qed.

Lemma keyword_fallback_admissible_witness :
  NoDup [0%nat]
  /\ ((0 <= 8)%Z -> (Z.of_nat (length [0%nat]) <= 8)%Z)
  /\ forall i, In i [0%nat] ->
       (i < length Sample.make_df)%nat
       /\ keep_brand SampleFilters.nike_tshirt (row Sample.make_df i) = true
       /\ keep_category SampleFilters.nike_tshirt (row Sample.make_df i) = true
       /\ keep_price_min SampleFilters.nike_tshirt (row Sample.make_df i) = true
       /\ keep_price_max SampleFilters.nike_tshirt (row Sample.make_df i) = true
       /\ keep_tags SampleFilters.nike_tshirt (row Sample.make_df i) = true
       /\ (Py.truthy (f_category SampleFilters.nike_tshirt) = true ->
           category_matches (opt_str (f_category SampleFilters.nike_tshirt))
                            (row Sample.make_df i) = true).
Proof.
  apply (keyword_fallback_admissible Sample.make_df SampleFilters.nike_tshirt 8
                                     "nike tee" [0%nat]).
  vm_compute. reflexivity.
Defined.

Section CondSumNone.
Context {T : Type} (hit : T -> bool) (w : Q).

Lemma cond_sum_none l :
  (forall x, In x l -> hit x = false) ->
  forall s0, fold_left (fun (s : Q) (tok : T) => if hit tok then s + w else s) l s0 = s0.
Proof.
  induction l as [| x l IH]; intros H s0; simpl; [reflexivity |].
  rewrite (H x) by now left. apply IH. intros y Hy. apply H. now right.
Qed.
End CondSumNone.

Lemma keyword_score_zero text token_set r :
  brand_signal text r = false ->
  existsb (token_signal r) token_set = false ->
  keyword_score text token_set r = 0.
Proof.
  unfold brand_signal, keyword_score. intros Hb Ht. rewrite Hb.
  assert (forall tok, In tok token_set -> token_signal r tok = false) as Hnone.
  { intros tok Hin. destruct (token_signal r tok) eqn:E; [| reflexivity].
    assert (existsb (token_signal r) token_set = true) as Hex
      by (apply existsb_exists; eauto).
    congruence. }
  rewrite (cond_sum_none
             (fun tok => nonempty tok
                         && (Py.str_in tok (Py.lower (title r))
                             || Py.str_in tok (Py.lower (description r)))) 1).
  - apply (cond_sum_none
             (fun tok => nonempty tok && Py.str_in tok (Py.lower (tags r))) 2).
    intros tok Hin. pose proof (Hnone tok Hin) as H. unfold token_signal in H.
    destruct (nonempty tok); [| reflexivity]. simpl in *.
    repeat (apply orb_false_iff in H; destruct H as [H ?]). assumption.
  - intros tok Hin. pose proof (Hnone tok Hin) as H. unfold token_signal in H.
    destruct (nonempty tok); [| reflexivity]. simpl in *.
    repeat (apply orb_false_iff in H; destruct H as [H ?]).
    apply orb_false_iff. split; assumption.
Qed.

(** X6. Without a price ceiling the keyword fallback returns matching rows
    only: each returned row has its brand named in the lower-cased query, or
    a token of the query inside its tags, title or description. *)
Theorem keyword_fallback_only_matching_rows
        (df : DataFrame) (filters : FilterSpec) (top_k : Z) (user_text : string)
        (idxs : list nat) (i : nat) :
  _keyword_fallback df filters top_k user_text = Some idxs ->
  f_price_max filters = None ->
  In i idxs ->
  brand_signal (Py.lower user_text) (row df i) = true
  \/ exists tok,
       In tok (tokens_of (Py.lower user_text))
       /\ token_signal (row df i) tok = true.
Proof.
  intros H Hmax Hi.
  destruct (keyword_fallback_In _ _ _ _ _ _ H Hi) as [cand [s [_ [_ [_ Hs]]]]].
  apply fallback_row_inv in Hs. destruct Hs as [_ [Hpos Hval]].
  rewrite Hmax in Hval.
  destruct (brand_signal (Py.lower user_text) (row df i)) eqn:Eb; [now left | right].
  destruct (existsb (token_signal (row df i))
                    (nodup string_dec (tokens_of (Py.lower user_text)))) eqn:Et.
  - apply existsb_exists in Et. destruct Et as [tok [Hin Htok]].
    exists tok. split; [| assumption]. eapply nodup_In; eauto.
  - rewrite (keyword_score_zero _ _ _ Eb Et) in Hval. lra.
Qed.

Lemma keyword_fallback_only_matching_rows_witness :
  brand_signal (Py.lower "warm hoodie") (row Sample.make_df 2) = true
  \/ exists tok,
       In tok (tokens_of (Py.lower "warm hoodie"))
       /\ token_signal (row Sample.make_df 2) tok = true.
Proof.
  apply (keyword_fallback_only_matching_rows Sample.make_df no_filters 8
                                             "warm hoodie" [2%nat] 2%nat).
  - vm_compute. reflexivity.
  - reflexivity.
  - simpl. tauto.
Defined.

(* ================================================================== *)
(** ** More on the text branch of [chat] *)

Lemma dedup_products_subseq products : Subseq (dedup_products products) products.
Proof.
  unfold dedup_products. rewrite unique_loop_fresh. apply fresh_by_id_subseq.
Qed.

(** The products of the branch are rows of valid positions, pruned and then
    deduplicated. *)
Lemma chat_text_recommend_some df mu scored text filters k products :
  chat_text_recommend df mu scored text filters k = Some products ->
  exists idxs pruned,
    Forall (fun i => (i < length df)%nat) idxs
    /\ ((0 <= k)%Z -> (Z.of_nat (length idxs) <= k)%Z)
    /\ prune df filters (map (row df) idxs) = Some pruned
    /\ products = dedup_products pruned.
Proof.
  unfold chat_text_recommend.
  destruct (_pick_with_filters df filters k mu scored) as [chosen |] eqn:Hpick;
    [| discriminate].
  assert (Forall (fun i => (i < length df)%nat) chosen) as Hvalid.
  { pose proof (pick_with_filters_incl _ _ _ _ _ _ Hpick) as Hincl.
    apply pick_with_filters_some in Hpick. destruct Hpick as [_ [_ [Hv _]]].
    rewrite Forall_forall in *. intros i Hi. apply Hv, Hincl, Hi. }
  pose proof (pick_with_filters_length _ _ _ _ _ _ Hpick) as Hlen.
  destruct (map (row df) chosen) as [| p0 rest] eqn:Hrows.
  - destruct (_keyword_fallback df filters k text) as [fb |] eqn:Hfb;
      [| discriminate].
    destruct fb as [| i0 fb'].
    + destruct (prune df filters []) as [pruned |] eqn:Hprune; [| discriminate].
      intros [= <-]. exists [], pruned. simpl.
      repeat split; [constructor | lia | assumption].
    + destruct (prune df filters (map (row df) (i0 :: fb'))) as [pruned |] eqn:Hprune;
        [| discriminate].
      intros [= <-]. exists (i0 :: fb'), pruned.
      split; [| split; [| split; [assumption | reflexivity]]].
      * apply Forall_forall. intros i Hi.
        destruct (keyword_fallback_In _ _ _ _ _ _ Hfb Hi) as [_ [_ [_ [_ [Hlt _]]]]].
        exact Hlt.
      * eapply keyword_fallback_length; eauto.
  - destruct (prune df filters (p0 :: rest)) as [pruned |] eqn:Hprune; [| discriminate].
    intros [= <-]. exists chosen, pruned. rewrite Hrows. auto.
Qed.

Lemma prune_length df filters products pruned :
  prune df filters products = Some pruned ->
  (length pruned <= length products)%nat.
Proof.
  unfold prune. destruct (any_filter filters).
  - destruct (apply_filters (labelled df) filters); [| discriminate].
    intros [= <-]. apply Subseq_length, Subseq_filter.
  - now intros [= <-].
Qed.

Lemma prune_incl df filters products pruned p :
  prune df filters products = Some pruned -> In p pruned -> In p products.
Proof.
  unfold prune. destruct (any_filter filters).
  - destruct (apply_filters (labelled df) filters); [| discriminate].
    intros [= <-] H. now apply filter_In in H.
  - now intros [= <-].
Qed.

Lemma prune_rows_keep df filters idxs pruned p :
  NoDup (map id df) ->
  Forall (fun i => (i < length df)%nat) idxs ->
  prune df filters (map (row df) idxs) = Some pruned ->
  In p pruned ->
  keep_brand filters p = true /\ keep_category filters p = true
  /\ keep_price_min filters p = true /\ keep_price_max filters p = true
  /\ keep_tags filters p = true.
Proof.
  intros Hids Hvalid. unfold prune. destruct (any_filter filters) eqn:Hany.
  - destruct (apply_filters (labelled df) filters) as [allowed |] eqn:Hallowed;
      [| discriminate].
    intros [= <-] Hp. apply filter_In in Hp. destruct Hp as [Hp Hmem].
    apply in_map_iff in Hp. destruct Hp as [i [<- Hi]].
    rewrite Forall_forall in Hvalid.
    pose proof (allowed_id_row df filters allowed i Hallowed Hids (Hvalid i Hi) Hmem)
      as Hrow.
    pose proof (In_apply_filters _ _ _ _ Hallowed Hrow) as Hkeep.
    simpl in Hkeep. tauto.
  - intros _ _. now apply keep_all_no_filter.
Qed.

Lemma chat_text_some self mu q text filters k products :
  chat_text self mu q text filters k = Some products ->
  exists scored,
    chat_text_recommend (ci_df self) mu scored text filters k = Some products.
Proof.
  unfold chat_text.
  destruct (_search self q _ (Some filters)) as [scored |]; [| discriminate].
  eauto.
Qed.

(** X7. The answer to a text request respects the filters: over a catalog
    with unique ids, every product of the response is a catalog row that
    passes each of the five tests of [apply_filters], on the pipeline path,
    on the fallback path and after the minimum-unique override alike. *)
Theorem chat_text_products_pass_filters
        (self : CatalogIndex) (min_unique : Z) (query_emb : Vec)
        (last_user_text : string) (filters : FilterSpec) (req_top_k : Z)
        (products : list Product) (p : Product) :
  NoDup (map id (ci_df self)) ->
  chat_text self min_unique query_emb last_user_text filters req_top_k = Some products ->
  In p products ->
  In p (ci_df self)
  /\ keep_brand filters p = true /\ keep_category filters p = true
  /\ keep_price_min filters p = true /\ keep_price_max filters p = true
  /\ keep_tags filters p = true.
Proof.
  intros Hids H Hp. apply chat_text_some in H. destruct H as [scored H].
  apply chat_text_recommend_some in H.
  destruct H as [idxs [pruned [Hvalid [_ [Hprune ->]]]]].
  apply (Subseq_In _ _ _ (dedup_products_subseq pruned)) in Hp.
  split.
  - apply (prune_incl _ _ _ _ _ Hprune) in Hp.
    apply in_map_iff in Hp. destruct Hp as [i [<- Hi]].
    rewrite Forall_forall in Hvalid. unfold row. apply nth_In. now apply Hvalid.
  - eapply prune_rows_keep; eauto.
Qed.

Lemma chat_text_products_pass_filters_witness :
  In Sample.nike_tee (ci_df Sample.index)
  /\ keep_brand SampleFilters.nike_tshirt Sample.nike_tee = true
  /\ keep_category SampleFilters.nike_tshirt Sample.nike_tee = true
  /\ keep_price_min SampleFilters.nike_tshirt Sample.nike_tee = true
  /\ keep_price_max SampleFilters.nike_tshirt Sample.nike_tee = true
  /\ keep_tags SampleFilters.nike_tshirt Sample.nike_tee = true.
Proof.
  apply (chat_text_products_pass_filters
           Sample.index default_min_unique [1; 0] "recommend a nike tee"
           SampleFilters.nike_tshirt 8 [Sample.nike_tee] Sample.nike_tee).
  - repeat constructor; simpl; intuition discriminate.
  - vm_compute. reflexivity.
  - simpl. tauto.
Defined.

(** X8. The answer to a text request is never longer than the [top_k] of the
    request, when that is not negative: neither the relaxation stages, the
    override nor the fallback go past it. *)
Theorem chat_text_at_most_top_k
        (self : CatalogIndex) (min_unique : Z) (query_emb : Vec)
        (last_user_text : string) (filters : FilterSpec) (req_top_k : Z)
        (products : list Product) :
  chat_text self min_unique query_emb last_user_text filters req_top_k = Some products ->
  (0 <= req_top_k)%Z ->
  (Z.of_nat (length products) <= req_top_k)%Z.
Proof.
  intros H Hk. apply chat_text_some in H. destruct H as [scored H].
  apply chat_text_recommend_some in H.
  destruct H as [idxs [pruned [_ [Hlen [Hprune ->]]]]].
  pose proof (Subseq_length _ _ (dedup_products_subseq pruned)).
  pose proof (prune_length _ _ _ _ Hprune) as Hp. rewrite length_map in Hp.
  specialize (Hlen Hk). lia.
Qed.

Lemma chat_text_at_most_top_k_witness :
  (Z.of_nat (length [Sample.nike_tee; Sample.adidas_tee]) <= 2)%Z.
Proof.
  apply (chat_text_at_most_top_k
           Sample.index default_min_unique [1; 0] "recommend something"
           no_filters 2 [Sample.nike_tee; Sample.adidas_tee]).
  - vm_compute. reflexivity.
  - lia.
Defined.

(* ================================================================== *)
(** ** The request text and the router *)

Lemma user_block_stops_at_assistant m later earlier :
  m_role m = Some "assistant" ->
  user_block (later ++ m :: earlier) = user_block later.
Proof.
  intros Hm. induction later as [| x later IH]; simpl.
  - now rewrite Hm.
  - rewrite IH. reflexivity.
Qed.

(** X9. The text of a request is read from the messages after the last reply
    of the assistant only: whatever stands before an assistant message, and
    that message itself, do not change [_user_context]. *)
Theorem user_context_after_last_assistant
        (before after : list Message) (m : Message) :
  m_role m = Some "assistant" ->
  _user_context (before ++ m :: after) = _user_context after.
Proof.
  intros Hm. unfold _user_context.
  rewrite rev_app_distr. simpl. rewrite <- app_assoc. simpl.
  now rewrite user_block_stops_at_assistant.
Qed.

Lemma user_context_after_last_assistant_witness :
  _user_context
    ([mkMessage (Some "user") (Some "hoodies under $40")]
       ++ mkMessage (Some "assistant") (Some "Here are some hoodies.")
       :: [mkMessage (Some "user") (Some "now in blue")])
  = _user_context [mkMessage (Some "user") (Some "now in blue")].
Proof.
  apply (user_context_after_last_assistant
           [mkMessage (Some "user") (Some "hoodies under $40")]
           [mkMessage (Some "user") (Some "now in blue")]
           (mkMessage (Some "assistant") (Some "Here are some hoodies."))).
  reflexivity.
Defined.

Lemma digits_value_nonneg d : forall acc, (0 <= acc)%Z -> (0 <= digits_value acc d)%Z.
Proof.
  induction d as [| c d IH]; intros acc H; cbn [digits_value]; [assumption |].
  apply IH. pose proof (Nat2Z.is_nonneg (nat_of_ascii c - 48)). lia.
Qed.

Lemma float_of_digits_nonneg d : 0 <= float_of_digits d.
Proof.
  unfold float_of_digits. change 0 with (inject_Z 0). rewrite <- Zle_Qle.
  now apply digits_value_nonneg.
Qed.

Lemma re_search_with_some {R} (match_at : string -> option R) s r :
  re_search_with match_at s = Some r -> exists s', match_at s' = Some r.
Proof.
  induction s as [| c s IH]; simpl.
  - destruct (match_at EmptyString) eqn:E; [| discriminate].
    intros [= <-]. eauto.
  - destruct (match_at (String c s)) eqn:E.
    + intros [= <-]. eauto.
    + assumption.
Qed.

Lemma under_at_nonneg s v : under_at s = Some v -> 0 <= v.
Proof.
  unfold under_at. destruct (first_of _ s); [| discriminate].
  destruct (digits1 _) as [[d rest] |]; [| discriminate].
  intros [= <-]. apply float_of_digits_nonneg.
Qed.

Lemma between_at_nonneg s a b : between_at s = Some (a, b) -> 0 <= a /\ 0 <= b.
Proof.
  unfold between_at. destruct (first_of _ s); [| discriminate].
  destruct (digits1 _) as [[d rest] |]; [| discriminate].
  destruct (first_of _ _); [| discriminate].
  destruct (digits1 _) as [[d' rest'] |]; [| discriminate].
  intros [= <- <-]. split; apply float_of_digits_nonneg.
Qed.

Lemma range_at_nonneg s a b : range_at s = Some (a, b) -> 0 <= a /\ 0 <= b.
Proof.
  unfold range_at.
  destruct (digits1 _) as [[d rest] |]; [| discriminate].
  destruct (strip_prefix _ _); [| discriminate].
  destruct (digits1 _) as [[d' rest'] |]; [| discriminate].
  intros [= <- <-]. split; apply float_of_digits_nonneg.
Qed.

Lemma py_min_max a b :
  0 <= a -> 0 <= b -> 0 <= py_min a b /\ py_min a b <= py_max a b.
Proof.
  intros Ha Hb. unfold py_min, py_max.
  destruct (Py.Qltb b a) eqn:E1; destruct (Py.Qltb a b) eqn:E2;
    try apply Qltb_lt in E1; try apply Qltb_lt in E2;
    try apply Qltb_ge in E1; try apply Qltb_ge in E2; split; lra.
Qed.

(** X10. The price band [_parse_price] reads off a text is well formed: a
    minimum never comes without a maximum, the minimum is not above the
    maximum whatever the order of the two numbers in the text, and no bound
    is negative. *)
Theorem parse_price_band_well_formed (text : string) :
  match _parse_price text with
  | (Some lo, Some hi) => 0 <= lo /\ lo <= hi
  | (None, Some hi) => 0 <= hi
  | (Some _, None) => False
  | (None, None) => True
  end.
Proof.
  unfold _parse_price.
  destruct (re_search_with range_at (Py.lower text)) as [[a b] |] eqn:Er.
  - apply re_search_with_some in Er. destruct Er as [s' Er].
    apply range_at_nonneg in Er. destruct Er.
    destruct (re_search_with between_at _) as [[a' b'] |]; now apply py_min_max.
  - destruct (re_search_with between_at (Py.lower text)) as [[a b] |] eqn:Eb.
    + apply re_search_with_some in Eb. destruct Eb as [s' Eb].
      apply between_at_nonneg in Eb. destruct Eb. now apply py_min_max.
    + destruct (re_search_with under_at (Py.lower text)) as [v |] eqn:Eu; [| exact I].
      apply re_search_with_some in Eu. destruct Eu as [s' Eu].
      now apply under_at_nonneg in Eu.
Qed.

Lemma re_literal_in_fragment pat :
  Re.re_literal pat = true -> Re.re_in_fragment pat = true.
Proof.
  unfold Re.re_literal, Re.re_in_fragment.
  induction pat as [| c pat IH]; simpl; [reflexivity |].
  intros H. apply andb_true_iff in H. destruct H as [Hc Hr].
  rewrite Hc, orb_true_r. now apply IH.
Qed.

Lemma extract_category_literal t c :
  extract_category t = Some c -> Re.re_literal c = true.
Proof.
  unfold extract_category.
  destruct (find _ CATEGORY_SYNONYMS) as [entry |] eqn:E; [| discriminate].
  intros [= <-]. apply find_some in E. destruct E as [Hin _].
  assert (forallb (fun e => Re.re_literal (fst e)) CATEGORY_SYNONYMS = true) as Hall
    by (vm_compute; reflexivity).
  rewrite forallb_forall in Hall. now apply Hall.
Qed.

Lemma extract_tag_literal t v :
  extract_tag t = Some v -> Re.re_literal v = true.
Proof.
  unfold extract_tag.
  destruct (find _ TAG_MAP) as [kv |] eqn:E; [| discriminate].
  intros [= <-]. apply find_some in E. destruct E as [Hin _].
  assert (forallb (fun kv => Re.re_literal (snd kv)) TAG_MAP = true) as Hall
    by (vm_compute; reflexivity).
  rewrite forallb_forall in Hall. now apply Hall.
Qed.

Lemma opt_literal (o : option string) :
  (forall s, o = Some s -> Re.re_literal s = true) ->
  Re.re_literal (opt_str o) = true.
Proof. destruct o; simpl; intros H; [now apply H | reflexivity]. Qed.

(** X11. Filters that come from the rules are always safe for
    [apply_filters]: the category and the tag of [extract_filters_rules]
    come from closed lists of words without any character that is special
    in a regular expression, so the filter is applied to any frame without
    an error, and [str.contains] reads them as plain substrings. The same
    holds for the strict filters [chat] builds when the request carries no
    filter of its own, which come from the text alone and never hold a
    brand or a tag. *)
Theorem rule_filters_apply_without_error (text : string) (rows : LabelledFrame) :
  let extracted := extract_filters_rules text in
  let strict := strict_filters (ui_filters None) (extract_filters_llm_or_rules text) in
  Re.re_literal (opt_str (f_category extracted)) = true
  /\ Re.re_literal (opt_str (f_tags_contains extracted)) = true
  /\ (exists out, apply_filters rows extracted = Some out)
  /\ f_brand strict = None /\ f_tags_contains strict = None
  /\ f_category strict = f_category extracted
  /\ (exists out, apply_filters rows strict = Some out).
Proof.
  intros extracted strict.
  assert (Re.re_literal (opt_str (f_category extracted)) = true) as Hc.
  { apply opt_literal. intros s Hs. unfold extracted, extract_filters_rules in Hs.
    destruct (_parse_price _). simpl in Hs. eapply extract_category_literal; eauto. }
  assert (Re.re_literal (opt_str (f_tags_contains extracted)) = true) as Ht.
  { apply opt_literal. intros s Hs. unfold extracted, extract_filters_rules in Hs.
    destruct (_parse_price _). simpl in Hs. eapply extract_tag_literal; eauto. }
  assert (f_category strict = f_category extracted) as Hsame.
  { unfold strict, strict_filters, extract_filters_llm_or_rules. reflexivity. }
  repeat split; try assumption; try reflexivity.
  - apply apply_filters_returns. unfold patterns_in_fragment.
    rewrite (re_literal_in_fragment _ Hc), (re_literal_in_fragment _ Ht).
    now destruct (Py.truthy _), (Py.truthy _).
  - apply apply_filters_returns. unfold patterns_in_fragment.
    rewrite Hsame, (re_literal_in_fragment _ Hc).
    now destruct (Py.truthy _).
Qed.

Lemma lower_char_idem c : Py.lower_char (Py.lower_char c) = Py.lower_char c.
Proof. destruct c as [[] [] [] [] [] [] [] []]; reflexivity. Qed.

Lemma lower_idem s : Py.lower (Py.lower s) = Py.lower s.
Proof.
  induction s as [| c s IH]; simpl; [reflexivity |].
  now rewrite lower_char_idem, IH.
Qed.

(** X12. Routing and rule extraction do not depend on letter case: a text
    and its lower-cased form get the same intent and the same filters. *)
Theorem router_ignores_letter_case (text : string) (has_image : bool) :
  classify_intent (Py.lower text) has_image = classify_intent text has_image
  /\ extract_filters_rules (Py.lower text) = extract_filters_rules text.
Proof.
  unfold classify_intent, extract_filters_rules, _parse_brand.
  now rewrite !lower_idem.
Qed.

Lemma pick_str_truthy a b : Py.truthy (pick_str a b) = Py.truthy a || Py.truthy b.
Proof. destruct a as [[| c s] |]; reflexivity. Qed.

Lemma pick_num_set a b : is_set (pick_num a b) = is_set a || is_set b.
Proof. destruct a; reflexivity. Qed.

Lemma any_filter_final ui extracted :
  any_filter (final_filters ui extracted) = any_filter ui || any_filter extracted.
Proof.
  unfold any_filter, final_filters. simpl.
  rewrite !pick_str_truthy, !pick_num_set.
  destruct (Py.truthy (f_brand ui)), (Py.truthy (f_category ui)),
    (is_set (f_price_min ui)), (is_set (f_price_max ui)),
    (Py.truthy (f_tags_contains ui)); simpl; try reflexivity;
    repeat rewrite orb_true_r; reflexivity.
Qed.

(** X13. The intent [chat] acts on. With an image it is an image intent,
    with text or without. Without an image it is a recommendation or small
    talk, and small talk exactly when the text holds no shopping or price
    signal, the request carries no filter and the rules extract none from
    the text. *)
Theorem chat_intent_smalltalk_iff
        (last_user_text : string) (req_filters : option FilterSpec) :
  (chat_intent last_user_text true req_filters = IMAGE_AND_TEXT
   \/ chat_intent last_user_text true req_filters = IMAGE_SEARCH)
  /\ (chat_intent last_user_text false req_filters = TEXT_RECOMMEND
      \/ chat_intent last_user_text false req_filters = SMALLTALK)
  /\ (chat_intent last_user_text false req_filters = SMALLTALK <->
      any_in shopping_signals (Py.strip (Py.lower last_user_text)) = false
      /\ any_in price_signals (Py.strip (Py.lower last_user_text)) = false
      /\ any_filter (ui_filters req_filters) = false
      /\ any_filter (extract_filters_rules last_user_text) = false).
Proof.
  unfold chat_intent, classify_intent, extract_filters_llm_or_rules.
  rewrite any_filter_final.
  set (sh := any_in shopping_signals _). set (pr := any_in price_signals _).
  set (u := any_filter (ui_filters req_filters)).
  set (e := any_filter (extract_filters_rules last_user_text)).
  cbn [andb]. split.
  - destruct (2 <? _)%nat; auto.
  - destruct sh, pr, u, e; cbn [orb];
      (split; [auto | split; [try discriminate; auto | intuition discriminate]]).
Qed.

(* ================================================================== *)
(** ** [apply_filters] as an operation on frames *)

Lemma on_rows_all k out :
  (forall x, In x out -> k (snd x) = true) -> on_rows k out = out.
Proof. intros H. unfold on_rows. now apply filter_all. Qed.

(** X14. [apply_filters] only drops rows: its result keeps rows of the frame
    in their order, with their labels; and filtering the result again with
    the same filter changes nothing. *)
Theorem apply_filters_subsequence_idempotent
        (rows : LabelledFrame) (f : FilterSpec) (out : LabelledFrame) :
  apply_filters rows f = Some out ->
  Subseq out rows /\ apply_filters out f = Some out.
Proof.
  intros H. split; [now apply apply_filters_subseq in H |].
  destruct (apply_filters_some _ _ _ H) as [Hpat Hin].
  assert (forall x, In x out ->
            keep_brand f (snd x) = true /\ keep_category f (snd x) = true
            /\ keep_price_min f (snd x) = true /\ keep_price_max f (snd x) = true
            /\ keep_tags f (snd x) = true) as Hk
    by (intros x Hx; now apply Hin in Hx).
  clear H Hin.
  unfold patterns_in_fragment in Hpat. apply andb_true_iff in Hpat.
  destruct Hpat as [Hc Ht].
  unfold keep_brand, keep_category, keep_price_min, keep_price_max, keep_tags in Hk.
  unfold apply_filters, str_contains.
  assert ((if Py.truthy (f_brand f)
           then on_rows (fun p => String.eqb (Py.lower (brand p))
                                             (Py.lower (opt_str (f_brand f)))) out
           else out) = out) as ->.
  { destruct (Py.truthy (f_brand f)); [| reflexivity].
    apply on_rows_all. intros x Hx. destruct (Hk x Hx) as (? & ? & ? & ? & ?); assumption. }
  destruct (Py.truthy (f_category f)).
  - rewrite Hc. rewrite (on_rows_all _ out) by (intros x Hx; destruct (Hk x Hx) as (? & ? & ? & ? & ?); assumption).
    destruct (f_price_min f) as [lo |], (f_price_max f) as [hi |];
      repeat rewrite (on_rows_all _ out) by (intros x Hx; destruct (Hk x Hx) as (? & ? & ? & ? & ?); assumption);
      (destruct (Py.truthy (f_tags_contains f));
       [rewrite Ht, (on_rows_all _ out) by (intros x Hx; destruct (Hk x Hx) as (? & ? & ? & ? & ?); assumption) |]; reflexivity).
  - destruct (f_price_min f) as [lo |], (f_price_max f) as [hi |];
      repeat rewrite (on_rows_all _ out) by (intros x Hx; destruct (Hk x Hx) as (? & ? & ? & ? & ?); assumption);
      (destruct (Py.truthy (f_tags_contains f));
       [rewrite Ht, (on_rows_all _ out) by (intros x Hx; destruct (Hk x Hx) as (? & ? & ? & ? & ?); assumption) |]; reflexivity).
Qed.

Lemma apply_filters_subsequence_idempotent_witness :
  Subseq [(0%nat, Sample.nike_tee)] (labelled Sample.make_df)
  /\ apply_filters [(0%nat, Sample.nike_tee)] SampleFilters.nike_tshirt
     = Some [(0%nat, Sample.nike_tee)].
Proof.
  apply (apply_filters_subsequence_idempotent
           (labelled Sample.make_df) SampleFilters.nike_tshirt
           [(0%nat, Sample.nike_tee)]).
  vm_compute. reflexivity.
Defined.

(* ================================================================== *)
(** ** The embedding cache across two starts *)

(** X15. A start that wrote both cache files is followed by a start that
    reads them: when the encoder gives one vector per catalog row, the
    second construction over the same catalog uses the cache, gets the very
    embeddings of the first, and leaves the cache as it is. *)
Theorem cache_written_then_used
        (encode_text : list string -> list Vec) (df : DataFrame)
        (c : Cache) (o : SaveOutcome) :
  length (encode_text (map _compose_text df)) = length df ->
  let first := init_embeddings encode_text df c SavedBoth in
  init_embeddings encode_text df (snd first) o
  = (fst (fst first), true, snd first).
Proof.
  intros Henc first. unfold first, init_embeddings.
  destruct (load_cached df c) as [embs |] eqn:E; simpl.
  - now rewrite E.
  - assert (load_cached df
              (mkCache (Holds (encode_text (map _compose_text df)))
                       (Holds (JArray (map JStr (df_ids df)))))
            = Some (encode_text (map _compose_text df))) as ->
      by (apply load_cached_spec; simpl; auto).
    reflexivity.
Qed.

Lemma cache_written_then_used_witness :
  init_embeddings Sample.encode_text Sample.make_df
    (snd (init_embeddings Sample.encode_text Sample.make_df
            (mkCache Missing Missing) SavedBoth)) SavedNothing
  = (fst (fst (init_embeddings Sample.encode_text Sample.make_df
                 (mkCache Missing Missing) SavedBoth)),
     true,
     snd (init_embeddings Sample.encode_text Sample.make_df
            (mkCache Missing Missing) SavedBoth)).
Proof.
  apply (cache_written_then_used Sample.encode_text Sample.make_df
                                 (mkCache Missing Missing) SavedNothing).
  reflexivity.
Defined.

(* ================================================================== *)
(** ** [_search] from the raw index to the ranked result *)

Lemma In_combine_swap {A B} (l : list (A * B)) a b :
  In (b, a) (combine (map snd l) (map fst l)) -> In (a, b) l.
Proof.
  induction l as [| [x y] l IH]; simpl; [tauto |].
  intros [[= <- <-] | H]; auto.
Qed.

Lemma StronglySorted_firstn {A} (R : A -> A -> Prop) (l : list A) :
  StronglySorted R l -> forall n, StronglySorted R (firstn n l).
Proof.
  induction 1 as [| x l Hs IH Hx]; intros [| n]; simpl; try constructor.
  - apply IH.
  - rewrite Forall_forall in *. intros y Hy. apply Hx. eapply In_firstn; eauto.
Qed.

Lemma uniq_loop_In pairs :
  forall seen j s,
    In (j, s) (uniq_loop seen pairs) ->
    exists i, In (i, s) pairs /\ j = Z.to_nat i.
Proof.
  induction pairs as [| [i q] pairs IH]; intros seen j s; simpl; [tauto |].
  destruct (Py.mem_nat (Z.to_nat i) seen).
  - intros H. destruct (IH _ _ _ H) as [i' [Hin Hj]]. eauto.
  - intros [[= <- <-] | H]; [eauto |].
    destruct (IH _ _ _ H) as [i' [Hin Hj]]. eauto.
Qed.

Section SearchFacts.
Variable self : CatalogIndex.
Variable query_emb : Vec.

Local Abbreviation n_rows := (length (ci_embeddings self)).

(** Every entry of the raw result that is not padding is a row of the index
    with its inner product. *)
Lemma raw_search_pairs fetch_k scores idxs i s :
  _raw_search self query_emb fetch_k = Some (scores, idxs) ->
  In (i, s) (combine idxs scores) ->
  i <> (-1)%Z ->
  exists j, i = Z.of_nat j /\ (j < n_rows)%nat
            /\ s = dot query_emb (embedding self j).
Proof.
  unfold _raw_search. destruct (_ =? _)%nat; [| discriminate].
  intros [= <- <-] Hin Hi. apply In_combine_swap in Hin.
  apply in_app_or in Hin. destruct Hin as [Hin | Hin].
  - apply In_firstn, sort_desc_In, in_map_iff in Hin.
    destruct Hin as [j [[= <- <-] Hj]]. apply in_seq in Hj.
    exists j. repeat split. lia.
  - apply repeat_spec in Hin. injection Hin as _ ->. congruence.
Qed.

Lemma search_candidates fetch_k scores idxs j s :
  _raw_search self query_emb fetch_k = Some (scores, idxs) ->
  In (j, s) (valid_unique scores idxs) ->
  (j < n_rows)%nat /\ s = dot query_emb (embedding self j).
Proof.
  intros Hraw Hin. unfold valid_unique in Hin. apply uniq_loop_In in Hin.
  destruct Hin as [i [Hin ->]]. apply filter_In in Hin. destruct Hin as [Hin Hi].
  simpl in Hi. apply negb_true_iff, Z.eqb_neq in Hi.
  destruct (raw_search_pairs _ _ _ _ _ Hraw Hin Hi) as [j [-> [Hj ->]]].
  now rewrite Nat2Z.id.
Qed.

Lemma search_candidate_scores fetch_k scores idxs :
  _raw_search self query_emb fetch_k = Some (scores, idxs) ->
  map snd (valid_unique scores idxs)
  = map (fun i => dot query_emb (embedding self i)) (map fst (valid_unique scores idxs)).
Proof.
  intros Hraw. rewrite map_map. apply map_ext_in. intros [j s] Hin.
  now destruct (search_candidates _ _ _ _ _ Hraw Hin) as [_ ->].
Qed.

Lemma mmr_selected_range cand_idxs cand_scores top_k diversity :
  length cand_scores = length cand_idxs ->
  Forall (fun j => (j < length cand_idxs)%nat)
         (mmr_selected self cand_idxs cand_scores top_k diversity).
Proof.
  intros Hlen. apply Forall_forall. intros j Hj.
  apply (In_nth _ _ 0%nat) in Hj. destruct Hj as [t [Ht <-]].
  rewrite mmr_selected_step by assumption.
  pose proof (mmr_loop_exits self cand_idxs cand_scores top_k diversity) as Hturns.
  assert (0 < length cand_idxs)%nat as Hpos by lia.
  unfold mmr_pick. destruct (firstn t _) as [| s0 sel'].
  - rewrite <- Hlen. apply argmax_spec. intros E. rewrite E in Hlen. simpl in Hlen. lia.
  - set (v := mmr_score self cand_idxs cand_scores diversity (s0 :: sel')).
    assert (length v = length cand_idxs) as Hv by apply mmr_score_length.
    rewrite <- Hv. apply argmax_spec. intros E. rewrite E in Hv. simpl in Hv. lia.
Qed.

Lemma mmr_incl cand_idxs cand_scores top_k diversity :
  length cand_scores = length cand_idxs ->
  incl (_mmr self cand_idxs cand_scores top_k diversity) cand_idxs.
Proof.
  intros Hlen i Hi. unfold _mmr in Hi. apply in_map_iff in Hi.
  destruct Hi as [j [<- Hj]].
  pose proof (mmr_selected_range cand_idxs cand_scores top_k diversity Hlen) as Hr.
  rewrite Forall_forall in Hr. apply nth_In. now apply Hr.
Qed.

Lemma rank_picks_positions filters top_k pick_idxs :
  exists n, map fst (rank_picks self query_emb filters top_k pick_idxs)
            = firstn n (map fst (sort_desc snd
                 (map (fun idx => (idx, boost self query_emb filters idx)) pick_idxs)))
  /\ Permutation
       (map fst (sort_desc snd
                   (map (fun idx => (idx, boost self query_emb filters idx)) pick_idxs)))
       pick_idxs.
Proof.
  unfold rank_picks.
  destruct (slice_to_firstn top_k
              (sort_desc snd
                 (map (fun idx => (idx, boost self query_emb filters idx)) pick_idxs)))
    as [n ->].
  exists n. split; [symmetry; apply firstn_map |].
  etransitivity; [apply Permutation_map, sort_desc_perm |].
  rewrite map_map. simpl. now rewrite map_id.
Qed.

Lemma rank_picks_incl filters top_k pick_idxs :
  incl (map fst (rank_picks self query_emb filters top_k pick_idxs)) pick_idxs.
Proof.
  destruct (rank_picks_positions filters top_k pick_idxs) as [n [-> Hperm]].
  intros i Hi. apply In_firstn in Hi. eapply Permutation_in; eauto.
Qed.

Lemma rank_picks_NoDup filters top_k pick_idxs :
  NoDup pick_idxs ->
  NoDup (map fst (rank_picks self query_emb filters top_k pick_idxs)).
Proof.
  intros Hnd.
  destruct (rank_picks_positions filters top_k pick_idxs) as [n [-> Hperm]].
  apply NoDup_firstn. eapply Permutation_NoDup; [symmetry; exact Hperm | assumption].
Qed.

Lemma rank_picks_scores filters top_k pick_idxs :
  Forall (fun p => snd p = boost self query_emb filters (fst p))
         (rank_picks self query_emb filters top_k pick_idxs).
Proof.
  apply Forall_forall. intros p Hp. unfold rank_picks in Hp.
  apply In_slice_to, sort_desc_In, in_map_iff in Hp.
  now destruct Hp as [idx [<- _]].
Qed.

Lemma rank_picks_sorted filters top_k pick_idxs :
  StronglySorted (fun a b => snd b <= snd a)
                 (rank_picks self query_emb filters top_k pick_idxs).
Proof.
  unfold rank_picks.
  destruct (slice_to_firstn top_k
              (sort_desc snd
                 (map (fun idx => (idx, boost self query_emb filters idx)) pick_idxs)))
    as [n ->].
  apply StronglySorted_firstn. apply (sort_desc_sorted snd).
Qed.

(** The result of [_search] is [rank_picks] of the MMR picks over the
    de-duplicated raw candidates, or empty. *)
Lemma search_some top_k filters scored :
  _search self query_emb top_k filters = Some scored ->
  length query_emb = dim self
  /\ exists scores idxs,
       _raw_search self query_emb (Z.max (top_k * 5) 20) = Some (scores, idxs)
       /\ scored = rank_picks self query_emb filters top_k
                     (_mmr self (map fst (valid_unique scores idxs))
                           (map snd (valid_unique scores idxs)) top_k default_diversity).
Proof.
  unfold _search.
  destruct (_raw_search self query_emb _) as [[scores idxs] |] eqn:Hraw; [| discriminate].
  intros H. split.
  - unfold _raw_search in Hraw. destruct (_ =? _)%nat eqn:E; [| discriminate].
    now apply Nat.eqb_eq.
  - exists scores, idxs. split; [reflexivity |].
    destruct (valid_unique scores idxs) as [| u rest] eqn:Hu.
    + injection H as <-. unfold rank_picks, _mmr, mmr_selected, Py.slice_to. simpl.
      now destruct (0 <=? top_k)%Z; rewrite firstn_nil.
    + now injection H as <-.
Qed.

Lemma search_returns top_k filters :
  length query_emb = dim self ->
  exists scored, _search self query_emb top_k filters = Some scored.
Proof.
  intros Hdim. unfold _search, _raw_search.
  apply Nat.eqb_eq in Hdim. rewrite Hdim.
  destruct (valid_unique _ _); eauto.
Qed.

Lemma search_positions_valid top_k filters scored :
  _search self query_emb top_k filters = Some scored ->
  Forall (fun i => (i < n_rows)%nat) (map fst scored).
Proof.
  intros H. apply search_some in H.
  destruct H as [_ [scores [idxs [Hraw ->]]]].
  apply Forall_forall. intros i Hi.
  apply rank_picks_incl, mmr_incl in Hi; [| now rewrite !length_map].
  apply in_map_iff in Hi. destruct Hi as [[j s] [<- Hin]].
  now destruct (search_candidates _ _ _ _ _ Hraw Hin).
Qed.

Lemma search_length top_k filters scored :
  _search self query_emb top_k filters = Some scored ->
  (0 <= top_k)%Z -> (Z.of_nat (length scored) <= top_k)%Z.
Proof.
  intros H Hk. apply search_some in H.
  destruct H as [_ [scores [idxs [_ ->]]]].
  unfold rank_picks. now apply slice_to_bound.
Qed.
End SearchFacts.

(** X16. What [_search] returns over unit-norm embeddings and a unit-norm
    query: rows of the index, no row twice, at most [top_k] of them for a
    [top_k] that is not negative, each with its boosted score, in the order
    of non-increasing score. *)
Theorem search_result_shape
        (self : CatalogIndex) (query_emb : Vec) (top_k : Z)
        (filters : option FilterSpec) (scored : list (nat * Q)) :
  unit_norm query_emb = true ->
  Forall (fun v => unit_norm v = true) (ci_embeddings self) ->
  _search self query_emb top_k filters = Some scored ->
  NoDup (map fst scored)
  /\ Forall (fun i => (i < length (ci_embeddings self))%nat) (map fst scored)
  /\ ((0 <= top_k)%Z -> (Z.of_nat (length scored) <= top_k)%Z)
  /\ Forall (fun p => snd p = boost self query_emb filters (fst p)) scored
  /\ StronglySorted (fun a b => snd b <= snd a) scored.
Proof.
  intros Hq Hemb H.
  split; [| split; [eapply search_positions_valid; eauto |
                    split; [eapply search_length; eauto |]]].
  - apply search_some in H. destruct H as [_ [scores [idxs [Hraw ->]]]].
    apply rank_picks_NoDup. unfold _mmr.
    set (u := valid_unique scores idxs).
    assert (cosine_inputs self (map fst u) (map snd u) = true) as Hcos.
    { unfold u. rewrite (search_candidate_scores _ _ _ _ _ Hraw).
      apply unit_norm_cosine_inputs; [assumption |].
      apply Forall_forall. intros i Hi. apply in_map_iff in Hi.
      destruct Hi as [[j s] [<- Hin]].
      destruct (search_candidates _ _ _ _ _ _ _ Hraw Hin) as [Hj _].
      rewrite Forall_forall in Hemb. apply Hemb. unfold embedding. now apply nth_In. }
    assert (0 <= default_diversity /\ default_diversity <= 1) as Hdiv
      by (unfold default_diversity; split; lra).
    destruct (mmr_selected_distinct self (map fst u) (map snd u) top_k
                                    default_diversity Hcos Hdiv) as [Hsel Hrange].
    apply NoDup_map_nth; [apply valid_unique_NoDup | assumption | assumption].
  - apply search_some in H. destruct H as [_ [scores [idxs [_ ->]]]].
    split; [apply rank_picks_scores | apply rank_picks_sorted].
Qed.

Lemma search_result_shape_witness :
  NoDup (map fst [(0%nat, 1%Q); (2%nat, 0%Q)])
  /\ Forall (fun i => (i < length (ci_embeddings Sample.index))%nat)
            (map fst [(0%nat, 1%Q); (2%nat, 0%Q)])
  /\ ((0 <= 2)%Z -> (Z.of_nat (length [(0%nat, 1%Q); (2%nat, 0%Q)]) <= 2)%Z)
  /\ Forall (fun p => snd p = boost Sample.index [1; 0] None (fst p))
            [(0%nat, 1%Q); (2%nat, 0%Q)]
  /\ StronglySorted (fun a b => snd b <= snd a) [(0%nat, 1%Q); (2%nat, 0%Q)].
Proof.
  apply (search_result_shape Sample.index [1; 0] 2 None [(0%nat, 1%Q); (2%nat, 0%Q)]).
  - reflexivity.
  - repeat constructor.
  - vm_compute. reflexivity.
Defined.

(* ================================================================== *)
(** ** When a text request is answered *)

Lemma keyword_fallback_returns df filters top_k user_text :
  patterns_in_fragment filters = true ->
  exists idxs, _keyword_fallback df filters top_k user_text = Some idxs.
Proof.
  intros Hpat. unfold _keyword_fallback, fallback_cand.
  destruct (any_filter filters).
  - destruct (apply_filters_returns (labelled df) filters Hpat) as [out ->]. eauto.
  - eauto.
Qed.

Lemma prune_returns df filters products :
  patterns_in_fragment filters = true ->
  exists pruned, prune df filters products = Some pruned.
Proof.
  intros Hpat. unfold prune. destruct (any_filter filters); [| eauto].
  destruct (apply_filters_returns (labelled df) filters Hpat) as [out ->]. eauto.
Qed.

Lemma chat_text_recommend_returns df mu scored text filters k :
  patterns_in_fragment filters = true ->
  Forall (fun i => (i < length df)%nat) (map fst scored) ->
  exists products, chat_text_recommend df mu scored text filters k = Some products.
Proof.
  intros Hpat Hvalid. unfold chat_text_recommend.
  destruct (pick_with_filters_returns df filters k mu scored Hpat Hvalid) as [chosen ->].
  destruct (map (row df) chosen) as [| p0 rest].
  - destruct (keyword_fallback_returns df filters k text Hpat) as [idxs ->].
    destruct idxs as [| i0 idxs'].
    + destruct (prune_returns df filters [] Hpat) as [pruned ->]. eauto.
    + destruct (prune_returns df filters (map (row df) (i0 :: idxs')) Hpat)
        as [pruned ->]. eauto.
  - destruct (prune_returns df filters (p0 :: rest) Hpat) as [pruned ->]. eauto.
Qed.

(** X17. Over an index that is not empty and has one embedding per catalog
    row, a text request is always answered when the query vector has the
    dimension of the embeddings and the category and tag filters are
    patterns of ordinary characters and [.]: a negative [top_k], an empty
    text or filters that match no row do not keep [chat] from returning a
    list of products. *)
Theorem chat_text_answers
        (self : CatalogIndex) (min_unique : Z) (query_emb : Vec)
        (last_user_text : string) (filters : FilterSpec) (req_top_k : Z) :
  ci_embeddings self <> [] ->
  length (ci_embeddings self) = length (ci_df self) ->
  length query_emb = dim self ->
  patterns_in_fragment filters = true ->
  exists products,
    chat_text self min_unique query_emb last_user_text filters req_top_k
    = Some products.
Proof.
  intros _ Hrows Hdim Hpat. unfold chat_text.
  destruct (search_returns self query_emb
              (Z.max (clamp_top_k req_top_k * 10) 100) (Some filters) Hdim)
    as [scored Hs].
  rewrite Hs. apply chat_text_recommend_returns; [assumption |].
  rewrite <- Hrows. eapply search_positions_valid; eauto.
Qed.

Lemma chat_text_answers_witness :
  exists products,
    chat_text Sample.index default_min_unique [1; 0] "recommend a tee"
              SampleFilters.nike_tshirt (-3) = Some products.
Proof.
  apply (chat_text_answers Sample.index default_min_unique [1; 0]
                           "recommend a tee" SampleFilters.nike_tshirt (-3)).
  - discriminate.
  - reflexivity.
  - reflexivity.
  - reflexivity.
Defined.

(* ================================================================== *)
(** ** The booster, MMR's first pick and the similar-items lookup *)

(** X18. The booster never lowers a score: for a row whose price is not
    negative, the score [_search] returns is at least the similarity of the
    row to the query, whichever bonuses apply; each bonus that is added is
    zero or more. *)
Theorem boost_never_lowers_score
        (self : CatalogIndex) (query_emb : Vec) (filters : option FilterSpec)
        (idx : nat) :
  0 <= price (row (ci_df self) idx) ->
  dot query_emb (embedding self idx) <= boost self query_emb filters idx.
Proof.
  intros Hprice. destruct filters as [f |]; [| apply Qle_refl].
  rewrite boost_adjusted. unfold adjusted_score, bonus.
  set (base := dot query_emb (embedding self idx)).
  set (p := price (row (ci_df self) idx)) in *.
  assert (0 <= match f_price_max f with
               | Some mx => if Qle_bool p mx then 0.03 * (p / Py.Qmax mx eps) else 0
               | None => 0
               end) as Hbudget.
  { destruct (f_price_max f) as [mx |]; [| lra].
    destruct (Qle_bool p mx); [| lra].
    pose proof (budget_ratio_nonneg p mx Hprice).
    set (r := p / Py.Qmax mx eps) in *. lra. }
  set (b := match f_price_max f with
            | Some mx => if Qle_bool p mx then 0.03 * (p / Py.Qmax mx eps) else 0
            | None => 0
            end) in *.
  destruct (Py.truthy (f_brand f) && _), (Py.truthy (f_category f) && _),
    (Py.truthy (f_tags_contains f) && _); lra.
Qed.

Lemma boost_never_lowers_score_witness :
  dot [1; 0] (embedding Sample.index 0)
  <= boost Sample.index [1; 0] (Some SampleFilters.nike_tshirt) 0.
Proof.
  apply (boost_never_lowers_score Sample.index [1; 0]
                                  (Some SampleFilters.nike_tshirt) 0).
  vm_compute. discriminate.
Defined.

(** X19. The first pick of MMR is the candidate of greatest similarity to
    the query, the earliest such, whatever the diversity weight. *)
Theorem mmr_first_pick_is_most_similar
        (self : CatalogIndex) (cand_idxs : list nat) (cand_scores : list Q)
        (top_k : Z) (diversity : Q) :
  (1 <= top_k)%Z ->
  cand_idxs <> [] ->
  hd_error (_mmr self cand_idxs cand_scores top_k diversity)
  = Some (nth (argmax cand_scores) cand_idxs 0%nat).
Proof.
  intros Hk Hne.
  pose proof (mmr_loop_exits self cand_idxs cand_scores top_k diversity) as Hlen.
  assert (0 < length cand_idxs)%nat as Hpos
    by (destruct cand_idxs; [congruence | simpl; lia]).
  assert (0 < length (mmr_selected self cand_idxs cand_scores top_k diversity))%nat
    as Hsel by lia.
  pose proof (mmr_selected_step self cand_idxs cand_scores top_k diversity 0%nat Hsel)
    as Hfirst.
  unfold _mmr.
  destruct (mmr_selected self cand_idxs cand_scores top_k diversity) as [| s0 rest];
    [simpl in Hsel; lia |].
  simpl in Hfirst. subst s0. reflexivity.
Qed.

Lemma mmr_first_pick_is_most_similar_witness :
  hd_error (_mmr Sample.index [0; 1; 2]%nat [3 # 5; 1; 0] 2 0.3)
  = Some (nth (argmax [3 # 5; 1; 0]) [0; 1; 2]%nat 0%nat).
Proof.
  apply (mmr_first_pick_is_most_similar Sample.index [0; 1; 2]%nat [3 # 5; 1; 0] 2 0.3).
  - lia.
  - discriminate.
Defined.

(** X20. The similar-items answer never holds the product that was asked
    about, and holds at most [top_k] products for a [top_k] that is not
    negative. *)
Theorem similar_excludes_the_product
        (self : CatalogIndex) (pid : string) (top_k : Z) (products : list Product) :
  similar self pid top_k = Some products ->
  Forall (fun p => id p <> pid) products
  /\ ((0 <= top_k)%Z -> (Z.of_nat (length products) <= top_k)%Z).
Proof.
  unfold similar, search_similar_to_id.
  destruct (find_id pid (labelled (ci_df self))) as [base_idx |].
  - destruct (_search self (embedding self base_idx) (top_k + 1) None) as [scored |];
      [| discriminate].
    intros [= <-]. split.
    + apply Forall_forall. intros p Hp. apply in_map_iff in Hp.
      destruct Hp as [[i s] [<- Hin]]. apply In_slice_to, filter_In in Hin.
      destruct Hin as [_ Hne]. simpl in *.
      apply negb_true_iff, String.eqb_neq in Hne. exact Hne.
    + intros Hk. rewrite length_map. now apply slice_to_bound.
  - intros [= <-]. split; [constructor | simpl; lia].
Qed.

Lemma similar_excludes_the_product_witness :
  Forall (fun p => id p <> "a") [Sample.adidas_tee; Sample.nike_hoodie]
  /\ ((0 <= 2)%Z ->
      (Z.of_nat (length [Sample.adidas_tee; Sample.nike_hoodie]) <= 2)%Z).
Proof.
  apply (similar_excludes_the_product Sample.index "a" 2
                                      [Sample.adidas_tee; Sample.nike_hoodie]).
  vm_compute. reflexivity.
Defined.

(* ================================================================== *)
(** ** The catalog handlers: [get_product], [meta] and the image category *)

(** X21. Over a catalog with unique ids, looking a product up by its id
    gives that product back, and the lookup answers "not found" exactly for
    the ids no row carries. *)
Theorem get_product_round_trip (df : DataFrame) :
  NoDup (map id df) ->
  (forall p, In p df -> get_product df (id p) = Some p)
  /\ (forall pid, get_product df pid = None <-> ~ In pid (map id df)).
Proof.
  intros Hids. split.
  - induction df as [| r df IH]; intros p Hp; [destruct Hp |].
    inversion Hids as [| ? ? Hnot Hrest]; subst.
    unfold get_product. simpl. destruct Hp as [-> | Hp].
    + now rewrite String.eqb_refl.
    + destruct (String.eqb (id r) (id p)) eqn:E.
      * apply String.eqb_eq in E. exfalso. apply Hnot. rewrite E. now apply in_map.
      * now apply IH.
  - intros pid. unfold get_product. split.
    + intros Hnone Hin. apply in_map_iff in Hin. destruct Hin as [r [Hr Hin]].
      pose proof (find_none _ _ Hnone r Hin) as Hf. simpl in Hf.
      rewrite Hr, String.eqb_refl in Hf. discriminate.
    + intros Hnot. destruct (find _ df) as [r |] eqn:E; [| reflexivity].
      apply find_some in E. destruct E as [Hin He]. apply String.eqb_eq in He.
      exfalso. apply Hnot. rewrite <- He. now apply in_map.
Qed.

Lemma get_product_round_trip_witness :
  (forall p, In p Sample.make_df -> get_product Sample.make_df (id p) = Some p)
  /\ (forall pid, get_product Sample.make_df pid = None
                  <-> ~ In pid (map id Sample.make_df)).
Proof.
  apply (get_product_round_trip Sample.make_df).
  repeat constructor; simpl; intuition discriminate.
Defined.

Lemma py_min_cases a b : py_min a b = a \/ py_min a b = b.
Proof. unfold py_min. destruct (Py.Qltb b a); auto. Qed.

Lemma py_max_cases a b : py_max a b = a \/ py_max a b = b.
Proof. unfold py_max. destruct (Py.Qltb a b); auto. Qed.

Lemma py_min_le a b : py_min a b <= a /\ py_min a b <= b.
Proof.
  unfold py_min. destruct (Py.Qltb b a) eqn:E.
  - apply Qltb_lt in E. split; lra.
  - apply Qltb_ge in E. split; lra.
Qed.

Lemma py_max_ge a b : a <= py_max a b /\ b <= py_max a b.
Proof.
  unfold py_max. destruct (Py.Qltb a b) eqn:E.
  - apply Qltb_lt in E. split; lra.
  - apply Qltb_ge in E. split; lra.
Qed.

Lemma fold_py_min l :
  forall x,
    fold_left py_min l x <= x
    /\ (forall y, In y l -> fold_left py_min l x <= y)
    /\ (fold_left py_min l x = x \/ In (fold_left py_min l x) l).
Proof.
  induction l as [| z l IH]; intros x; simpl.
  - split; [lra | split; [tauto | auto]].
  - destruct (IH (py_min x z)) as [H1 [H2 H3]].
    destruct (py_min_le x z) as [Hx Hz].
    split; [lra |]. split.
    + intros y [<- | Hy]; [lra | now apply H2].
    + destruct H3 as [H3 | H3]; [| auto].
      rewrite H3. destruct (py_min_cases x z) as [-> | ->]; auto.
Qed.

Lemma fold_py_max l :
  forall x,
    x <= fold_left py_max l x
    /\ (forall y, In y l -> y <= fold_left py_max l x)
    /\ (fold_left py_max l x = x \/ In (fold_left py_max l x) l).
Proof.
  induction l as [| z l IH]; intros x; simpl.
  - split; [lra | split; [tauto | auto]].
  - destruct (IH (py_max x z)) as [H1 [H2 H3]].
    destruct (py_max_ge x z) as [Hx Hz].
    split; [lra |]. split.
    + intros y [<- | Hy]; [lra | now apply H2].
    + destruct H3 as [H3 | H3]; [| auto].
      rewrite H3. destruct (py_max_cases x z) as [-> | ->]; auto.
Qed.

(** X22. The price range [meta] reports encloses every price of the catalog,
    and both ends are prices of catalog rows. *)
Theorem meta_price_range (df : DataFrame) :
  df <> [] ->
  (forall p, In p df ->
             meta_price_min df <= price p /\ price p <= meta_price_max df)
  /\ (exists p, In p df /\ meta_price_min df = price p)
  /\ (exists p, In p df /\ meta_price_max df = price p).
Proof.
  destruct df as [| r df]; [congruence | intros _].
  unfold meta_price_min, meta_price_max.
  destruct (fold_py_min (map price df) (price r)) as [Hlo1 [Hlo2 Hlo3]].
  destruct (fold_py_max (map price df) (price r)) as [Hhi1 [Hhi2 Hhi3]].
  split; [| split].
  - intros p [<- | Hp]; [split; assumption |].
    split; [apply Hlo2 | apply Hhi2]; now apply in_map.
  - destruct Hlo3 as [H | H].
    + exists r. split; [now left | assumption].
    + apply in_map_iff in H. destruct H as [p [Hp Hin]].
      exists p. split; [now right | now symmetry].
  - destruct Hhi3 as [H | H].
    + exists r. split; [now left | assumption].
    + apply in_map_iff in H. destruct H as [p [Hp Hin]].
      exists p. split; [now right | now symmetry].
Qed.

Lemma meta_price_range_witness :
  (forall p, In p Sample.make_df ->
             meta_price_min Sample.make_df <= price p
             /\ price p <= meta_price_max Sample.make_df)
  /\ (exists p, In p Sample.make_df /\ meta_price_min Sample.make_df = price p)
  /\ (exists p, In p Sample.make_df /\ meta_price_max Sample.make_df = price p).
Proof.
  apply (meta_price_range Sample.make_df). discriminate.
Defined.

Lemma Permutation_filter_length {A} (p : A -> bool) (l m : list A) :
  Permutation l m -> length (filter p l) = length (filter p m).
Proof.
  induction 1 as [| x l m _ IH | x y l | l m n _ IH1 _ IH2]; simpl.
  - reflexivity.
  - destruct (p x); simpl; now rewrite IH.
  - destruct (p x), (p y); reflexivity.
  - now rewrite IH1.
Qed.

Lemma filter_two_positions {A} (p : A -> bool) (d : A) (l : list A) i j :
  (i < j < length l)%nat ->
  p (nth i l d) = true -> p (nth j l d) = true ->
  (2 <= length (filter p l))%nat.
Proof.
  intros Hij Hi Hj.
  assert (l = firstn i l ++ nth i l d :: skipn (S i) l) as E
    by (apply nth_decompose; lia).
  assert (length (filter p l)
          = (length (filter p (firstn i l))
             + length (filter p (nth i l d :: skipn (S i) l)))%nat) as ->
    by (rewrite E at 1; now rewrite filter_app, length_app).
  cbn [filter]. rewrite Hi. cbn [length].
  assert (In (nth j l d) (filter p (skipn (S i) l))) as Hin.
  { apply filter_In. split; [| assumption].
    replace j with (S i + (j - S i))%nat by lia.
    rewrite <- nth_skipn. apply nth_In. rewrite length_skipn. lia. }
  destruct (filter p (skipn (S i) l)); [destruct Hin | cbn [length]; lia].
Qed.

Lemma filter_nothing {A} (p : A -> bool) (l : list A) :
  (forall x, In x l -> p x = false) -> filter p l = [].
Proof.
  induction l as [| x l IH]; intros H; simpl; [reflexivity |].
  rewrite (H x) by now left. apply IH. intros y Hy. apply H. now right.
Qed.

(** Apart from its first element, a list sorted downwards holds nothing
    above its second element. *)
Lemma above_second_at_most_one (l : list Q) :
  StronglySorted (fun a b => b <= a) l ->
  (2 <= length l)%nat ->
  (length (filter (fun x => Py.Qltb (nth 1%nat l 0%Q) x) l) <= 1)%nat.
Proof.
  intros Hs Hlen. destruct l as [| a [| b rest]]; simpl in Hlen; try lia.
  inversion Hs as [| ? ? Hs' _]; subst. inversion Hs' as [| ? ? _ Hb]; subst.
  cbn [nth filter].
  assert (Py.Qltb b b = false) as -> by (apply Qltb_ge; lra).
  rewrite (filter_nothing _ rest).
  - destruct (Py.Qltb b a); simpl; lia.
  - intros x Hx. rewrite Forall_forall in Hb. apply Qltb_ge. now apply Hb.
Qed.

(** X23. A category is read off an image only with a clear margin: when
    [_infer_category_from_image] returns a label, it is the label of the
    greatest similarity, and that similarity exceeds every other one by at
    least 0.02. *)
Theorem infer_category_needs_margin (sims : list Q) (label : string) :
  _infer_category_from_image sims = Some label ->
  nth_error _CATEGORY_LABELS (argmax sims) = Some label
  /\ forall j, (j < length sims)%nat -> j <> argmax sims ->
               nth j sims 0 + 0.02 <= nth (argmax sims) sims 0.
Proof.
  unfold _infer_category_from_image.
  destruct sims as [| s0 rest] eqn:Esims; [discriminate |].
  rewrite <- Esims.
  assert (sims <> []) as Hne by (rewrite Esims; discriminate).
  destruct (argmax_spec sims Hne) as [Hidx [Hmax _]].
  destruct (1 <? length sims)%nat eqn:Elen.
  - set (second := nth 1 (sort_desc (fun x => x) sims) 0).
    destruct (Py.Qltb (nth (argmax sims) sims 0 - second) 0.02) eqn:Em; [discriminate |].
    intros H. split; [exact H |].
    apply Qltb_ge in Em. apply Nat.ltb_lt in Elen.
    intros j Hj Hneq.
    destruct (Py.Qltb second (nth j sims 0)) eqn:Ej.
    + exfalso. apply Qltb_lt in Ej.
      assert (Py.Qltb second (nth (argmax sims) sims 0) = true) as Htop.
      { apply Qltb_lt. specialize (Hmax j Hj). lra. }
      assert (2 <= length (filter (fun x => Py.Qltb second x) sims))%nat as Htwo.
      { apply Qltb_lt in Ej.
        destruct (Nat.lt_ge_cases j (argmax sims)).
        - apply (filter_two_positions _ 0 sims j (argmax sims)); [lia | | ]; assumption.
        - apply (filter_two_positions _ 0 sims (argmax sims) j); [lia | | ]; assumption. }
      rewrite <- (Permutation_filter_length _ _ _ (sort_desc_perm (fun x => x) sims))
        in Htwo.
      pose proof (above_second_at_most_one (sort_desc (fun x => x) sims)
                    (sort_desc_sorted (fun x => x) sims)) as Hone.
      rewrite sort_desc_length in Hone. specialize (Hone ltac:(lia)).
      fold second in Hone. lia.
    + apply Qltb_ge in Ej. lra.
  - intros H. split; [exact H |].
    apply Nat.ltb_ge in Elen. intros j Hj Hneq. lia.
Qed.

Lemma infer_category_needs_margin_witness :
  nth_error _CATEGORY_LABELS (argmax [0.2; 0.5; 0.4]%Q) = Some "hoodie"
  /\ forall j, (j < length [0.2; 0.5; 0.4]%Q)%nat -> j <> argmax [0.2; 0.5; 0.4]%Q ->
               nth j [0.2; 0.5; 0.4]%Q 0 + 0.02 <= nth (argmax [0.2; 0.5; 0.4]%Q) [0.2; 0.5; 0.4]%Q 0.
Proof.
  apply (infer_category_needs_margin [0.2; 0.5; 0.4]%Q "hoodie").
  vm_compute. reflexivity.
Defined.

(* ================================================================== *)
(** ** The retrieval metrics *)

Lemma relevant_in_le relevant top_k :
  (relevant_in relevant top_k <= length top_k)%nat.
Proof. unfold relevant_in. apply Subseq_length, Subseq_filter. Qed.

Lemma relevant_in_pos relevant top_k :
  (0 < relevant_in relevant top_k)%nat
  <-> existsb (fun item => Py.mem_str item relevant) top_k = true.
Proof.
  unfold relevant_in. induction top_k as [| x l IH]; simpl.
  - split; [lia | discriminate].
  - destruct (Py.mem_str x relevant); simpl; [split; [reflexivity | lia] | exact IH].
Qed.

Lemma ratio_bounds (a b : Z) :
  (0 <= a <= b)%Z -> (0 < b)%Z ->
  0 <= inject_Z a / inject_Z b /\ inject_Z a / inject_Z b <= 1.
Proof.
  intros Ha Hb.
  assert (0 < inject_Z b) as Hb' by (change 0 with (inject_Z 0); now rewrite <- Zlt_Qlt).
  assert (0 <= inject_Z a) as Ha0 by (change 0 with (inject_Z 0); rewrite <- Zle_Qle; lia).
  assert (inject_Z a <= inject_Z b) as Hab by (rewrite <- Zle_Qle; lia).
  split.
  - apply Qle_shift_div_l; [assumption | lra].
  - apply Qle_shift_div_r; [assumption | lra].
Qed.

Lemma ratio_pos (a b : Z) :
  (0 < b)%Z -> (0 < inject_Z a / inject_Z b <-> (0 < a)%Z).
Proof.
  intros Hb.
  assert (0 < inject_Z b) as Hb' by (change 0 with (inject_Z 0); now rewrite <- Zlt_Qlt).
  split.
  - intros H. destruct (Z.lt_ge_cases 0 a) as [| Hle]; [assumption | exfalso].
    assert (inject_Z a <= 0) as Ha
      by (change 0 with (inject_Z 0); now rewrite <- Zle_Qle).
    assert (inject_Z a / inject_Z b <= 0) as Hq
      by (apply Qle_shift_div_r; [assumption | lra]).
    lra.
  - intros Ha.
    assert (0 < inject_Z a) as Ha'
      by (change 0 with (inject_Z 0); now rewrite <- Zlt_Qlt).
    apply Qlt_shift_div_l; [assumption | lra].
Qed.

Lemma slice_to_count {A} (k : Z) (xs : list A) :
  (0 < k)%Z -> (Z.of_nat (length (Py.slice_to k xs)) <= k)%Z.
Proof. intros Hk. apply slice_to_bound. lia. Qed.

(** X24. Precision at [k] is a fraction between 0 and 1, and for a positive
    [k] it is positive exactly when the hit rate at [k] is 1; the hit rate
    is 0 or 1. *)
Theorem precision_and_hit_rate (relevant retrieved : list string) (k : Z) :
  0 <= precision_at_k relevant retrieved k
  /\ precision_at_k relevant retrieved k <= 1
  /\ (hit_rate_at_k relevant retrieved k = 0 \/ hit_rate_at_k relevant retrieved k = 1)
  /\ ((0 < k)%Z ->
      (0 < precision_at_k relevant retrieved k
       <-> hit_rate_at_k relevant retrieved k = 1)).
Proof.
  unfold precision_at_k, hit_rate_at_k.
  pose proof (relevant_in_pos relevant (Py.slice_to k retrieved)) as Hpos.
  pose proof (relevant_in_le relevant (Py.slice_to k retrieved)) as Hle.
  destruct (Z.leb_spec k 0) as [Hk | Hk]; simpl.
  - repeat split; try lra; try lia.
    destruct (existsb _ _); auto.
  - pose proof (slice_to_count k retrieved Hk) as Hcount.
    destruct retrieved as [| x rest] eqn:E; simpl is_empty; cbv iota.
    + assert (Py.slice_to k (@nil string) = []) as ->
        by (unfold Py.slice_to; destruct (0 <=? k)%Z; now rewrite firstn_nil).
      simpl. repeat split; try lra; auto; intros; try lra; try discriminate.
    + rewrite <- E in *.
      destruct (ratio_bounds (Z.of_nat (relevant_in relevant (Py.slice_to k retrieved))) k)
        as [H0 H1]; [lia | lia |].
      split; [exact H0 |]. split; [exact H1 |]. split.
      * destruct (existsb _ _); auto.
      * intros _. rewrite (ratio_pos _ k Hk).
        destruct (existsb _ (Py.slice_to k retrieved)) eqn:Ex.
        -- split; [reflexivity | intros _].
           assert (0 < relevant_in relevant (Py.slice_to k retrieved))%nat as Hn
             by (apply Hpos; reflexivity).
           lia.
        -- split; [| discriminate]. intros Hp.
           assert (0 < relevant_in relevant (Py.slice_to k retrieved))%nat as Hn by lia.
           apply Hpos in Hn. discriminate.
Qed.

Lemma precision_and_hit_rate_witness :
  0 < precision_at_k ["a"] ["c"; "a"; "b"] 2
  <-> hit_rate_at_k ["a"] ["c"; "a"; "b"] 2 = 1.
Proof.
  apply (proj2 (proj2 (proj2 (precision_and_hit_rate ["a"] ["c"; "a"; "b"] 2)))).
  lia.
Defined.

Lemma nodup_set_size relevant top_k :
  NoDup top_k ->
  (relevant_in relevant top_k <= set_size relevant)%nat.
Proof.
  intros Hnd. unfold relevant_in, set_size.
  apply NoDup_incl_length.
  - eapply Subseq_NoDup; [apply Subseq_filter | assumption].
  - intros x Hx. apply filter_In in Hx. destruct Hx as [_ Hx].
    apply nodup_In. now apply mem_str_In.
Qed.

(** X25. Recall at [k] is never negative, and it is at most 1 when the
    retrieved list holds no id twice. *)
Theorem recall_bounds (relevant retrieved : list string) (k : Z) :
  0 <= recall_at_k relevant retrieved k
  /\ (NoDup retrieved -> recall_at_k relevant retrieved k <= 1).
Proof.
  unfold recall_at_k.
  destruct relevant as [| r0 rel'] eqn:E; simpl is_empty; cbv iota;
    [simpl; split; [lra | intros _; lra] |].
  rewrite <- E.
  destruct (Z.leb_spec k 0) as [Hk | Hk]; simpl; [split; [lra | intros _; lra] |].
  assert (0 < set_size relevant)%nat as Hsize.
  { unfold set_size.
    assert (In r0 (nodup string_dec relevant)) as Hin
      by (apply nodup_In; rewrite E; now left).
    destruct (nodup string_dec relevant); [destruct Hin | simpl; lia]. }
  assert (0 < inject_Z (Z.of_nat (set_size relevant))) as Hden
    by (change 0 with (inject_Z 0); rewrite <- Zlt_Qlt; lia).
  assert (0 <= inject_Z (Z.of_nat (relevant_in relevant (Py.slice_to k retrieved))))
    as Hnum by (change 0 with (inject_Z 0); rewrite <- Zle_Qle; lia).
  split.
  - apply Qle_shift_div_l; [assumption | lra].
  - intros Hnd.
    apply ratio_bounds; [| lia].
    split; [lia |]. apply Nat2Z.inj_le, nodup_set_size.
    destruct (slice_to_firstn k retrieved) as [n ->]. now apply NoDup_firstn.
Qed.

Lemma recall_bounds_witness :
  recall_at_k ["a"; "b"] ["a"; "c"; "b"] 2 <= 1.
Proof.
  apply (proj2 (recall_bounds ["a"; "b"] ["a"; "c"; "b"] 2)).
  repeat constructor; simpl; intuition discriminate.
Defined.

Lemma precision_nonneg relevant retrieved k :
  0 <= precision_at_k relevant retrieved k.
Proof.
  unfold precision_at_k. destruct (Z.leb_spec k 0) as [Hk | Hk]; simpl; [lra |].
  destruct (is_empty retrieved); [lra |].
  pose proof (relevant_in_le relevant (Py.slice_to k retrieved)).
  pose proof (slice_to_count k retrieved Hk).
  apply ratio_bounds; lia.
Qed.

Lemma recall_nonneg relevant retrieved k :
  0 <= recall_at_k relevant retrieved k.
Proof.
  unfold recall_at_k. destruct (is_empty relevant || (k <=? 0)%Z); [lra |].
  set (a := relevant_in relevant (Py.slice_to k retrieved)).
  set (b := set_size relevant).
  unfold Qdiv. apply Qmult_le_0_compat.
  - change 0 with (inject_Z 0). rewrite <- Zle_Qle. lia.
  - apply Qinv_le_0_compat. change 0 with (inject_Z 0). rewrite <- Zle_Qle. lia.
Qed.

Lemma recall_pos relevant retrieved k :
  0 < recall_at_k relevant retrieved k
  <-> (0 < k)%Z
      /\ existsb (fun item => Py.mem_str item relevant) (Py.slice_to k retrieved) = true.
Proof.
  unfold recall_at_k.
  pose proof (relevant_in_pos relevant (Py.slice_to k retrieved)) as Hpos.
  destruct (Z.leb_spec k 0) as [Hk | Hk].
  - rewrite orb_true_r. split; [intros H; lra | intros [H _]; lia].
  - rewrite orb_false_r.
    destruct relevant as [| r0 rel'] eqn:E; simpl is_empty; cbv iota.
    + split; [intros H; lra |]. intros [_ H]. exfalso.
      assert (forall l, existsb (fun item => Py.mem_str item []) l = false) as Hno
        by (induction l; simpl; auto).
      rewrite Hno in H. discriminate.
    + rewrite <- E in *.
      assert (0 < set_size relevant)%nat as Hsize.
      { unfold set_size.
        assert (In r0 (nodup string_dec relevant)) as Hin
          by (apply nodup_In; rewrite E; now left).
        destruct (nodup string_dec relevant); [destruct Hin | simpl; lia]. }
      rewrite ratio_pos by lia. rewrite <- Hpos. split; [intros H; split; lia | lia].
Qed.

Lemma precision_pos relevant retrieved k :
  0 < precision_at_k relevant retrieved k
  <-> (0 < k)%Z
      /\ existsb (fun item => Py.mem_str item relevant) (Py.slice_to k retrieved) = true.
Proof.
  unfold precision_at_k.
  pose proof (relevant_in_pos relevant (Py.slice_to k retrieved)) as Hpos.
  destruct (Z.leb_spec k 0) as [Hk | Hk].
  - simpl. split; [intros H; lra | intros [H _]; lia].
  - cbn [orb]. destruct retrieved as [| x rest] eqn:E; simpl is_empty; cbv iota.
    + rewrite slice_to_nil. simpl. split; [intros H; lra | intros [_ H]; discriminate].
    + rewrite <- E in *. rewrite ratio_pos by lia. rewrite <- Hpos.
      split; [intros H; split; lia | lia].
Qed.

(** X26. F1 at [k] is never negative, and it is positive exactly when [k] is
    positive and a relevant item stands among the first [k] retrieved items;
    otherwise it is 0. *)
Theorem f1_positive_iff_hit (relevant retrieved : list string) (k : Z) :
  0 <= f1_at_k relevant retrieved k
  /\ (0 < f1_at_k relevant retrieved k
      <-> (0 < k)%Z
          /\ existsb (fun item => Py.mem_str item relevant)
                     (Py.slice_to k retrieved) = true).
Proof.
  pose proof (precision_nonneg relevant retrieved k) as Hp.
  pose proof (recall_nonneg relevant retrieved k) as Hr.
  pose proof (precision_pos relevant retrieved k) as Hpp.
  pose proof (recall_pos relevant retrieved k) as Hrp.
  unfold f1_at_k.
  set (prec := precision_at_k relevant retrieved k) in *.
  set (rec := recall_at_k relevant retrieved k) in *.
  destruct (Qeq_bool (prec + rec) 0) eqn:E.
  - apply Qeq_bool_iff in E. split; [lra |].
    split; [intros H; lra |]. intros H. apply Hpp in H. lra.
  - apply Qeq_bool_neq in E.
    assert (0 < prec + rec) as Hsum.
    { destruct (Qlt_le_dec 0 (prec + rec)) as [| Hle]; [assumption |].
      exfalso. apply E. lra. }
    split.
    + apply Qle_shift_div_l; [assumption | nra].
    + split.
      * intros H. destruct (Qlt_le_dec 0 prec) as [Hpos | Hle]; [now apply Hpp |].
        exfalso. assert (prec == 0) as Hz by lra.
        assert (2 * (prec * rec) / (prec + rec) == 0) as Hf.
        { rewrite Hz. unfold Qdiv. ring. }
        rewrite Hf in H. lra.
      * intros H. pose proof (proj2 Hpp H) as H1. pose proof (proj2 Hrp H) as H2.
        apply Qlt_shift_div_l; [assumption | nra].
Qed.

Lemma reciprocal_rank_bounds relevant retrieved :
  forall rank,
    0 <= reciprocal_rank_from rank relevant retrieved
    /\ reciprocal_rank_from rank relevant retrieved <= 1
    /\ (0 < reciprocal_rank_from rank relevant retrieved
        <-> existsb (fun item => Py.mem_str item relevant) retrieved = true).
Proof.
  induction retrieved as [| x l IH]; intros rank; simpl.
  - split; [lra |]. split; [lra |]. split; [lra | discriminate].
  - destruct (Py.mem_str x relevant); simpl; [| apply IH].
    assert (0 < inject_Z (Z.pos rank)) as Hpos by reflexivity.
    assert (1 <= inject_Z (Z.pos rank)) as Hone
      by (change 1 with (inject_Z 1); rewrite <- Zle_Qle; lia).
    split; [apply Qle_shift_div_l; [assumption | lra] |].
    split; [apply Qle_shift_div_r; [assumption | lra] |].
    split; [reflexivity | intros _].
    apply Qlt_shift_div_l; [assumption | lra].
Qed.

Lemma reciprocal_rank_first relevant retrieved :
  forall rank i,
    (i < length retrieved)%nat ->
    Py.mem_str (nth i retrieved "") relevant = true ->
    (forall j, (j < i)%nat -> Py.mem_str (nth j retrieved "") relevant = false) ->
    reciprocal_rank_from rank relevant retrieved
    = 1 / inject_Z (Z.pos rank + Z.of_nat i).
Proof.
  induction retrieved as [| x l IH]; intros rank i Hi Hrel Hfirst;
    [simpl in Hi; lia |].
  destruct i as [| i]; cbn [reciprocal_rank_from].
  - cbn [nth] in Hrel. rewrite Hrel.
    replace (Z.pos rank + Z.of_nat 0)%Z with (Z.pos rank) by lia. reflexivity.
  - pose proof (Hfirst 0%nat ltac:(lia)) as H0. cbn [nth] in H0, Hrel. rewrite H0.
    rewrite (IH (Pos.succ rank) i).
    + replace (Z.pos (Pos.succ rank) + Z.of_nat i)%Z
        with (Z.pos rank + Z.of_nat (S i))%Z by lia.
      reflexivity.
    + simpl in Hi. lia.
    + exact Hrel.
    + intros j Hj. apply (Hfirst (S j)). lia.
Qed.

(** X27. The reciprocal rank is 0 when no retrieved item is relevant and
    otherwise 1 over the rank, counted from one, of the first relevant item;
    so it lies between 0 and 1, and is positive exactly when some retrieved
    item is relevant. *)
Theorem mean_reciprocal_rank_first_hit (relevant retrieved : list string) :
  0 <= mean_reciprocal_rank relevant retrieved
  /\ mean_reciprocal_rank relevant retrieved <= 1
  /\ (0 < mean_reciprocal_rank relevant retrieved
      <-> existsb (fun item => Py.mem_str item relevant) retrieved = true)
  /\ (forall i,
        (i < length retrieved)%nat ->
        Py.mem_str (nth i retrieved "") relevant = true ->
        (forall j, (j < i)%nat -> Py.mem_str (nth j retrieved "") relevant = false) ->
        mean_reciprocal_rank relevant retrieved = 1 / inject_Z (Z.of_nat (S i))).
Proof.
  unfold mean_reciprocal_rank.
  destruct (reciprocal_rank_bounds relevant retrieved 1) as [H0 [H1 Hpos]].
  repeat split; try assumption; try apply Hpos.
  intros i Hi Hrel Hfirst.
  rewrite (reciprocal_rank_first relevant retrieved 1 i Hi Hrel Hfirst).
  replace (1 + Z.of_nat i)%Z with (Z.of_nat (S i)) by lia. reflexivity.
Qed.

Lemma mean_reciprocal_rank_first_hit_witness :
  mean_reciprocal_rank ["b"] ["a"; "b"; "c"] = 1 / inject_Z (Z.of_nat 2).
Proof.
  apply (proj2 (proj2 (proj2 (mean_reciprocal_rank_first_hit ["b"] ["a"; "b"; "c"])))
           1%nat).
  - simpl. lia.
  - reflexivity.
  - intros j Hj. assert (j = 0%nat) as -> by lia. reflexivity.
Defined.


(* ================================================================== *)
(** ** The keyword scorer after a pipeline that chose nothing *)

(** An empty pool gives an empty result, whatever the text. *)
Lemma keyword_fallback_empty_pool df filters top_k user_text :
  fallback_cand df filters = Some [] ->
  _keyword_fallback df filters top_k user_text = Some [].
Proof.
  intros H. unfold _keyword_fallback. rewrite H. simpl. now rewrite slice_to_nil.
Qed.

(** A row of the pool that is scored makes the result non-empty. *)
Lemma keyword_fallback_overlap_nonempty
      df filters top_k user_text cand i r tok :
  (1 <= top_k)%Z ->
  fallback_cand df filters = Some cand ->
  In (i, r) cand ->
  0 <= price r ->
  (Py.truthy (f_category filters) = true ->
   category_matches (opt_str (f_category filters)) r = true) ->
  In tok (tokens_of (Py.lower user_text)) ->
  Py.str_in tok (Py.lower (title r)) || Py.str_in tok (Py.lower (description r))
  || Py.str_in tok (Py.lower (tags r)) = true ->
  exists idxs,
    _keyword_fallback df filters top_k user_text = Some idxs /\ idxs <> [].
Proof.
  intros Hk Hcand Hin Hprice Hcat Htok Hhit.
  unfold _keyword_fallback. rewrite Hcand.
  set (text := Py.lower user_text) in *.
  set (token_set := nodup string_dec (tokens_of text)).
  assert (In tok token_set) as Hset by (now apply nodup_In).
  assert (nonempty tok = true) as Hne.
  { unfold tokens_of in Htok. apply filter_In in Htok. tauto. }
  pose proof (keyword_score_overlap text token_set r tok Hset Hne Hhit) as Hscore.
  destruct (fallback_cand_price df filters cand i r Hcand Hin) as [Hlo Hhi].
  destruct (fallback_row_scored filters text token_set r Hlo Hhi Hcat Hprice Hscore)
    as [s Hrow].
  pose proof (fallback_scores_In filters text token_set _ i r s Hin Hrow) as Hs.
  eexists. split; [reflexivity |].
  intros Hnil. apply map_eq_nil in Hnil.
  revert Hnil. apply slice_to_nonempty; [assumption |].
  intros Hsorted. apply (f_equal (@length _)) in Hsorted.
  rewrite sort_desc_length in Hsorted.
  destruct (fallback_scores filters text token_set cand);
    [destruct Hs | discriminate].
Qed.

Lemma add_unique_nil_inv df top_k pool :
  (1 <= top_k)%Z -> add_unique df top_k [] pool = [] -> pool = [].
Proof.
  intros Hk H. rewrite add_unique_fresh in H. cbn [map length app] in H.
  destruct pool as [| i pool]; [reflexivity | exfalso].
  cbn [fresh_by_key] in H.
  assert (mem_key (dedup_key df i) [] = false) as E by reflexivity.
  rewrite E in H.
  assert (exists n, Z.to_nat (top_k - Z.of_nat 0) = S n) as [n Hn]
    by (exists (Z.to_nat (top_k - 1)); lia).
  rewrite Hn in H. cbn [firstn] in H. discriminate.
Qed.

Lemma stage2_nil df filters top_k cand chosen :
  stage2 df filters top_k cand chosen = [] -> chosen = [].
Proof.
  unfold stage2. destruct (_ && _); [| auto].
  rewrite add_unique_fresh. intros H. now apply app_eq_nil in H.
Qed.

Lemma stage3_nil df filters top_k cand chosen :
  stage3 df filters top_k cand chosen = [] -> chosen = [].
Proof.
  unfold stage3. destruct (_ && _); [| auto].
  rewrite add_unique_fresh. intros H. now apply app_eq_nil in H.
Qed.

(** When the pipeline chooses nothing for a [top_k] of one or more although
    every row of the catalog was a candidate, no row passes the filter. *)
Lemma pick_nothing_pool_empty df filters top_k min_unique scored :
  (1 <= top_k)%Z ->
  _pick_with_filters df filters top_k min_unique scored = Some [] ->
  (forall i, (i < length df)%nat -> In i (map fst scored)) ->
  apply_filters (labelled df) filters = Some [].
Proof.
  intros Hk H Hall. apply pick_with_filters_some in H.
  destruct H as [allowed [Hallowed [Hvalid Hchosen]]].
  rewrite Hallowed. f_equal.
  set (cand := map fst scored) in *.
  destruct (override_fires min_unique cand (staged df filters top_k allowed cand)) eqn:Ef.
  - exfalso. unfold override_fires in Ef. apply andb_true_iff in Ef.
    destruct Ef as [E1 E2]. apply Z.ltb_lt in E1. apply Z.leb_le in E2.
    assert (cand <> []) as Hne.
    { intros E. rewrite E in E2. simpl in E2. lia. }
    unfold override in Hchosen. symmetry in Hchosen.
    revert Hchosen. apply slice_to_nonempty; [lia |].
    intros E. apply (add_unique_nil_inv df top_k cand Hk) in E. contradiction.
  - symmetry in Hchosen. unfold staged in Hchosen.
    apply stage3_nil, stage2_nil in Hchosen.
    unfold stage1 in Hchosen. apply (add_unique_nil_inv _ _ _ Hk) in Hchosen.
    destruct allowed as [| [i r] rest]; [reflexivity | exfalso].
    assert (In (i, r) (labelled df)) as Hin.
    { eapply (In_apply_filters (i, r)); [exact Hallowed | now left]. }
    apply In_labelled in Hin.
    assert (i < length df)%nat as Hi by (apply nth_error_Some; congruence).
    assert (In i (primary_all df ((i, r) :: rest) cand)) as Hprim.
    { unfold primary_all. apply filter_In. split; [now apply Hall |].
      apply mem_str_In. left. simpl. now rewrite (row_nth_error _ _ _ Hin). }
    rewrite Hchosen in Hprim. destruct Hprim.
Qed.

Lemma pick_nothing_fallback_nothing df filters top_k min_unique scored user_text :
  (1 <= top_k)%Z ->
  _pick_with_filters df filters top_k min_unique scored = Some [] ->
  (forall i, (i < length df)%nat -> In i (map fst scored)) ->
  _keyword_fallback df filters top_k user_text = Some [].
Proof.
  intros Hk H Hall.
  pose proof (pick_nothing_pool_empty _ _ _ _ _ Hk H Hall) as Hpool.
  apply keyword_fallback_empty_pool. unfold fallback_cand.
  destruct (any_filter filters) eqn:E; [exact Hpool |].
  rewrite (apply_filters_no_filter _ _ E) in Hpool. exact Hpool.
Qed.



